(** * Jubjub: field elements, scalars and the twisted Edwards group law

    A shallow embedding of the Go package [jubjub] (field_element.go,
    scalar.go, jubjub.go) and the properties of its point codec, its
    group law and its error paths.

    [*big.Int] values are integers of [Z]; byte slices are lists of
    [Byte.byte].  A method with a pointer receiver that it overwrites is a
    function from the receiver and the arguments to the receiver's new value;
    the store-level model of the in-place point operations, where the
    receiver may alias an argument, follows the value-level one. *)

From Stdlib Require Import ZArith List Lia Bool.
From Stdlib Require Import Strings.Byte.
From Stdlib Require Import Znumtheory Zdivisibility Zcong.
From Stdlib Require Import Zmod.
From Stdlib Require Import Morphisms Setoid.
Import ListNotations.
Local Open Scope Z_scope.

(** ** The operations of math/big the package calls

    The package delegates integer arithmetic to Go's [math/big].  Each
    operation is written here as an executable function that follows the
    documented behaviour of the library for a positive modulus. *)
Module Big.

(** [x.Cmp(y)]: -1, 0 or +1. *)
Definition Cmp (x y : Z) : Z :=
  match x ?= y with Lt => -1 | Eq => 0 | Gt => 1 end.

(** [z.Mod(x, m)]: Euclidean modulus, a result in [[0, |m|)]. *)
Definition Mod (x m : Z) : Z := x mod Z.abs m.

(** [x.BitLen()]: length of the absolute value in bits, 0 for 0. *)
Definition BitLen (x : Z) : Z :=
  if x =? 0 then 0 else Z.log2 (Z.abs x) + 1.

(** [x.Bit(i)]. *)
Definition Bit (x : Z) (i : Z) : Z := if Z.testbit x i then 1 else 0.

(** Square and multiply, every intermediate product reduced. *)
Fixpoint powmod_pos (x : Z) (e : positive) (m : Z) : Z :=
  match e with
  | xH => x mod m
  | xO e' => let t := powmod_pos x e' m in (t * t) mod m
  | xI e' => let t := powmod_pos x e' m in ((t * t) mod m * x) mod m
  end.

Definition powmod (x e m : Z) : Z :=
  match e with
  | Zpos e' => powmod_pos x e' m
  | _ => 1 mod m
  end.

(** [z.ModInverse(g, n)]: the inverse of [g] in Z/nZ, in [[0, n)]; when
    [g] and [n] are not relatively prime there is none, [z] is left unchanged
    and nil is returned ([None] here). *)
Definition ModInverse (g n : Z) : option Z :=
  let n := Z.abs n in
  let g := if g <? 0 then g mod n else g in
  if Z.gcd g n =? 1 then Some (Z.invmod g n) else None.

(** [z.Exp(x, y, m)] for [m <> 0]: [x**y mod |m|]; a negative [y] takes the
    power of the inverse of [x], and when [x] has none [z] is left unchanged
    and nil is returned ([None] here). *)
Definition Exp (x y m : Z) : option Z :=
  let m := Z.abs m in
  if y <? 0 then
    match ModInverse x m with
    | Some xi => Some (powmod xi (- y) m)
    | None => None
    end
  else Some (powmod x y m).

(** [Jacobi(x, y)] for an odd prime [y], where it is the Legendre symbol:
    0 when [y] divides [x], +1 when [x] is a square modulo [y], -1 when it
    is not.  The symbol is evaluated by Euler's criterion. *)
Definition Jacobi (x y : Z) : Z :=
  let r := powmod x ((y - 1) / 2) y in
  if r =? 0 then 0 else if r =? 1 then 1 else -1.

(** [s.abs.trailingZeroBits()] *)
Fixpoint trailingZeroBits_pos (s : positive) : Z :=
  match s with
  | xO s' => 1 + trailingZeroBits_pos s'
  | _ => 0
  end.

Definition trailingZeroBits (s : Z) : Z :=
  match s with
  | Zpos s' => trailingZeroBits_pos s'
  | Zneg s' => trailingZeroBits_pos s'
  | Z0 => 0
  end.

(** The search [for Jacobi(&n, p) != -1 { n.Add(&n, intOne) }], with the
    number of candidates tried made explicit. *)
Fixpoint find_nonresidue (fuel : nat) (n p : Z) : Z :=
  match fuel with
  | O => n
  | S k => if Jacobi n p =? -1 then n else find_nonresidue k (n + 1) p
  end.

(** The inner loop of Tonelli-Shanks:
    [for t.Cmp(intOne) != 0 { t.Mul(&t, &t).Mod(&t, p); m++ }]. *)
Fixpoint order_exponent (fuel : nat) (t p : Z) (m : Z) : Z :=
  match fuel with
  | O => m
  | S k => if t =? 1 then m else order_exponent k ((t * t) mod p) p (m + 1)
  end.

(** The outer loop of Tonelli-Shanks on the state [(y, b, g, r)]. *)
Fixpoint tonelli_shanks_loop (fuel : nat) (p y b g r : Z) : Z :=
  match fuel with
  | O => y
  | S k =>
      let m := order_exponent (Z.to_nat r) b p 0 in
      if m =? 0 then y
      else
        let t := powmod g (2 ^ (r - m - 1)) p in
        let g' := (t * t) mod p in
        let y' := (y * t) mod p in
        let b' := (b * g') mod p in
        tonelli_shanks_loop k p y' b' g' m
  end.

Definition modSqrtTonelliShanks (x p : Z) : Z :=
  let s0 := p - 1 in
  let e := trailingZeroBits s0 in
  let s := Z.shiftr s0 e in
  let n := find_nonresidue 256 2 p in
  let y := powmod x (Z.shiftr (s + 1) 1) p in
  let b := powmod x s p in
  let g := powmod n s p in
  tonelli_shanks_loop (S (Z.to_nat e)) p y b g e.

(** [z = x^((p+1)/4)] for [p = 3 mod 4]. *)
Definition modSqrt3Mod4Prime (x p : Z) : Z :=
  powmod x (Z.shiftr (p + 1) 2) p.

(** Atkin's formula for [p = 5 mod 8]. *)
Definition modSqrt5Mod8Prime (x p : Z) : Z :=
  let e := Z.shiftr p 3 in
  let tx := Z.shiftl x 1 in
  let alpha := powmod tx e p in
  let beta := ((alpha * alpha) mod p * tx) mod p in
  let beta := beta - 1 in
  ((beta * x) mod p * alpha) mod p.

(** [z.ModSqrt(x, p)] for an odd prime [p]: a square root of [x] modulo
    [p] when there is one; otherwise [z] is left unchanged and nil is
    returned ([None] here). *)
Definition ModSqrt (x p : Z) : option Z :=
  let j := Jacobi x p in
  if j =? -1 then None
  else if j =? 0 then Some 0
  else
    let x := if (x <? 0) || (p <=? x) then x mod p else x in
    if p mod 4 =? 3 then Some (modSqrt3Mod4Prime x p)
    else if p mod 8 =? 5 then Some (modSqrt5Mod8Prime x p)
    else Some (modSqrtTonelliShanks x p).

(** [bits.UintSize] on a 64-bit platform, the size of a [big.Word]. *)
Definition UintSize : Z := 64.

(** [z.SetBits(words)]: the natural number with the given little-endian
    words. *)
Definition SetBits (words : list Z) : Z :=
  fold_right (fun w acc => w + 2 ^ UintSize * acc) 0 words.

(** [x.Bits()]: the little-endian words of [|x|], without leading zero
    words (the empty slice for 0). *)
Fixpoint nat_words (fuel : nat) (v : Z) : list Z :=
  match fuel with
  | O => []
  | S k => if v =? 0 then []
           else (v mod 2 ^ UintSize) :: nat_words k (v / 2 ^ UintSize)
  end.

Definition Bits (x : Z) : list Z := nat_words (Z.to_nat (BitLen x)) (Z.abs x).

End Big.

(** ** Bytes *)

Definition byte_to_Z (b : byte) : Z := Z.of_N (Byte.to_N b).

(** The conversion [byte(w)] of a word: the low eight bits. *)
Definition byte_of_Z (w : Z) : byte :=
  match Byte.of_N (Z.to_N (w mod 256)) with
  | Some b => b
  | None => x00
  end.

(** The inner loop of [fromBytes]:
    [for i := 0; i < bits.UintSize; i += 8 { if len(in) == 0 { break };
       words[n] |= big.Word(in[0]) << big.Word(i); in = in[1:] }]. *)
Fixpoint read_word (steps : nat) (i : Z) (w : Z) (inp : list byte)
  : Z * list byte :=
  match steps with
  | O => (w, inp)
  | S k =>
      match inp with
      | [] => (w, inp)
      | b :: rest =>
          read_word k (i + 8) (Z.lor w (Z.shiftl (byte_to_Z b) i)) rest
      end
  end.

(** The outer loop [for n := range words]. *)
Fixpoint read_words (nwords : nat) (inp : list byte) : list Z :=
  match nwords with
  | O => []
  | S k =>
      let '(w, rest) := read_word (Z.to_nat (Big.UintSize / 8)) 0 0 inp in
      w :: read_words k rest
  end.

(** The inner loop of [ToBytes]:
    [for i := 0; i < bits.UintSize; i += 8 { if len(buf) >= cap(buf) { break };
       buf = append(buf, byte(word)); word >>= 8 }]. *)
Fixpoint write_word (steps : nat) (cap : nat) (word : Z) (buf : list byte)
  : list byte :=
  match steps with
  | O => buf
  | S k =>
      if (cap <=? length buf)%nat then buf
      else write_word k cap (Z.shiftr word 8) (buf ++ [byte_of_Z word])
  end.

(** The shared body of [FieldElement.ToBytes] and [Scalar.ToBytes] after
    the reduction: the words are serialised into a buffer of capacity
    [(BitLen(order)+7)/8], and the buffer is resliced to its capacity, the
    tail being the zero bytes of [make]. *)
Definition words_to_bytes (v order : Z) : list byte :=
  let cap := Z.to_nat ((Big.BitLen order + 7) / 8) in
  let buf :=
    fold_left (fun buf word =>
                 write_word (Z.to_nat (Big.UintSize / 8)) cap word buf)
              (Big.Bits v) [] in
  buf ++ repeat x00 (cap - length buf).

(** The shared prefix of [FieldElement.fromBytes] and [Scalar.fromBytes]:
    the value set by [SetBits(words)]. *)
Definition bytes_to_nat (ser : list byte) (order : Z) : Z :=
  Big.SetBits
    (read_words (Z.to_nat ((Big.BitLen order + 7) / Big.UintSize)) ser).

(** ** field_element.go *)

Record FieldElement := mkFE { fe_n : Z; fe_fieldOrder : Z }.

(** [newFieldElement(n, order)]; a nil [n] is [None]. *)
Definition newFieldElement (n : option Z) (order : Z) : FieldElement :=
  let n := match n with Some n => n | None => 0 end in
  let n := if Big.Cmp n order =? 1 then Big.Mod n order else n in
  mkFE n order.

Definition FieldElement_Set (z x : FieldElement) : FieldElement :=
  mkFE (fe_n x) (fe_fieldOrder z).

Definition FieldElement_Equals (z x : FieldElement) : bool :=
  Big.Cmp (fe_n z) (fe_n x) =? 0.

Definition FieldElement_Cmp (z x : FieldElement) : Z := Big.Cmp (fe_n z) (fe_n x).

(** [Exp] ignores the nil of [big.Int.Exp] and returns the receiver. *)
Definition FieldElement_Exp (z x y : FieldElement) : FieldElement :=
  match Big.Exp (fe_n x) (fe_n y) (fe_fieldOrder z) with
  | Some v => mkFE v (fe_fieldOrder z)
  | None => z
  end.

Definition FieldElement_Mul (z x y : FieldElement) : FieldElement :=
  mkFE (Big.Mod (fe_n x * fe_n y) (fe_fieldOrder z)) (fe_fieldOrder z).

Definition FieldElement_Sub (z x y : FieldElement) : FieldElement :=
  mkFE (Big.Mod (fe_n x - fe_n y) (fe_fieldOrder z)) (fe_fieldOrder z).

Definition FieldElement_Add (z x y : FieldElement) : FieldElement :=
  mkFE (Big.Mod (fe_n x + fe_n y) (fe_fieldOrder z)) (fe_fieldOrder z).

Definition FieldElement_Neg (z x : FieldElement) : FieldElement :=
  mkFE (Big.Mod (- fe_n x) (fe_fieldOrder z)) (fe_fieldOrder z).

(** [ModInverse] ignores the nil of [big.Int.ModInverse] and returns the
    receiver in every case. *)
Definition FieldElement_ModInverse (z x : FieldElement) : FieldElement :=
  match Big.ModInverse (fe_n x) (fe_fieldOrder z) with
  | Some v => mkFE v (fe_fieldOrder z)
  | None => z
  end.

(** [ModSqrt] returns nil ([None]) when there is no square root. *)
Definition FieldElement_ModSqrt (z x : FieldElement) : option FieldElement :=
  match Big.ModSqrt (fe_n x) (fe_fieldOrder z) with
  | Some v => Some (mkFE v (fe_fieldOrder z))
  | None => None
  end.

Definition FieldElement_fromBytes (z : FieldElement) (ser : list byte) : FieldElement :=
  mkFE (Big.Mod (bytes_to_nat ser (fe_fieldOrder z)) (fe_fieldOrder z))
       (fe_fieldOrder z).

(** [ToBytes] first reduces the receiver in place; the bytes are those of
    the reduced value. *)
Definition FieldElement_ToBytes (z : FieldElement) : list byte :=
  words_to_bytes (Big.Mod (fe_n z) (fe_fieldOrder z)) (fe_fieldOrder z).

(** ** scalar.go *)

Record Scalar := mkScalar { sc_n : Z; sc_fieldOrder : Z }.

(** The error values of the package. *)
Inductive error := ErrInvalidPoint | ErrIdentity | ErrScalarOutOfRange.

(** [newScalar(n, order)]: the scalar and the error, nil being [None]. *)
Definition newScalar (n : option Z) (order : Z) : Scalar * option error :=
  let n := match n with Some n => n | None => 0 end in
  if (Big.Cmp n order =? 1) || (Big.Cmp n 0 =? -1) then
    (mkScalar (Big.Mod n order) order, Some ErrScalarOutOfRange)
  else (mkScalar n order, None).

Definition Scalar_fromBytes (sc : Scalar) (inp : list byte) : Scalar * option error :=
  let n := bytes_to_nat inp (sc_fieldOrder sc) in
  if (Big.Cmp n (sc_fieldOrder sc) =? 1) || (Big.Cmp n 0 =? -1) then
    (mkScalar (Big.Mod n (sc_fieldOrder sc)) (sc_fieldOrder sc),
     Some ErrScalarOutOfRange)
  else (mkScalar n (sc_fieldOrder sc), None).

Definition Scalar_ToBytes (sc : Scalar) : list byte :=
  words_to_bytes (Big.Mod (sc_n sc) (sc_fieldOrder sc)) (sc_fieldOrder sc).

(** ** jubjub.go *)

Record Jubjub := mkJubjub {
  jj_fieldOrder : Z;
  jj_subgroupOrder : Z;
  jj_generatorY : FieldElement;
  jj_d : FieldElement;
  jj_cofactor : Scalar;
  jj_fieldZero : FieldElement;
  jj_fieldOne : FieldElement
}.

Record Point := mkPoint { pt_curve : Jubjub; pt_x : FieldElement; pt_y : FieldElement }.

Definition p_order : Z :=
  52435875175126190479447740508185965837690552500527637822603658699938581184513.

Definition q_order : Z :=
  6554484396890773809930967563523245729705921265872317281365359162392183254199.

(** [Curve()].  The coefficient is built as
    [d.ModInverse(d, fieldOrder); d.Mul(d, big.NewInt(-10240))], a product
    that is not reduced before it is handed to [newFieldElement]. *)
Definition Curve : Jubjub :=
  let fieldOrder := p_order in
  let subgroupOrder := q_order in
  let d := 10241 in
  let d := match Big.ModInverse d fieldOrder with Some v => v | None => d end in
  let d := d * (-10240) in
  let feZero := newFieldElement (Some 0) fieldOrder in
  let feOne := newFieldElement (Some 1) fieldOrder in
  let h := fst (newScalar (Some 8) subgroupOrder) in
  mkJubjub fieldOrder subgroupOrder
           (newFieldElement (Some 11) fieldOrder)
           (newFieldElement (Some d) fieldOrder)
           h feZero feOne.

Definition Jubjub_newFieldElement (curve : Jubjub) (n : option Z) : FieldElement :=
  newFieldElement n (jj_fieldOrder curve).

Definition Jubjub_FeFromBytes (curve : Jubjub) (inp : list byte) : FieldElement :=
  FieldElement_fromBytes (newFieldElement None (jj_fieldOrder curve)) inp.

Definition Jubjub_ScalarFromBytes (curve : Jubjub) (inp : list byte)
  : Scalar * option error :=
  let sc := fst (newScalar None (jj_subgroupOrder curve)) in
  Scalar_fromBytes sc inp.

Definition Jubjub_ScalarFromBig (curve : Jubjub) (n : option Z)
  : Scalar * option error :=
  newScalar n (jj_subgroupOrder curve).

Definition Jubjub_Identity (curve : Jubjub) : Point :=
  mkPoint curve (Jubjub_newFieldElement curve (Some 0))
          (Jubjub_newFieldElement curve (Some 1)).

(** [curve.Add(p1, p2)], which allocates its result. *)
Definition Jubjub_Add (curve : Jubjub) (p1 p2 : Point) : Point :=
  let fresh := newFieldElement None (jj_fieldOrder curve) in
  let x1y2 := FieldElement_Mul fresh (pt_x p1) (pt_y p2) in
  let x2y1 := FieldElement_Mul fresh (pt_x p2) (pt_y p1) in
  let y1y2 := FieldElement_Mul fresh (pt_y p1) (pt_y p2) in
  let x1x2 := FieldElement_Mul fresh (pt_x p1) (pt_x p2) in
  let commonTerm := FieldElement_Mul fresh x1x2 y1y2 in
  let commonTerm := FieldElement_Mul commonTerm commonTerm (jj_d curve) in
  let tmp1 := FieldElement_Add fresh (jj_fieldOne curve) commonTerm in
  let tmp1 := FieldElement_ModInverse tmp1 tmp1 in
  let tmp2 := FieldElement_Sub fresh (jj_fieldOne curve) commonTerm in
  let tmp2 := FieldElement_ModInverse tmp2 tmp2 in
  let x3 := fresh in
  let x3 := FieldElement_Add x3 x1y2 x2y1 in
  let x3 := FieldElement_Mul x3 x3 tmp1 in
  let y3 := fresh in
  let y3 := FieldElement_Add y3 y1y2 x1x2 in
  let y3 := FieldElement_Mul y3 y3 tmp2 in
  mkPoint curve x3 y3.

(** [curve.Double(p1)], which allocates its result. *)
Definition Jubjub_Double (curve : Jubjub) (p1 : Point) : Point :=
  let fresh := newFieldElement None (jj_fieldOrder curve) in
  let x1x1 := FieldElement_Mul fresh (pt_x p1) (pt_x p1) in
  let y1y1 := FieldElement_Mul fresh (pt_y p1) (pt_y p1) in
  let x1y1 := FieldElement_Mul fresh (pt_x p1) (pt_y p1) in
  let commonTerm := FieldElement_Mul fresh x1x1 y1y1 in
  let commonTerm := FieldElement_Mul commonTerm commonTerm (jj_d curve) in
  let tmp := FieldElement_Add fresh (jj_fieldOne curve) commonTerm in
  let tmp := FieldElement_ModInverse tmp tmp in
  let x3 := fresh in
  let x3 := FieldElement_Add x3 x1y1 x1y1 in
  let x3 := FieldElement_Mul x3 x3 tmp in
  let tmp := FieldElement_Sub tmp (jj_fieldOne curve) commonTerm in
  let tmp := FieldElement_ModInverse tmp tmp in
  let y3 := fresh in
  let y3 := FieldElement_Add y3 y1y1 x1x1 in
  let y3 := FieldElement_Mul y3 y3 tmp in
  mkPoint curve x3 y3.

Definition newPoint (curve : Jubjub) : Point := Jubjub_Identity curve.

Definition Point_Clone (p : Point) : Point :=
  let newPoint :=
    mkPoint (pt_curve p) (Jubjub_newFieldElement (pt_curve p) None)
            (Jubjub_newFieldElement (pt_curve p) None) in
  mkPoint (pt_curve newPoint) (FieldElement_Set (pt_x newPoint) (pt_x p)) (FieldElement_Set (pt_y newPoint) (pt_y p)).

Definition Point_Equals (p q : Point) : bool :=
  (FieldElement_Cmp (pt_x p) (pt_x q) =? 0) && (FieldElement_Cmp (pt_y p) (pt_y q) =? 0).

Definition Point_IsOnCurve (p : Point) : bool :=
  let fresh := newFieldElement None (jj_fieldOrder (pt_curve p)) in
  let xx := FieldElement_Mul fresh (pt_x p) (pt_x p) in
  let yy := FieldElement_Mul fresh (pt_y p) (pt_y p) in
  let dxxyy := FieldElement_Mul fresh xx yy in
  let dxxyy := FieldElement_Mul dxxyy dxxyy (jj_d (pt_curve p)) in
  let dxxyy := FieldElement_Add dxxyy dxxyy (jj_fieldOne (pt_curve p)) in
  let dxxyy := FieldElement_Neg dxxyy dxxyy in
  let result := FieldElement_Neg fresh xx in
  let result := FieldElement_Add result result yy in
  let result := FieldElement_Add result result dxxyy in
  FieldElement_Cmp result (jj_fieldZero (pt_curve p)) =? 0.

Definition Point_IsIdentity (p : Point) : bool :=
  FieldElement_Equals (pt_x p) (jj_fieldZero (pt_curve p)) && FieldElement_Equals (pt_y p) (jj_fieldOne (pt_curve p)).

(** [feY[31] |= (feX[0] & 1) << 7].  An index out of range panics; the
    buffers of this curve have 32 bytes. *)
Definition Point_MarshalBinary (p : Point) : option (list byte) :=
  let feX := FieldElement_ToBytes (pt_x p) in
  let feY := FieldElement_ToBytes (pt_y p) in
  match nth_error feX 0, nth_error feY 31 with
  | Some x0, Some y31 =>
      let b := Z.lor (byte_to_Z y31)
                 ((Z.shiftl (Z.land (byte_to_Z x0) 1) 7) mod 256) in
      Some (firstn 31 feY ++ [byte_of_Z b] ++ skipn 32 feY)
  | _, _ => None
  end.

Definition Point_Compress (p : Point) : option (list byte) := Point_MarshalBinary p.

(** [p.UnmarshalBinary(compressed)]: the receiver after the call and the
    error.  The receiver is written only once the square root is found. *)
Definition Point_UnmarshalBinary (p : Point) (compressed : list byte)
  : Point * option error :=
  if negb (length compressed =? 32)%nat then (p, Some ErrInvalidPoint)
  else
    let fieldOne := jj_fieldOne (pt_curve p) in
    let fieldOrder := jj_fieldOrder (pt_curve p) in
    let inp := compressed in
    let in31 := byte_to_Z (nth 31 inp x00) in
    let sign := Z.shiftr in31 7 in
    let inp := firstn 31 inp ++ [byte_of_Z (Z.land in31 127)] in
    let fresh := newFieldElement None fieldOrder in
    let y := FieldElement_fromBytes fresh inp in
    let yy := FieldElement_Mul fresh y y in
    let v := fresh in
    let u := FieldElement_Sub fresh yy fieldOne in
    let v := FieldElement_Mul v yy (jj_d (pt_curve p)) in
    let v := FieldElement_Add v v fieldOne in
    let v := FieldElement_ModInverse v v in
    let u := FieldElement_Mul u u v in
    match FieldElement_ModSqrt u u with
    | None => (p, Some ErrInvalidPoint)
    | Some u =>
        let decompressed := Z.land (byte_to_Z (nth 0 (FieldElement_ToBytes u) x00)) 1 in
        let u := if negb (sign =? decompressed) then FieldElement_Neg u u else u in
        let p := mkPoint (pt_curve p) (FieldElement_Set (pt_x p) u) (FieldElement_Set (pt_y p) y) in
        if negb (Point_IsOnCurve p) then (p, Some ErrInvalidPoint)
        else (p, None)
    end.

Definition Point_Neg (p q : Point) : Point :=
  mkPoint (pt_curve p) (FieldElement_Neg (pt_x p) (pt_x q)) (FieldElement_Set (pt_y p) (pt_y q)).

(** [p.Add(p1, p2)] on the values: the receiver after the call. *)
Definition Point_Add (p p1 p2 : Point) : Point :=
  let fresh := newFieldElement None (jj_fieldOrder (pt_curve p)) in
  let x1y2 := FieldElement_Mul fresh (pt_x p1) (pt_y p2) in
  let x2y1 := FieldElement_Mul fresh (pt_x p2) (pt_y p1) in
  let y1y2 := FieldElement_Mul fresh (pt_y p1) (pt_y p2) in
  let x1x2 := FieldElement_Mul fresh (pt_x p1) (pt_x p2) in
  let commonTerm := FieldElement_Mul fresh x1x2 y1y2 in
  let commonTerm := FieldElement_Mul commonTerm commonTerm (jj_d (pt_curve p)) in
  let tmp := FieldElement_Add fresh (jj_fieldOne (pt_curve p)) commonTerm in
  let tmp := FieldElement_ModInverse tmp tmp in
  let px := FieldElement_Add (pt_x p) x1y2 x2y1 in
  let px := FieldElement_Mul px px tmp in
  let tmp := FieldElement_Sub tmp (jj_fieldOne (pt_curve p)) commonTerm in
  let tmp := FieldElement_ModInverse tmp tmp in
  let py := FieldElement_Add (pt_y p) y1y2 x1x2 in
  let py := FieldElement_Mul py py tmp in
  mkPoint (pt_curve p) px py.

(** [p.Double(p1)] on the values: the receiver after the call. *)
Definition Point_Double (p p1 : Point) : Point :=
  let fresh := newFieldElement None (jj_fieldOrder (pt_curve p)) in
  let x1x1 := FieldElement_Mul fresh (pt_x p1) (pt_x p1) in
  let y1y1 := FieldElement_Mul fresh (pt_y p1) (pt_y p1) in
  let x1y1 := FieldElement_Mul fresh (pt_x p1) (pt_y p1) in
  let commonTerm := FieldElement_Mul fresh x1x1 y1y1 in
  let commonTerm := FieldElement_Mul commonTerm commonTerm (jj_d (pt_curve p)) in
  let tmp := FieldElement_Add fresh (jj_fieldOne (pt_curve p)) commonTerm in
  let tmp := FieldElement_ModInverse tmp tmp in
  let px := FieldElement_Add (pt_x p) x1y1 x1y1 in
  let px := FieldElement_Mul px px tmp in
  let tmp := FieldElement_Sub tmp (jj_fieldOne (pt_curve p)) commonTerm in
  let tmp := FieldElement_ModInverse tmp tmp in
  let py := FieldElement_Add (pt_y p) y1y1 x1x1 in
  let py := FieldElement_Mul py py tmp in
  mkPoint (pt_curve p) px py.

(** The loop of [ScalarMult],
    [for i := scalar.n.BitLen() - 1; i >= 0; i--], on the accumulators;
    [steps] is the number of bits still to process, the next one being
    bit [steps - 1]. *)
Fixpoint ScalarMult_loop (steps : nat) (n : Z) (r0 r1 : Point)
  : Point * Point :=
  match steps with
  | O => (r0, r1)
  | S i =>
      if Big.Bit n (Z.of_nat i) =? 0 then
        let r1 := Point_Add r1 r0 r1 in
        let r0 := Point_Double r0 r0 in
        ScalarMult_loop i n r0 r1
      else
        let r0 := Point_Add r0 r0 r1 in
        let r1 := Point_Double r1 r1 in
        ScalarMult_loop i n r0 r1
  end.

Definition Jubjub_ScalarMult (curve : Jubjub) (scalar : Scalar) (point : Point)
  : option Point * option error :=
  if negb (Point_IsOnCurve point) then (None, Some ErrInvalidPoint)
  else
    let r0 := Jubjub_Identity curve in
    let r1 := Point_Clone point in
    let '(r0, _) :=
      ScalarMult_loop (Z.to_nat (Big.BitLen (sc_n scalar))) (sc_n scalar) r0 r1 in
    (Some r0, None).

Definition Jubjub_Decompress (curve : Jubjub) (compressed : list byte)
  : option Point * option error :=
  let p := mkPoint curve (Jubjub_newFieldElement curve None)
                   (Jubjub_newFieldElement curve None) in
  match Point_UnmarshalBinary p compressed with
  | (_, Some err) => (None, Some err)
  | (p, None) => (Some p, None)
  end.

(** [Generator] drops the error of [Decompress]; the result is nil
    ([None]) when decompression fails. *)
Definition Jubjub_Generator (curve : Jubjub) : option Point :=
  fst (Jubjub_Decompress curve (FieldElement_ToBytes (jj_generatorY curve))).

(** [MulByCofactor] drops the error of [ScalarMult] and reads the
    coordinates of its result; on a nil result the read panics ([None]). *)
Definition Point_MulByCofactor (p : Point) : option Point :=
  match fst (Jubjub_ScalarMult (pt_curve p) (jj_cofactor (pt_curve p)) p) with
  | Some res =>
      Some (mkPoint (pt_curve p) (FieldElement_Set (pt_x p) (pt_x res))
                    (FieldElement_Set (pt_y p) (pt_y res)))
  | None => None
  end.

Definition Jubjub_SubgroupGenerator (curve : Jubjub) : option Point :=
  match Jubjub_Generator curve with
  | Some g => Point_MulByCofactor g
  | None => None
  end.

(** ** Little-endian values *)

(** The value of a little-endian byte string. *)
Fixpoint le_val (bs : list byte) : Z :=
  match bs with
  | [] => 0
  | b :: rest => byte_to_Z b + 256 * le_val rest
  end.

(** The [n] low bytes of a value, least significant first. *)
Fixpoint le_bytes (n : nat) (v : Z) : list byte :=
  match n with
  | O => []
  | S k => byte_of_Z v :: le_bytes k (v / 256)
  end.

(** The value held by the coefficient [curve.d]: the product
    [(10241^-1 mod p) * (-10240)], as [Curve()] leaves it. *)
Definition d_raw : Z := Eval vm_compute in fe_n (jj_d Curve).

(** ** The point operations on coordinate values

    The formulas that the field-element calls of [Add], [IsOnCurve] and
    [UnmarshalBinary] evaluate, on the integers held by the coordinates.
    Each is shown below to be what the embedded function computes. *)

Definition mkFp (v : Z) : FieldElement := mkFE v p_order.

Definition mkPt (xv yv : Z) : Point := mkPoint Curve (mkFp xv) (mkFp yv).

(** The value left in [tmp] by [tmp.ModInverse(tmp)]. *)
Definition inv0 (v : Z) : Z :=
  match Big.ModInverse v p_order with Some i => i | None => v end.

Definition add_val (x1 y1 x2 y2 : Z) : Z * Z :=
  let x1y2 := (x1 * y2) mod p_order in
  let x2y1 := (x2 * y1) mod p_order in
  let y1y2 := (y1 * y2) mod p_order in
  let x1x2 := (x1 * x2) mod p_order in
  let commonTerm := (((x1x2 * y1y2) mod p_order) * d_raw) mod p_order in
  let tmp1 := inv0 ((1 + commonTerm) mod p_order) in
  let tmp2 := inv0 ((1 - commonTerm) mod p_order) in
  ((((x1y2 + x2y1) mod p_order) * tmp1) mod p_order,
   (((y1y2 + x1x2) mod p_order) * tmp2) mod p_order).

Definition on_curve_val (xv yv : Z) : bool :=
  let xx := (xv * xv) mod p_order in
  let yy := (yv * yv) mod p_order in
  let dxxyy := (((xx * yy) mod p_order) * d_raw) mod p_order in
  let dxxyy := (dxxyy + 1) mod p_order in
  let dxxyy := (- dxxyy) mod p_order in
  let result := (- xx) mod p_order in
  let result := (result + yy) mod p_order in
  let result := (result + dxxyy) mod p_order in
  result =? 0.

(** The candidate [u = (y^2 - 1) / (d*y^2 + 1)] of [UnmarshalBinary]. *)
Definition decompress_u (yv : Z) : Z :=
  let yy := (yv * yv) mod p_order in
  let u := (yy - 1) mod p_order in
  let v := (yy * d_raw) mod p_order in
  let v := (v + 1) mod p_order in
  let v := inv0 v in
  (u * v) mod p_order.

Definition decompress_val (sign yv : Z) : option (Z * Z) :=
  match Big.ModSqrt (decompress_u yv) p_order with
  | None => None
  | Some r =>
      let xv := if negb (sign =? r mod 2) then (- r) mod p_order else r in
      if negb (on_curve_val xv yv) then None else Some (xv, yv)
  end.

(** The two fields of a 32-byte compressed point: bit 255 and the low 255
    bits of its little-endian value. *)
Definition sign_bit (c : list byte) : Z := le_val c / 2 ^ 255.

Definition y_field (c : list byte) : Z := le_val c mod 2 ^ 255.

(** The first compressed point of the package's round-trip test,
    [db4cd2b0aac4f7eb8ca131f16567c445a9555126d3c29f14e3d776e841ae7415]. *)
Definition test_vector : list byte :=
  map byte_of_Z
    [0xdb; 0x4c; 0xd2; 0xb0; 0xaa; 0xc4; 0xf7; 0xeb;
     0x8c; 0xa1; 0x31; 0xf1; 0x65; 0x67; 0xc4; 0x45;
     0xa9; 0x55; 0x51; 0x26; 0xd3; 0xc2; 0x9f; 0x14;
     0xe3; 0xd7; 0x76; 0xe8; 0x41; 0xae; 0x74; 0x15].

(** The point it decompresses to. *)
Definition test_point : Point :=
  mkPt 41050235188544478418366209524862836201380949263485756367215295374254530985114
       9704726760505102629595623322929810829485096538761553509148554541066026634459.

(** The x-coordinate of the generator with [y = 11], the affine generator
    of the jubjub Rust crate that the package's test expects. *)
Definition generator_x : Z :=
  44746807950788659978687200207992930935149218647843500701850233404325651525118.

(** ** The in-place point operations on a store

    [p.Add(p1, p2)] and [p.Double(p1)] write the coordinates of their
    receiver, which the caller may also pass as an argument
    ([r1.Add(r0, r1)], [r0.Double(r0)]).  Here every [FieldElement] reached
    through a pointer is the address of the integer it wraps, and the
    methods read and write a store; [newFieldElement(nil, order)] allocates
    a fresh address. *)
Module Heap.

Definition addr := nat.

Record store := mkStore { next : addr; cell : addr -> Z }.

Definition load (s : store) (a : addr) : Z := cell s a.

Definition write (s : store) (a : addr) (v : Z) : store :=
  mkStore (next s) (fun b => if Nat.eqb b a then v else cell s b).

Definition extend (s : store) (v : Z) : store :=
  mkStore (S (next s)) (fun b => if Nat.eqb b (next s) then v else cell s b).

Definition alloc (s : store) (v : Z) : addr * store := (next s, extend s v).

(** A computation on the store. *)
Definition M (A : Type) : Type := store -> A * store.

Definition ret {A} (a : A) : M A := fun s => (a, s).

Definition bind {A B} (m : M A) (k : A -> M B) : M B :=
  fun s => let (a, s') := m s in k a s'.

Notation "x <- m ;; k" := (bind m (fun x => k))
  (at level 61, m at next level, right associativity).
Notation "m ;; k" := (bind m (fun _ => k))
  (at level 61, right associativity).

(** The curve context: the field order and the addresses of the cached
    [d] and [fieldOne]. *)
Record CurveRef := mkCurveRef { c_fieldOrder : Z; c_d : addr; c_fieldOne : addr }.

(** A point: the addresses of its coordinates. *)
Record PointRef := mkPointRef { r_x : addr; r_y : addr }.

Definition newFieldElement (order : Z) : M addr := fun s => alloc s 0.

Definition Mul (order : Z) (z x y : addr) : M addr :=
  fun s => (z, write s z (Big.Mod (load s x * load s y) order)).

Definition Add (order : Z) (z x y : addr) : M addr :=
  fun s => (z, write s z (Big.Mod (load s x + load s y) order)).

Definition Sub (order : Z) (z x y : addr) : M addr :=
  fun s => (z, write s z (Big.Mod (load s x - load s y) order)).

(** The value of [z] after [z.n.ModInverse(x.n, order)]: the inverse, or
    the value [z] had when there is none. *)
Definition inverse_or (g old order : Z) : Z :=
  match Big.ModInverse g order with Some v => v | None => old end.

Definition ModInverse (order : Z) (z x : addr) : M addr :=
  fun s => (z, write s z (inverse_or (load s x) (load s z) order)).

Definition Point_Add (c : CurveRef) (p p1 p2 : PointRef) : M PointRef :=
  let order := c_fieldOrder c in
  x1y2 <- newFieldElement order ;; Mul order x1y2 (r_x p1) (r_y p2) ;;
  x2y1 <- newFieldElement order ;; Mul order x2y1 (r_x p2) (r_y p1) ;;
  y1y2 <- newFieldElement order ;; Mul order y1y2 (r_y p1) (r_y p2) ;;
  x1x2 <- newFieldElement order ;; Mul order x1x2 (r_x p1) (r_x p2) ;;
  commonTerm <- newFieldElement order ;; Mul order commonTerm x1x2 y1y2 ;;
  Mul order commonTerm commonTerm (c_d c) ;;
  tmp <- newFieldElement order ;; Add order tmp (c_fieldOne c) commonTerm ;;
  ModInverse order tmp tmp ;;
  Add order (r_x p) x1y2 x2y1 ;; Mul order (r_x p) (r_x p) tmp ;;
  Sub order tmp (c_fieldOne c) commonTerm ;;
  ModInverse order tmp tmp ;;
  Add order (r_y p) y1y2 x1x2 ;; Mul order (r_y p) (r_y p) tmp ;;
  ret p.

Definition Point_Double (c : CurveRef) (p p1 : PointRef) : M PointRef :=
  let order := c_fieldOrder c in
  x1x1 <- newFieldElement order ;; Mul order x1x1 (r_x p1) (r_x p1) ;;
  y1y1 <- newFieldElement order ;; Mul order y1y1 (r_y p1) (r_y p1) ;;
  x1y1 <- newFieldElement order ;; Mul order x1y1 (r_x p1) (r_y p1) ;;
  commonTerm <- newFieldElement order ;; Mul order commonTerm x1x1 y1y1 ;;
  Mul order commonTerm commonTerm (c_d c) ;;
  tmp <- newFieldElement order ;; Add order tmp (c_fieldOne c) commonTerm ;;
  ModInverse order tmp tmp ;;
  Add order (r_x p) x1y1 x1y1 ;; Mul order (r_x p) (r_x p) tmp ;;
  Sub order tmp (c_fieldOne c) commonTerm ;;
  ModInverse order tmp tmp ;;
  Add order (r_y p) y1y1 x1x1 ;; Mul order (r_y p) (r_y p) tmp ;;
  ret p.

(** The point held at a reference: the values of its two coordinates. *)
Definition read (s : store) (p : PointRef) : Point :=
  mkPt (load s (r_x p)) (load s (r_y p)).

(** A reference whose two coordinates are allocated. *)
Definition allocated (s : store) (p : PointRef) : Prop :=
  (r_x p < next s)%nat /\ (r_y p < next s)%nat.

(** The store holds the context of [Curve()] at [c]. *)
Definition holds_curve (s : store) (c : CurveRef) : Prop :=
  c_fieldOrder c = p_order /\
  (c_d c < next s)%nat /\ (c_fieldOne c < next s)%nat /\
  load s (c_d c) = d_raw /\ load s (c_fieldOne c) = 1.

(** A receiver that may be written: its two coordinates are distinct
    integers, and neither is a cached constant of the context. *)
Definition writable (c : CurveRef) (p : PointRef) : Prop :=
  r_x p <> r_y p /\
  r_x p <> c_d c /\ r_x p <> c_fieldOne c /\
  r_y p <> c_d c /\ r_y p <> c_fieldOne c.

End Heap.

(** A store with the context at addresses 0 and 1, the identity at 2 and 3
    and the point [(0, p - 1)] at 4 and 5. *)
Definition example_store : Heap.store :=
  Heap.mkStore 6%nat
    (fun a => match a with
              | 0%nat => d_raw
              | 1%nat => 1
              | 2%nat => 0
              | 3%nat => 1
              | 4%nat => 0
              | _ => p_order - 1
              end).

(** Weakest preconditions of the store computations: each step is
    described by what the next store holds, so that the stores themselves
    stay abstract. *)
Definition wp {A} (m : Heap.M A) (Q : A -> Heap.store -> Prop)
           (s : Heap.store) : Prop :=
  Q (fst (m s)) (snd (m s)).

(** ** Data for the arithmetic of the field *)

(** Trial division by [d], [d + 1], ..., [d + k - 1]. *)
Fixpoint no_divisor (k : nat) (d n : Z) : bool :=
  match k with
  | O => true
  | S k' => negb (n mod d =? 0) && no_divisor k' (d + 1) n
  end.

Definition is_prime_small (n : Z) : bool :=
  (1 <? n) && no_divisor (Z.to_nat (Z.sqrt n - 1)) 2 n.

(** The prime divisors of [p - 1]. *)
Definition p_minus_1_primes : list Z :=
  [2; 3; 11; 19; 10177; 125527; 859267; 906349; 2508409; 2529403;
   52437899; 254760293].

(** The factorisation of [p - 1], as exponents of these primes. *)
Definition p_minus_1_exponents : list Z :=
  [32; 1; 1; 1; 1; 1; 1; 2; 1; 1; 1; 2].

Definition prime_power_product (qs es : list Z) : Z :=
  fold_right Z.mul 1 (map (fun qe => fst qe ^ snd qe) (combine qs es)).

(** An element of order [p - 1] modulo [p]. *)
Definition p_generator : Z := 7.

(** The product of the prime powers [q^e] of a list of pairs [(q, e)]. *)
Definition prod_pow (fs : list (Z * Z)) : Z :=
  fold_right Z.mul 1 (map (fun qe => fst qe ^ snd qe) fs).

(** The Lucas test of [N] at every prime of [fs], on [b = a^E] where
    [E * prod_pow fs = N - 1]: the list is halved and each half is tested on
    [b] raised to the product of the other half, so that the powers
    [a^((N - 1) / q)] share their squarings.  At a single [(q, e)] the power
    [c = b^(q^(e-1))] is [a^((N - 1) / q)] and [c^q] is [a^(N - 1)]. *)
Fixpoint lucas_tree (fuel : nat) (N b : Z) (fs : list (Z * Z)) : bool :=
  match fuel with
  | O => false
  | S k =>
      match fs with
      | [] => true
      | [(q, e)] =>
          let c := Big.powmod b (q ^ (e - 1)) N in
          (Z.gcd (c - 1) N =? 1) && (Big.powmod c q N =? 1)
      | _ =>
          let h := Nat.div2 (length fs) in
          let l := firstn h fs in
          let r := skipn h fs in
          lucas_tree k N (Big.powmod b (prod_pow r) N) l &&
          lucas_tree k N (Big.powmod b (prod_pow l) N) r
      end
  end.

(** A square root of [-1] modulo [p]. *)
Definition sqrt_m1 : Z :=
  Eval vm_compute in Big.powmod p_generator ((p_order - 1) / 4) p_order.

(** Congruence modulo the field order. *)
Definition eqp (a b : Z) : Prop := a mod p_order = b mod p_order.

(** The curve equation [-x^2 + y^2 = 1 + d*x^2*y^2] modulo [p]. *)
Definition on_curve (xv yv : Z) : Prop :=
  eqp (yv * yv - xv * xv) (1 + d_raw * (xv * xv) * (yv * yv)).

(** The term [d*x1*x2*y1*y2] of the two denominators of the addition law. *)
Definition cterm (x1 y1 x2 y2 : Z) : Z := d_raw * x1 * x2 * y1 * y2.

(** ** Repeated addition

    [k] additions of [point] to an accumulator that starts at the identity,
    as in the package's test of [ScalarMult]:
    [accumulator.Add(accumulator, point)] repeated [k] times. *)
Fixpoint repeated_add (k : nat) (point : Point) : Point :=
  match k with
  | O => Jubjub_Identity Curve
  | S k' =>
      let accumulator := repeated_add k' point in
      Point_Add accumulator accumulator point
  end.

(** The same on coordinate values. *)
Fixpoint rep_val (k : nat) (xv yv : Z) : Z * Z :=
  match k with
  | O => (0, 1)
  | S k' => add_val (fst (rep_val k' xv yv)) (snd (rep_val k' xv yv)) xv yv
  end.

(** * Properties of the arithmetic layer *)

Lemma Cmp_gt x y : (Big.Cmp x y =? 1) = (y <? x).
Proof.
  unfold Big.Cmp. destruct (Z.compare_spec x y); destruct (Z.ltb_spec y x);
    try reflexivity; lia.
Qed.

Lemma Cmp_lt x y : (Big.Cmp x y =? -1) = (x <? y).
Proof.
  unfold Big.Cmp. destruct (Z.compare_spec x y); destruct (Z.ltb_spec x y);
    try reflexivity; lia.
Qed.

Lemma Cmp_eq x y : (Big.Cmp x y =? 0) = (x =? y).
Proof.
  unfold Big.Cmp. destruct (Z.compare_spec x y); destruct (Z.eqb_spec x y);
    try reflexivity; lia.
Qed.

Lemma Mod_pos x m : 0 < m -> Big.Mod x m = x mod m.
Proof. intros. unfold Big.Mod. rewrite Z.abs_eq by lia. reflexivity. Qed.

Lemma powmod_pos_spec x e m : Big.powmod_pos x e m = x ^ Zpos e mod m.
Proof.
  destruct (Z.eq_dec m 0) as [-> | Hm].
  - induction e as [e IH | e IH | ]; cbn [Big.powmod_pos];
      rewrite ?IH, ?Z.mod_0_r.
    + rewrite Pos2Z.inj_xI, Z.pow_add_r, Z.pow_1_r, Z.pow_twice_r by lia.
      reflexivity.
    + now rewrite Pos2Z.inj_xO, Z.pow_twice_r.
    + now rewrite Z.pow_1_r.
  - induction e as [e IH | e IH | ]; cbn [Big.powmod_pos].
    + rewrite IH, Pos2Z.inj_xI, Z.pow_add_r, Z.pow_1_r, Z.pow_twice_r by lia.
      now rewrite <- Z.mul_mod, Z.mul_mod_idemp_l by assumption.
    + rewrite IH, Pos2Z.inj_xO, Z.pow_twice_r.
      now rewrite <- Z.mul_mod by assumption.
    + now rewrite Z.pow_1_r.
Qed.

Lemma powmod_spec x e m : 0 <= e -> Big.powmod x e m = x ^ e mod m.
Proof.
  intros He. destruct e as [ | e | e]; cbn [Big.powmod].
  - now rewrite Z.pow_0_r.
  - apply powmod_pos_spec.
  - lia.
Qed.

Lemma powmod_range x e m : 0 < m -> 0 <= Big.powmod x e m < m.
Proof.
  intros Hm. destruct e as [ | e | e]; cbn [Big.powmod];
    rewrite ?powmod_pos_spec; apply Z.mod_pos_bound; lia.
Qed.

(** ** Bytes and little-endian values *)

Lemma byte_to_Z_range b : 0 <= byte_to_Z b < 256.
Proof.
  unfold byte_to_Z. pose proof (Byte.to_N_bounded b) as H.
  split; [apply N2Z.is_nonneg | ]. lia.
Qed.

Lemma byte_of_to_Z b : byte_of_Z (byte_to_Z b) = b.
Proof.
  unfold byte_of_Z. rewrite Z.mod_small by apply byte_to_Z_range.
  unfold byte_to_Z. rewrite N2Z.id, Byte.of_to_N. reflexivity.
Qed.

Lemma byte_to_of_Z w : byte_to_Z (byte_of_Z w) = w mod 256.
Proof.
  unfold byte_of_Z, byte_to_Z.
  pose proof (Z.mod_pos_bound w 256 ltac:(lia)) as Hr.
  destruct (Byte.of_N (Z.to_N (w mod 256))) as [b | ] eqn:E.
  - apply Byte.to_of_N in E. rewrite E. apply Z2N.id. lia.
  - apply Byte.of_N_None_iff in E. lia.
Qed.

Lemma byte_of_Z_mod w : byte_of_Z (w mod 256) = byte_of_Z w.
Proof. unfold byte_of_Z. now rewrite Z.mod_mod by lia. Qed.

Lemma byte_to_Z_inj a b : byte_to_Z a = byte_to_Z b -> a = b.
Proof. intros H. rewrite <- (byte_of_to_Z a), H. apply byte_of_to_Z. Qed.

Lemma le_val_range bs : 0 <= le_val bs < 256 ^ Z.of_nat (length bs).
Proof.
  induction bs as [ | b bs IH]; cbn [le_val length].
  - cbn. lia.
  - rewrite Nat2Z.inj_succ, Z.pow_succ_r by lia.
    pose proof (byte_to_Z_range b). lia.
Qed.

Lemma le_bytes_length n v : length (le_bytes n v) = n.
Proof. revert v; induction n; intros; cbn; auto. Qed.

Lemma le_bytes_val bs : le_bytes (length bs) (le_val bs) = bs.
Proof.
  induction bs as [ | b bs IH]; cbn [le_val length le_bytes]; [reflexivity | ].
  pose proof (byte_to_Z_range b).
  f_equal.
  - rewrite <- byte_of_Z_mod.
    replace ((byte_to_Z b + 256 * le_val bs) mod 256) with (byte_to_Z b).
    + apply byte_of_to_Z.
    + apply Z.mod_unique with (q := le_val bs); lia.
  - replace ((byte_to_Z b + 256 * le_val bs) / 256) with (le_val bs); [exact IH | ].
    apply Z.div_unique with (r := byte_to_Z b); lia.
Qed.

Lemma le_val_bytes n v : le_val (le_bytes n v) = v mod 256 ^ Z.of_nat n.
Proof.
  revert v; induction n as [ | n IH]; intros v; cbn [le_bytes le_val].
  - now rewrite Z.mod_1_r.
  - rewrite IH, byte_to_of_Z, Nat2Z.inj_succ, Z.pow_succ_r by lia.
    rewrite Z.rem_mul_r by lia. reflexivity.
Qed.

Lemma le_val_app a b :
  le_val (a ++ b) = le_val a + 256 ^ Z.of_nat (length a) * le_val b.
Proof.
  induction a as [ | c a IH]; cbn [app le_val length].
  - change (256 ^ Z.of_nat 0) with 1. lia.
  - rewrite IH, Nat2Z.inj_succ, Z.pow_succ_r by lia. ring.
Qed.

Lemma le_bytes_app n k v :
  le_bytes (n + k) v = le_bytes n v ++ le_bytes k (v / 256 ^ Z.of_nat n).
Proof.
  revert v; induction n as [ | n IH]; intros v.
  - cbn [Nat.add le_bytes app]. now rewrite Z.div_1_r.
  - cbn [Nat.add le_bytes app]. rewrite IH. do 2 f_equal.
    rewrite Nat2Z.inj_succ, Z.pow_succ_r, Z.div_div by lia. reflexivity.
Qed.

Lemma le_bytes_zero n : le_bytes n 0 = repeat x00 n.
Proof. induction n; cbn [le_bytes repeat]; [ | rewrite Z.div_0_l by lia; rewrite IHn]; reflexivity. Qed.

Lemma le_bytes_mod n v : le_bytes n (v mod 256 ^ Z.of_nat n) = le_bytes n v.
Proof.
  rewrite <- le_val_bytes. rewrite <- (le_bytes_length n v) at 1. apply le_bytes_val.
Qed.

(** ** The word loops of [fromBytes] and [ToBytes] *)

Lemma lor_shiftl_add w b i :
  0 <= i -> 0 <= w < 2 ^ i -> Z.lor w (Z.shiftl b i) = w + b * 2 ^ i.
Proof.
  intros Hi Hw. rewrite Z.shiftl_mul_pow2 by assumption.
  assert (Hland : Z.land w (b * 2 ^ i) = 0).
  { apply Z.bits_inj'. intros n Hn. rewrite Z.land_spec, Z.bits_0.
    destruct (Z.lt_ge_cases n i) as [Hlt | Hge].
    - rewrite Z.mul_pow2_bits_low by assumption. apply andb_false_r.
    - rewrite <- (Z.mod_small w (2 ^ i)) by assumption.
      rewrite Z.mod_pow2_bits_high by lia. reflexivity. }
  rewrite <- Z.lxor_lor by assumption. symmetry. apply Z.add_nocarry_lxor. assumption.
Qed.

Lemma read_word_spec steps : forall i w inp,
  0 <= i -> 0 <= w < 2 ^ i ->
  read_word steps i w inp
  = (w + 2 ^ i * le_val (firstn steps inp), skipn steps inp).
Proof.
  induction steps as [ | k IH]; intros i w inp Hi Hw.
  - cbn [read_word firstn skipn le_val]. f_equal. lia.
  - destruct inp as [ | b rest]; cbn [read_word firstn skipn le_val].
    + f_equal. lia.
    + pose proof (byte_to_Z_range b) as Hb.
      rewrite lor_shiftl_add by assumption.
      assert (Hp : 2 ^ (i + 8) = 2 ^ i * 256) by (rewrite Z.pow_add_r by lia; reflexivity).
      rewrite IH.
      * f_equal. rewrite Hp. ring.
      * lia.
      * rewrite Hp. nia.
Qed.

Lemma firstn_plus {A} (a b : nat) (l : list A) :
  firstn (a + b) l = firstn a l ++ firstn b (skipn a l).
Proof.
  revert l; induction a as [ | a IH]; intros l; [reflexivity | ].
  destruct l as [ | c l]; cbn [Nat.add firstn skipn app].
  - now rewrite firstn_nil.
  - now rewrite IH.
Qed.

Lemma le_val_firstn_short k (l : list byte) :
  le_val (firstn k l) + 256 ^ Z.of_nat k * le_val (skipn k l) = le_val l.
Proof.
  rewrite <- (firstn_skipn k l) at 3. rewrite le_val_app.
  destruct (Nat.le_gt_cases k (length l)) as [Hle | Hgt].
  - now rewrite length_firstn, Nat.min_l by assumption.
  - rewrite skipn_all2 by lia. cbn [le_val]. lia.
Qed.

Lemma read_words_spec n : forall inp,
  Big.SetBits (read_words n inp) = le_val (firstn (8 * n) inp).
Proof.
  induction n as [ | n IH]; intros inp.
  - reflexivity.
  - cbn [read_words]. change (Z.to_nat (Big.UintSize / 8)) with 8%nat.
    rewrite read_word_spec by (cbn; lia).
    unfold Big.SetBits in *. cbn [fold_right]. rewrite IH.
    replace (8 * S n)%nat with (8 + 8 * n)%nat by lia.
    rewrite firstn_plus, le_val_app.
    change (2 ^ 0) with 1. change (2 ^ Big.UintSize) with (256 ^ Z.of_nat 8).
    destruct (Nat.le_gt_cases 8 (length inp)) as [Hle | Hgt].
    + rewrite length_firstn, Nat.min_l by assumption. lia.
    + rewrite skipn_all2 by lia. rewrite firstn_nil. cbn [le_val]. lia.
Qed.

Lemma write_word_spec steps : forall cap word buf,
  (length buf + steps <= cap)%nat ->
  write_word steps cap word buf = buf ++ le_bytes steps word.
Proof.
  induction steps as [ | k IH]; intros cap word buf Hcap; cbn [write_word le_bytes].
  - now rewrite app_nil_r.
  - destruct (Nat.leb_spec cap (length buf)); [lia | ].
    rewrite IH by (rewrite length_app; cbn [length]; lia).
    rewrite Z.shiftr_div_pow2 by lia. rewrite <- app_assoc. reflexivity.
Qed.

Lemma nat_words_bytes fuel : forall v buf (k : nat) cap,
  0 <= v < 2 ^ Z.of_nat fuel ->
  v < 256 ^ Z.of_nat (8 * k) ->
  (length buf + 8 * k = cap)%nat ->
  let out := fold_left (fun buf word => write_word 8 cap word buf)
                       (Big.nat_words fuel v) buf in
  out ++ repeat x00 (cap - length out) = buf ++ le_bytes (8 * k) v.
Proof.
  induction fuel as [ | fuel IH]; intros v buf k cap Hv Hk Hcap; cbn zeta.
  - assert (v = 0) by (change (2 ^ Z.of_nat 0) with 1 in Hv; lia). subst v.
    cbn [Big.nat_words fold_left]. rewrite le_bytes_zero. f_equal. f_equal. lia.
  - cbn [Big.nat_words]. destruct (Z.eqb_spec v 0) as [-> | Hnz].
    + cbn [fold_left]. rewrite le_bytes_zero. f_equal. f_equal. lia.
    + destruct k as [ | k].
      { change (256 ^ Z.of_nat (8 * 0)) with 1 in Hk. lia. }
      cbn [fold_left]. rewrite write_word_spec by lia.
      change (2 ^ Big.UintSize) with (256 ^ Z.of_nat 8).
      assert (H256 : 256 ^ Z.of_nat 8 = 2 ^ 64) by reflexivity.
      specialize (IH (v / 256 ^ Z.of_nat 8) (buf ++ le_bytes 8 (v mod 256 ^ Z.of_nat 8)) k cap).
      cbn zeta in IH. rewrite IH.
      * rewrite <- app_assoc. f_equal.
        replace (8 * S k)%nat with (8 + 8 * k)%nat by lia.
        rewrite le_bytes_app, le_bytes_mod. reflexivity.
      * split; [apply Z.div_pos; lia | ].
        apply Z.div_lt_upper_bound; [lia | ].
        rewrite Nat2Z.inj_succ, Z.pow_succ_r in Hv by lia. rewrite H256. lia.
      * apply Z.div_lt_upper_bound; [lia | ].
        rewrite <- Z.pow_add_r by lia.
        replace (Z.of_nat 8 + Z.of_nat (8 * k)) with (Z.of_nat (8 * S k)) by lia.
        assumption.
      * rewrite length_app, le_bytes_length. lia.
Qed.

Lemma BitLen_bound v : 0 <= v -> v < 2 ^ Z.of_nat (Z.to_nat (Big.BitLen v)).
Proof.
  intros Hv. unfold Big.BitLen. destruct (Z.eqb_spec v 0) as [-> | Hnz].
  - cbn. lia.
  - rewrite Z.abs_eq by lia. pose proof (Z.log2_nonneg v).
    rewrite Z2Nat.id by lia.
    replace (Z.log2 v + 1) with (Z.succ (Z.log2 v)) by lia.
    apply Z.log2_spec. lia.
Qed.

Lemma words_to_bytes_spec v order (k : nat) :
  Z.to_nat ((Big.BitLen order + 7) / 8) = (8 * k)%nat ->
  0 <= v < 256 ^ Z.of_nat (8 * k) ->
  words_to_bytes v order = le_bytes (8 * k) v.
Proof.
  intros Hcap Hv. unfold words_to_bytes. rewrite Hcap.
  change (Z.to_nat (Big.UintSize / 8)) with 8%nat.
  unfold Big.Bits. rewrite Z.abs_eq by lia.
  pose proof (nat_words_bytes (Z.to_nat (Big.BitLen v)) v [] k (8 * k)) as H.
  cbn zeta in H. rewrite H; [reflexivity | | lia | reflexivity].
  split; [lia | apply BitLen_bound; lia].
Qed.

Lemma bytes_to_nat_spec ser order (k : nat) :
  Z.to_nat ((Big.BitLen order + 7) / Big.UintSize) = k ->
  bytes_to_nat ser order = le_val (firstn (8 * k) ser).
Proof. intros Hk. unfold bytes_to_nat. rewrite Hk. apply read_words_spec. Qed.

(** ** The parameters of [Curve()] *)

Lemma p_order_pos : 0 < p_order.
Proof. reflexivity. Qed.

Lemma q_order_pos : 0 < q_order.
Proof. reflexivity. Qed.

Lemma p_order_bytes : Z.to_nat ((Big.BitLen p_order + 7) / 8) = (8 * 4)%nat.
Proof. vm_compute. reflexivity. Qed.

Lemma p_order_words : Z.to_nat ((Big.BitLen p_order + 7) / Big.UintSize) = 4%nat.
Proof. vm_compute. reflexivity. Qed.

Lemma q_order_words : Z.to_nat ((Big.BitLen q_order + 7) / Big.UintSize) = 4%nat.
Proof. vm_compute. reflexivity. Qed.

Lemma p_order_lt : p_order < 2 ^ 255.
Proof. reflexivity. Qed.

Lemma Curve_fieldOrder : jj_fieldOrder Curve = p_order.
Proof. reflexivity. Qed.

Lemma Curve_subgroupOrder : jj_subgroupOrder Curve = q_order.
Proof. reflexivity. Qed.

Lemma Curve_d : jj_d Curve = mkFE d_raw p_order.
Proof. vm_compute. reflexivity. Qed.

Lemma Curve_fieldOne : jj_fieldOne Curve = mkFE 1 p_order.
Proof. vm_compute. reflexivity. Qed.

Lemma Curve_fieldZero : jj_fieldZero Curve = mkFE 0 p_order.
Proof. vm_compute. reflexivity. Qed.

Lemma Curve_generatorY : jj_generatorY Curve = mkFE 11 p_order.
Proof. vm_compute. reflexivity. Qed.

Lemma Curve_cofactor : jj_cofactor Curve = mkScalar 8 q_order.
Proof. vm_compute. reflexivity. Qed.

Lemma newFieldElement_nil order : 0 <= order -> newFieldElement None order = mkFE 0 order.
Proof.
  intros H. unfold newFieldElement. rewrite Cmp_gt.
  destruct (Z.ltb_spec order 0); [lia | reflexivity].
Qed.

(** ** C5: field elements and canonical reduction *)

Lemma newFieldElement_value n order :
  fe_n (newFieldElement (Some n) order)
  = if order <? n then Big.Mod n order else n.
Proof. unfold newFieldElement. rewrite Cmp_gt. now destruct (order <? n). Qed.

(** The arithmetic methods and the byte decoder reduce their result into
    [[0, order)]. *)
Lemma FieldElement_ops_reduced (z a b : FieldElement) (ser : list byte) :
  0 < fe_fieldOrder z ->
  let r v := 0 <= fe_n v < fe_fieldOrder z in
  r (FieldElement_Add z a b) /\ r (FieldElement_Sub z a b) /\
  r (FieldElement_Mul z a b) /\ r (FieldElement_Neg z a) /\
  r (FieldElement_fromBytes z ser) /\
  (0 <= fe_n b -> r (FieldElement_Exp z a b)).
Proof.
  intros Hpos r. unfold r, FieldElement_Add, FieldElement_Sub, FieldElement_Mul,
    FieldElement_Neg, FieldElement_fromBytes, FieldElement_Exp, Big.Exp.
  cbn [fe_n]. rewrite !Mod_pos by assumption.
  repeat apply conj; try (apply Z.mod_pos_bound; assumption).
  intros Hb. destruct (Z.ltb_spec (fe_n b) 0); [lia | ]. cbn [fe_n].
  rewrite Z.abs_eq by lia. apply powmod_range. lia.
Qed.

(** C5 (code): [newFieldElement] reduces only a value strictly above the
    order.  The order itself and every negative integer are stored as they
    are, and the coefficient [d] that [Curve()] builds is such a negative
    value, so a field element does not always hold a value of [[0, p)]. *)
Theorem C5_newFieldElement_not_reduced :
  fe_n (newFieldElement (Some p_order) p_order) = p_order /\
  fe_n (newFieldElement (Some (-1)) p_order) = -1 /\
  fe_n (jj_d Curve) = d_raw /\ d_raw < 0 /\
  fe_n (newFieldElement (Some (p_order + 5)) p_order) = 5.
Proof. vm_compute. repeat split; reflexivity. Qed.

(** ** C6: the range signal of scalar construction *)

Lemma newScalar_value v order :
  0 < order ->
  newScalar (Some v) order
  = if (order <? v) || (v <? 0)
    then (mkScalar (v mod order) order, Some ErrScalarOutOfRange)
    else (mkScalar v order, None).
Proof.
  intros H. unfold newScalar. rewrite Cmp_gt, Cmp_lt, Mod_pos by assumption.
  reflexivity.
Qed.

(** C6 (counterexample): the subgroup order itself is outside [[0, n)],
    and [ScalarFromBig] returns it as it is, with no signal. *)
Lemma C6_counterexample :
  ~ (0 <= q_order < q_order) /\
  Jubjub_ScalarFromBig Curve (Some q_order) = (mkScalar q_order q_order, None) /\
  Jubjub_ScalarFromBytes Curve (le_bytes 32 q_order)
  = (mkScalar q_order q_order, None).
Proof. split; [lia | ]. vm_compute. split; reflexivity. Qed.

(** C6 (amended): [ScalarFromBig] and [ScalarFromBytes] return the value
    reduced modulo [n] together with [ErrScalarOutOfRange] exactly when the
    value is negative or strictly above [n]; a value of [[0, n]], the order
    [n] included, is returned as it is and without a signal.  The value of a
    byte string is that of its first 32 bytes, little-endian. *)
Theorem C6_scalar_range_signal (v : Z) (inp : list byte) :
  Jubjub_ScalarFromBig Curve (Some v)
  = (if (q_order <? v) || (v <? 0)
     then (mkScalar (v mod q_order) q_order, Some ErrScalarOutOfRange)
     else (mkScalar v q_order, None)) /\
  Jubjub_ScalarFromBytes Curve inp
  = (let w := le_val (firstn 32 inp) in
     if q_order <? w
     then (mkScalar (w mod q_order) q_order, Some ErrScalarOutOfRange)
     else (mkScalar w q_order, None)).
Proof.
  split.
  - unfold Jubjub_ScalarFromBig. rewrite Curve_subgroupOrder.
    apply newScalar_value, q_order_pos.
  - unfold Jubjub_ScalarFromBytes, Scalar_fromBytes. rewrite Curve_subgroupOrder.
    replace (sc_fieldOrder (fst (newScalar None q_order))) with q_order by reflexivity.
    rewrite (bytes_to_nat_spec inp q_order 4 q_order_words).
    change (8 * 4)%nat with 32%nat. cbn zeta.
    rewrite Cmp_gt, Cmp_lt, Mod_pos by apply q_order_pos.
    pose proof (le_val_range (firstn 32 inp)) as Hr.
    destruct (Z.ltb_spec (le_val (firstn 32 inp)) 0); [lia | ].
    rewrite orb_false_r. reflexivity.
Qed.

(** ** C7: the inverse of zero *)

Lemma ModInverse_zero n : Z.abs n <> 1 -> Big.ModInverse 0 n = None.
Proof.
  intros H. unfold Big.ModInverse. cbn [Z.ltb Z.compare].
  rewrite Z.gcd_0_l, Z.abs_idemp.
  destruct (Z.eqb_spec (Z.abs n) 1); [contradiction | reflexivity].
Qed.

(** C7 (code): on the zero element [ModInverse] reports nothing; it
    returns its receiver, whose value is whatever it was before the call. *)
Theorem C7_ModInverse_zero_returns_receiver (a : Z) :
  FieldElement_ModInverse (mkFE a p_order) (mkFE 0 p_order) = mkFE a p_order /\
  Big.ModInverse 0 p_order = None.
Proof.
  assert (H : Big.ModInverse 0 p_order = None)
    by (apply ModInverse_zero; vm_compute; discriminate).
  split; [ | exact H]. unfold FieldElement_ModInverse. cbn [fe_n fe_fieldOrder].
  rewrite H. reflexivity.
Qed.

(** ** The embedded operations on coordinate values *)

Lemma Mod_p v : Big.Mod v p_order = v mod p_order.
Proof. apply Mod_pos, p_order_pos. Qed.

Lemma fresh_p : newFieldElement None p_order = mkFE 0 p_order.
Proof. reflexivity. Qed.

Lemma Mul_p a fx fy :
  FieldElement_Mul (mkFE a p_order) fx fy
  = mkFE ((fe_n fx * fe_n fy) mod p_order) p_order.
Proof. unfold FieldElement_Mul. cbn [fe_fieldOrder]. now rewrite Mod_p. Qed.

Lemma Add_p a fx fy :
  FieldElement_Add (mkFE a p_order) fx fy
  = mkFE ((fe_n fx + fe_n fy) mod p_order) p_order.
Proof. unfold FieldElement_Add. cbn [fe_fieldOrder]. now rewrite Mod_p. Qed.

Lemma Sub_p a fx fy :
  FieldElement_Sub (mkFE a p_order) fx fy
  = mkFE ((fe_n fx - fe_n fy) mod p_order) p_order.
Proof. unfold FieldElement_Sub. cbn [fe_fieldOrder]. now rewrite Mod_p. Qed.

Lemma Neg_p a fx :
  FieldElement_Neg (mkFE a p_order) fx = mkFE ((- fe_n fx) mod p_order) p_order.
Proof. unfold FieldElement_Neg. cbn [fe_fieldOrder]. now rewrite Mod_p. Qed.

Lemma ModInverse_p a :
  FieldElement_ModInverse (mkFE a p_order) (mkFE a p_order)
  = mkFE (inv0 a) p_order.
Proof.
  unfold FieldElement_ModInverse, inv0. cbn [fe_n fe_fieldOrder].
  now destruct (Big.ModInverse a p_order).
Qed.

Lemma Set_p a fx : FieldElement_Set (mkFE a p_order) fx = mkFE (fe_n fx) p_order.
Proof. reflexivity. Qed.

Ltac fe_simpl :=
  cbv zeta; cbn [fe_n fe_fieldOrder pt_x pt_y pt_curve];
  rewrite ?Curve_fieldOrder, ?Curve_d, ?Curve_fieldOne, ?Curve_fieldZero,
    ?fresh_p;
  repeat (rewrite ?Mul_p, ?Add_p, ?Sub_p, ?Neg_p, ?ModInverse_p, ?Set_p;
          progress cbn [fe_n fe_fieldOrder pt_x pt_y pt_curve]).

Lemma Jubjub_Add_val (p1 p2 : Point) :
  Jubjub_Add Curve p1 p2
  = let r := add_val (fe_n (pt_x p1)) (fe_n (pt_y p1))
                     (fe_n (pt_x p2)) (fe_n (pt_y p2)) in
    mkPt (fst r) (snd r).
Proof.
  destruct p1 as [c1 [x1 ox1] [y1 oy1]], p2 as [c2 [x2 ox2] [y2 oy2]].
  unfold Jubjub_Add. fe_simpl. reflexivity.
Qed.

Lemma Jubjub_Double_val (p1 : Point) :
  Jubjub_Double Curve p1 = Jubjub_Add Curve p1 p1.
Proof.
  destruct p1 as [c1 [x1 ox1] [y1 oy1]].
  unfold Jubjub_Double, Jubjub_Add. fe_simpl. reflexivity.
Qed.

Lemma Point_Add_val (a b : Z) (p1 p2 : Point) :
  Point_Add (mkPt a b) p1 p2 = Jubjub_Add Curve p1 p2.
Proof.
  destruct p1 as [c1 [x1 ox1] [y1 oy1]], p2 as [c2 [x2 ox2] [y2 oy2]].
  unfold Point_Add, Jubjub_Add, mkPt, mkFp. fe_simpl. reflexivity.
Qed.

Lemma Point_Double_val (a b : Z) (p1 : Point) :
  Point_Double (mkPt a b) p1 = Jubjub_Add Curve p1 p1.
Proof.
  destruct p1 as [c1 [x1 ox1] [y1 oy1]].
  unfold Point_Double, Jubjub_Add, mkPt, mkFp. fe_simpl. reflexivity.
Qed.

Lemma Point_IsOnCurve_coords (c : Jubjub) (fx fy : FieldElement) :
  c = Curve ->
  Point_IsOnCurve (mkPoint c fx fy) = on_curve_val (fe_n fx) (fe_n fy).
Proof.
  intros ->. destruct fx as [xv ox], fy as [yv oy].
  unfold Point_IsOnCurve. fe_simpl. unfold FieldElement_Cmp. cbn [fe_n].
  rewrite Cmp_eq. reflexivity.
Qed.

Lemma Point_IsOnCurve_val (xv yv : Z) :
  Point_IsOnCurve (mkPt xv yv) = on_curve_val xv yv.
Proof. apply Point_IsOnCurve_coords. reflexivity. Qed.

Lemma Identity_val : Jubjub_Identity Curve = mkPt 0 1.
Proof. reflexivity. Qed.

Lemma Point_Clone_val (xv yv : Z) : Point_Clone (mkPt xv yv) = mkPt xv yv.
Proof. reflexivity. Qed.

Lemma Point_Neg_val (a b xv yv : Z) :
  Point_Neg (mkPt a b) (mkPt xv yv) = mkPt ((- xv) mod p_order) yv.
Proof. unfold Point_Neg, mkPt, mkFp. fe_simpl. reflexivity. Qed.

(** ** The byte codec of field elements at the field order *)

Lemma ToBytes_val (v : Z) :
  FieldElement_ToBytes (mkFp v) = le_bytes 32 (v mod p_order).
Proof.
  unfold FieldElement_ToBytes, mkFp. cbn [fe_n fe_fieldOrder]. rewrite Mod_p.
  pose proof (Z.mod_pos_bound v p_order p_order_pos) as Hr.
  rewrite (words_to_bytes_spec _ _ 4 p_order_bytes); [reflexivity | ].
  change (256 ^ Z.of_nat (8 * 4)) with (2 ^ 256).
  pose proof p_order_lt. assert (2 ^ 255 < 2 ^ 256) by reflexivity. lia.
Qed.

Lemma fromBytes_val (a : Z) (ser : list byte) :
  FieldElement_fromBytes (mkFE a p_order) ser
  = mkFp (le_val (firstn 32 ser) mod p_order).
Proof.
  unfold FieldElement_fromBytes, mkFp. cbn [fe_n fe_fieldOrder]. rewrite Mod_p.
  rewrite (bytes_to_nat_spec ser p_order 4 p_order_words). reflexivity.
Qed.

Lemma ToBytes_length v : length (FieldElement_ToBytes (mkFp v)) = 32%nat.
Proof. rewrite ToBytes_val. apply le_bytes_length. Qed.

Lemma land_1_mod2 a : Z.land a 1 = a mod 2.
Proof. change 1 with (Z.ones 1) at 1. rewrite Z.land_ones by lia. reflexivity. Qed.

Lemma ToBytes_lsb (v : Z) :
  0 <= v < p_order ->
  Z.land (byte_to_Z (nth 0 (FieldElement_ToBytes (mkFp v)) x00)) 1 = v mod 2.
Proof.
  intros Hv. rewrite ToBytes_val, Z.mod_small by assumption.
  cbn [le_bytes nth]. rewrite byte_to_of_Z, land_1_mod2.
  apply Z.mod_mod_divide. exists 128. reflexivity.
Qed.

(** ** The square root stays in the field *)

Lemma tonelli_shanks_loop_range fuel : forall p y b g r,
  0 < p -> 0 <= y < p -> 0 <= Big.tonelli_shanks_loop fuel p y b g r < p.
Proof.
  induction fuel as [ | k IH]; intros p y b g r Hp Hy; cbn [Big.tonelli_shanks_loop].
  - assumption.
  - destruct (_ =? 0); [assumption | ].
    apply IH; [assumption | ]. apply Z.mod_pos_bound. assumption.
Qed.

Lemma ModSqrt_range u r :
  Big.ModSqrt u p_order = Some r -> 0 <= r < p_order.
Proof.
  unfold Big.ModSqrt.
  change (p_order mod 4 =? 3) with false. change (p_order mod 8 =? 5) with false.
  cbv beta iota zeta.
  destruct (_ =? -1); [discriminate | ].
  destruct (_ =? 0).
  - intros [= <-]. pose proof p_order_pos. lia.
  - intros [= <-]. unfold Big.modSqrtTonelliShanks. cbv zeta.
    apply tonelli_shanks_loop_range; [apply p_order_pos | ].
    apply powmod_range, p_order_pos.
Qed.

(** ** The compressed encoding *)

Lemma last_byte_split (c : list byte) :
  length c = 32%nat -> c = firstn 31 c ++ [nth 31 c x00].
Proof.
  intros H. do 32 (destruct c as [ | ? c]; [discriminate H | ]).
  destruct c; [reflexivity | discriminate H].
Qed.

Lemma sign_bit_byte (c : list byte) :
  length c = 32%nat ->
  Z.shiftr (byte_to_Z (nth 31 c x00)) 7 = sign_bit c.
Proof.
  intros H. unfold sign_bit. rewrite (last_byte_split c H) at 2.
  rewrite le_val_app, length_firstn, Nat.min_l by lia. cbn [le_val].
  pose proof (le_val_range (firstn 31 c)) as Hr.
  rewrite length_firstn, Nat.min_l in Hr by lia.
  pose proof (byte_to_Z_range (nth 31 c x00)) as Hb.
  rewrite Z.shiftr_div_pow2 by lia.
  set (b := byte_to_Z (nth 31 c x00)) in *. set (L := le_val (firstn 31 c)) in *.
  change (256 ^ Z.of_nat 31) with (2 ^ 248) in *. change (2 ^ 7) with 128.
  apply Z.div_unique with (r := L + 2 ^ 248 * (b mod 128)).
  - pose proof (Z.mod_pos_bound b 128 ltac:(lia)). lia.
  - pose proof (Z.div_mod b 128 ltac:(lia)). lia.
Qed.

Lemma y_field_bytes (c : list byte) :
  length c = 32%nat ->
  le_val (firstn 32 (firstn 31 c ++
            [byte_of_Z (Z.land (byte_to_Z (nth 31 c x00)) 127)]))
  = y_field c.
Proof.
  intros H. unfold y_field. rewrite (last_byte_split c H) at 3.
  rewrite firstn_all2 by (rewrite length_app, length_firstn; cbn [length]; lia).
  rewrite !le_val_app, length_firstn, Nat.min_l by lia. cbn [le_val].
  pose proof (le_val_range (firstn 31 c)) as Hr.
  rewrite length_firstn, Nat.min_l in Hr by lia.
  pose proof (byte_to_Z_range (nth 31 c x00)) as Hb.
  change 127 with (Z.ones 7). rewrite Z.land_ones by lia.
  rewrite byte_to_of_Z.
  set (b := byte_to_Z (nth 31 c x00)) in *. set (L := le_val (firstn 31 c)) in *.
  change (256 ^ Z.of_nat 31) with (2 ^ 248) in *. change (2 ^ 7) with 128.
  pose proof (Z.mod_pos_bound b 128 ltac:(lia)).
  rewrite (Z.mod_small (b mod 128) 256) by lia.
  apply Z.mod_unique with (q := b / 128).
  - lia.
  - pose proof (Z.div_mod b 128 ltac:(lia)). lia.
Qed.

Lemma sign_bit_range (c : list byte) :
  length c = 32%nat -> sign_bit c = 0 \/ sign_bit c = 1.
Proof.
  intros H. unfold sign_bit. pose proof (le_val_range c) as Hr. rewrite H in Hr.
  change (256 ^ Z.of_nat 32) with (2 * 2 ^ 255) in Hr.
  assert (0 <= le_val c / 2 ^ 255 < 2).
  { split; [apply Z.div_pos; lia | apply Z.div_lt_upper_bound; lia]. }
  lia.
Qed.

Lemma y_field_range (c : list byte) : 0 <= y_field c < 2 ^ 255.
Proof. apply Z.mod_pos_bound. reflexivity. Qed.

Lemma le_val_fields (c : list byte) :
  le_val c = y_field c + 2 ^ 255 * sign_bit c.
Proof.
  unfold y_field, sign_bit. pose proof (Z.div_mod (le_val c) (2 ^ 255)). lia.
Qed.

(** [Decompress] on the two fields of its input. *)
Lemma Decompress_val (c : list byte) :
  length c = 32%nat ->
  Jubjub_Decompress Curve c
  = match decompress_val (sign_bit c) (y_field c mod p_order) with
    | Some (xv, yv) => (Some (mkPt xv yv), None)
    | None => (None, Some ErrInvalidPoint)
    end.
Proof.
  intros H. unfold Jubjub_Decompress, Point_UnmarshalBinary.
  rewrite H. cbn [Nat.eqb negb]. cbv zeta.
  rewrite (sign_bit_byte c H).
  unfold Jubjub_newFieldElement. fe_simpl.
  rewrite fromBytes_val, (y_field_bytes c H). unfold mkFp. fe_simpl.
  unfold decompress_val, FieldElement_ModSqrt. cbn [fe_n fe_fieldOrder].
  fold (decompress_u (y_field c mod p_order)).
  destruct (Big.ModSqrt (decompress_u (y_field c mod p_order)) p_order)
    as [r | ] eqn:Hsqrt; [ | reflexivity].
  pose proof (ModSqrt_range _ _ Hsqrt) as Hr.
  change (mkFE r p_order) with (mkFp r). rewrite (ToBytes_lsb r Hr).
  cbv zeta.
  destruct (negb (sign_bit c =? r mod 2)); unfold mkFp; fe_simpl;
    rewrite Point_IsOnCurve_coords by reflexivity; cbn [fe_n];
    destruct (on_curve_val _ _); reflexivity.
Qed.

Lemma Decompress_length (c : list byte) :
  length c <> 32%nat -> Jubjub_Decompress Curve c = (None, Some ErrInvalidPoint).
Proof.
  intros H. unfold Jubjub_Decompress, Point_UnmarshalBinary.
  destruct (Nat.eqb_spec (length c) 32); [contradiction | reflexivity].
Qed.

Lemma le_bytes_32_split (v : Z) :
  le_bytes 32 v = le_bytes 31 v ++ [byte_of_Z (v / 2 ^ 248)].
Proof. change 32%nat with (31 + 1)%nat. rewrite le_bytes_app. reflexivity. Qed.

(** [MarshalBinary]: the bytes of [y] with bit 255 set to the parity of
    [x]. *)
Lemma MarshalBinary_val (xv yv : Z) :
  Point_MarshalBinary (mkPt xv yv)
  = Some (le_bytes 32 (yv mod p_order + 2 ^ 255 * ((xv mod p_order) mod 2))).
Proof.
  unfold Point_MarshalBinary, mkPt. cbn [pt_x pt_y]. rewrite !ToBytes_val.
  pose proof (Z.mod_pos_bound yv p_order p_order_pos) as HY.
  pose proof (Z.mod_pos_bound xv p_order p_order_pos) as HX.
  pose proof p_order_lt as Hp.
  set (Y := yv mod p_order) in *. set (X := xv mod p_order) in *.
  pose proof (Z.mod_pos_bound X 2 ltac:(lia)) as Hs.
  rewrite (le_bytes_32_split Y).
  assert (Hlen : length (le_bytes 31 Y) = 31%nat) by apply le_bytes_length.
  change (nth_error (le_bytes 32 X) 0) with (Some (byte_of_Z X)).
  rewrite nth_error_app2 by lia. rewrite Hlen. cbn [Nat.sub nth_error].
  rewrite firstn_app, Hlen, firstn_all2 by lia. cbn [Nat.sub firstn].
  rewrite skipn_all2 by (rewrite length_app, Hlen; cbn [length]; lia).
  rewrite app_nil_r, app_nil_r.
  rewrite (le_bytes_32_split (Y + 2 ^ 255 * (X mod 2))).
  assert (Hq : 0 <= Y / 2 ^ 248 < 128).
  { split; [apply Z.div_pos; lia | apply Z.div_lt_upper_bound; lia]. }
  f_equal. f_equal.
  - rewrite <- (le_bytes_mod 31 (Y + _)). rewrite <- (le_bytes_mod 31 Y).
    f_equal. change (256 ^ Z.of_nat 31) with (2 ^ 248).
    replace (Y + 2 ^ 255 * (X mod 2)) with (Y + (X mod 2 * 128) * 2 ^ 248) by lia.
    symmetry. apply Z_mod_plus_full.
  - f_equal. f_equal. rewrite !byte_to_of_Z, land_1_mod2.
    rewrite (Z.mod_small (Y / 2 ^ 248) 256) by lia.
    replace ((X mod 256) mod 2) with (X mod 2)
      by (symmetry; apply Z.mod_mod_divide; exists 128; reflexivity).
    rewrite Z.shiftl_mul_pow2 by lia. change (2 ^ 7) with 128.
    rewrite (Z.mod_small (X mod 2 * 128) 256) by lia.
    replace (X mod 2 * 128) with (Z.shiftl (X mod 2) 7)
      by (rewrite Z.shiftl_mul_pow2 by lia; reflexivity).
    rewrite lor_shiftl_add by (change (2 ^ 7) with 128; lia).
    change (2 ^ 7) with 128.
    replace (Y + 2 ^ 255 * (X mod 2)) with (Y + (X mod 2 * 128) * 2 ^ 248) by lia.
    rewrite Z_div_plus_full by lia. reflexivity.
Qed.

Lemma sign_selection_parity (sign r : Z) :
  0 <= r < p_order -> sign = 0 \/ sign = 1 ->
  let xv := if negb (sign =? r mod 2) then (- r) mod p_order else r in
  0 <= xv < p_order /\ ((xv = 0 -> sign = 0) -> xv mod 2 = sign).
Proof.
  intros Hr Hs xv. subst xv.
  destruct (Z.eqb_spec sign (r mod 2)) as [E | E]; cbn [negb].
  - split; [assumption | intros _; congruence].
  - destruct (Z.eq_dec r 0) as [-> | Hnz].
    + cbn. split; [pose proof p_order_pos; lia | intros H].
      specialize (H eq_refl). subst. cbn in E. congruence.
    + assert (Hneg : (- r) mod p_order = p_order - r).
      { symmetry. apply Z.mod_unique with (q := -1); lia. }
      rewrite Hneg. split; [lia | intros _].
      assert (Hodd : p_order mod 2 = 1) by reflexivity.
      pose proof (Z.mod_pos_bound r 2 ltac:(lia)) as Hb.
      rewrite Zminus_mod, Hodd.
      destruct (Z.eq_dec (r mod 2) 0) as [E0 | E0].
      * rewrite E0. cbn. lia.
      * assert (E1 : r mod 2 = 1) by lia. rewrite E1. cbn. lia.
Qed.

Lemma Decompress_Some_length (c : list byte) (P : Point) :
  Jubjub_Decompress Curve c = (Some P, None) -> length c = 32%nat.
Proof.
  intros H. destruct (Nat.eq_dec (length c) 32) as [Hlen | Hlen]; [assumption | ].
  rewrite Decompress_length in H by assumption. discriminate.
Qed.

Lemma Decompress_Some_val (c : list byte) (P : Point) :
  length c = 32%nat ->
  Jubjub_Decompress Curve c = (Some P, None) ->
  exists xv yv,
    decompress_val (sign_bit c) (y_field c mod p_order) = Some (xv, yv) /\
    P = mkPt xv yv.
Proof.
  intros Hlen H. rewrite Decompress_val in H by assumption.
  destruct (decompress_val (sign_bit c) (y_field c mod p_order))
    as [[xv yv] | ]; [ | discriminate].
  exists xv, yv. split; [reflexivity | ]. injection H as H. symmetry; exact H.
Qed.

Lemma decompress_val_Some (s yv xv yv' : Z) :
  decompress_val s yv = Some (xv, yv') ->
  exists r,
    Big.ModSqrt (decompress_u yv) p_order = Some r /\
    on_curve_val (if negb (s =? r mod 2) then (- r) mod p_order else r) yv
    = true /\
    xv = (if negb (s =? r mod 2) then (- r) mod p_order else r) /\ yv' = yv.
Proof.
  unfold decompress_val.
  destruct (Big.ModSqrt (decompress_u yv) p_order) as [r | ]; [ | discriminate].
  cbv zeta. intros H. exists r. split; [reflexivity | ].
  destruct (on_curve_val _ yv); [ | discriminate].
  cbn [negb] in H. injection H as H1 H2. auto.
Qed.

Lemma Decompress_success (c : list byte) (P : Point) :
  Jubjub_Decompress Curve c = (Some P, None) ->
  length c = 32%nat /\
  exists r,
    Big.ModSqrt (decompress_u (y_field c mod p_order)) p_order = Some r /\
    let xv := if negb (sign_bit c =? r mod 2) then (- r) mod p_order else r in
    on_curve_val xv (y_field c mod p_order) = true /\
    P = mkPt xv (y_field c mod p_order).
Proof.
  intros H. pose proof (Decompress_Some_length c P H) as Hlen.
  split; [assumption | ].
  destruct (Decompress_Some_val c P Hlen H) as (xv & yv & Hd & ->).
  destruct (decompress_val_Some _ _ _ _ Hd) as (r & Hr & Hc & -> & ->).
  exists r. auto.
Qed.

(** ** C1: decompression followed by compression *)

(** C1 (counterexample): the encoding of the identity with the sign bit
    set decompresses to the identity, whose encoding has the sign bit
    clear. *)
Lemma C1_counterexample :
  ~ (forall (c : list byte) (P : Point),
        Jubjub_Decompress Curve c = (Some P, None) ->
        Point_MarshalBinary P = Some c).
Proof.
  intros H.
  specialize (H (le_bytes 32 (1 + 2 ^ 255)) (mkPt 0 1)).
  assert (Hd : Jubjub_Decompress Curve (le_bytes 32 (1 + 2 ^ 255))
               = (Some (mkPt 0 1), None)) by (vm_compute; reflexivity).
  specialize (H Hd). vm_compute in H. discriminate H.
Qed.

(** C1 (amended): a 32-byte string that decompresses successfully is
    reproduced by recompression when its [y] field (bits 0..254) is below
    the field order and its sign bit is clear whenever the decoded [x] is
    0.  The test vector db4c...7415 is such a string. *)
Theorem C1_roundtrip (c : list byte) (P : Point) :
  Jubjub_Decompress Curve c = (Some P, None) ->
  y_field c < p_order ->
  (fe_n (pt_x P) = 0 -> sign_bit c = 0) ->
  Point_MarshalBinary P = Some c.
Proof.
  intros Hd Hy Hx.
  destruct (Decompress_success c P Hd) as (Hlen & r & Hsqrt & Hon & HP).
  cbv zeta in HP, Hon. subst P. cbn [pt_x mkPt mkFp fe_n] in Hx.
  pose proof (ModSqrt_range _ _ Hsqrt) as Hr.
  destruct (sign_selection_parity (sign_bit c) r Hr (sign_bit_range c Hlen))
    as [Hxr Hpar].
  specialize (Hpar Hx). pose proof (y_field_range c) as Hyr.
  rewrite MarshalBinary_val.
  rewrite (Z.mod_small (y_field c)) by lia.
  rewrite (Z.mod_small (y_field c)) by lia.
  rewrite (Z.mod_small _ p_order) by exact Hxr.
  rewrite Hpar, <- le_val_fields. rewrite <- Hlen. f_equal. apply le_bytes_val.
Qed.

(** ** C9: non-canonical [y] fields *)

Lemma fields_of_sum (yv s : Z) :
  0 <= yv < 2 ^ 255 -> s = 0 \/ s = 1 ->
  let c := le_bytes 32 (yv + 2 ^ 255 * s) in
  length c = 32%nat /\ le_val c = yv + 2 ^ 255 * s /\
  y_field c = yv /\ sign_bit c = s.
Proof.
  intros Hy Hs c. subst c.
  assert (Hv : le_val (le_bytes 32 (yv + 2 ^ 255 * s)) = yv + 2 ^ 255 * s).
  { rewrite le_val_bytes. change (256 ^ Z.of_nat 32) with (2 * 2 ^ 255).
    apply Z.mod_small. lia. }
  unfold y_field, sign_bit. rewrite Hv.
  split; [apply le_bytes_length | ]. split; [reflexivity | ]. split.
  - symmetry. apply Z.mod_unique with (q := s); lia.
  - symmetry. apply Z.div_unique with (r := yv); lia.
Qed.

(** C9: a 32-byte input whose [y] field is at least the field order is
    not rejected for that: decompression runs on the field reduced modulo
    [p], so the input and the canonical encoding of the reduced field
    (same sign bit), a different string, decompress alike.  The encodings
    of [p + 1] and of [1] both decompress to the identity. *)
Theorem C9_noncanonical_y_accepted :
  (forall c : list byte,
      length c = 32%nat -> p_order <= y_field c ->
      let c' := le_bytes 32 (le_val c - p_order) in
      Jubjub_Decompress Curve c
      = match decompress_val (sign_bit c) (y_field c mod p_order) with
        | Some (xv, yv) => (Some (mkPt xv yv), None)
        | None => (None, Some ErrInvalidPoint)
        end /\
      c' <> c /\ length c' = 32%nat /\
      y_field c' = y_field c mod p_order /\ sign_bit c' = sign_bit c /\
      Jubjub_Decompress Curve c' = Jubjub_Decompress Curve c) /\
  (le_bytes 32 (p_order + 1) <> le_bytes 32 1 /\
   Jubjub_Decompress Curve (le_bytes 32 (p_order + 1)) = (Some (mkPt 0 1), None) /\
   Jubjub_Decompress Curve (le_bytes 32 1) = (Some (mkPt 0 1), None)).
Proof.
  split.
  - intros c Hlen Hy c'. subst c'.
    pose proof (y_field_range c) as Hyr. pose proof p_order_lt as Hp.
    pose proof p_order_pos as Hp0.
    destruct (sign_bit_range c Hlen) as [Hs | Hs].
    all: assert (Hmod : y_field c mod p_order = y_field c - p_order)
      by (symmetry; apply Z.mod_unique with (q := 1);
          [left; assert (2 ^ 255 < 2 * p_order) by reflexivity; lia | lia]).
    all: assert (Hsum : le_val c - p_order
                        = (y_field c - p_order) + 2 ^ 255 * sign_bit c)
      by (rewrite (le_val_fields c); lia).
    all: destruct (fields_of_sum (y_field c - p_order) (sign_bit c))
      as (L1 & L2 & L3 & L4); [lia | lia | ].
    all: rewrite <- Hsum in L1, L2, L3, L4.
    all: split; [apply Decompress_val; assumption | ].
    all: split; [intros E; rewrite E in L2; lia | ].
    all: split; [assumption | ].
    all: split; [lia | ].
    all: split; [assumption | ].
    all: rewrite !Decompress_val by assumption.
    all: rewrite L3, L4, <- Hmod, Z.mod_mod by lia; reflexivity.
  - split; [ | split].
    + intros E. apply (f_equal le_val) in E. vm_compute in E. discriminate E.
    + vm_compute. reflexivity.
    + vm_compute. reflexivity.
Qed.

Lemma C9_noncanonical_y_accepted_witness :
  let c := le_bytes 32 (p_order + 1) in
  length c = 32%nat /\ p_order <= y_field c /\
  le_bytes 32 (le_val c - p_order) <> c /\
  Jubjub_Decompress Curve (le_bytes 32 (le_val c - p_order))
  = Jubjub_Decompress Curve c.
Proof.
  cbv zeta.
  assert (H1 : length (le_bytes 32 (p_order + 1)) = 32%nat) by reflexivity.
  assert (H2 : p_order <= y_field (le_bytes 32 (p_order + 1)))
    by (vm_compute; discriminate).
  pose proof (proj1 C9_noncanonical_y_accepted _ H1 H2) as H.
  cbv zeta in H. destruct H as (_ & Hne & _ & _ & _ & Heq).
  exact (conj H1 (conj H2 (conj Hne Heq))).
Defined.

(** ** C10: a sign bit of 1 with [x = 0] *)

Lemma on_curve_x0 (yv : Z) :
  0 <= yv < p_order -> on_curve_val 0 yv = true -> (yv * yv) mod p_order = 1.
Proof.
  intros Hy. unfold on_curve_val. cbv zeta.
  pose proof p_order_pos as Hp. assert (Hp1 : 1 < p_order) by reflexivity.
  pose proof (Z.mod_pos_bound (yv * yv) p_order Hp) as Hyy.
  set (yy := (yv * yv) mod p_order) in *.
  change (0 * 0) with 0. rewrite (Z.mod_0_l p_order) by lia.
  rewrite !Z.mul_0_l, !(Z.mod_0_l p_order) by lia.
  change (- 0) with 0. rewrite ?(Z.mod_0_l p_order) by lia.
  change (0 + 1) with 1. rewrite (Z.mod_small 1 p_order) by lia.
  rewrite Z.add_0_l, (Z.mod_small yy) by lia.
  change (Z.opp 1) with (-1).
  replace ((-1) mod p_order) with (p_order - 1)
    by (apply Z.mod_unique with (q := -1); lia).
  intros H. apply Z.eqb_eq in H.
  destruct (Z.eq_dec yy 0) as [E0 | E0].
  - rewrite E0, Z.add_0_l, Z.mod_small in H by lia. lia.
  - replace (yy + (p_order - 1)) with (yy - 1 + 1 * p_order) in H by lia.
    rewrite Z_mod_plus_full, Z.mod_small in H by lia. lia.
Qed.

Lemma ModSqrt_zero : Big.ModSqrt 0 p_order = Some 0.
Proof. vm_compute. reflexivity. Qed.

(** C10: for a point [(0, y)] of the curve, the encoding of [y] with bit 7
    of byte 31 set decompresses, without error, to [(0, y)]: the sign bit 1
    disagrees with the parity 0 of [x] and is not rejected. *)
Theorem C10_sign_bit_with_zero_x (yv : Z) :
  0 <= yv < p_order ->
  Point_IsOnCurve (mkPt 0 yv) = true ->
  let c := le_bytes 32 (yv + 2 ^ 255) in
  length c = 32%nat /\ sign_bit c = 1 /\ y_field c = yv /\
  Jubjub_Decompress Curve c = (Some (mkPt 0 yv), None).
Proof.
  intros Hy Hon c. subst c. rewrite Point_IsOnCurve_val in Hon.
  pose proof p_order_lt as Hp.
  destruct (fields_of_sum yv 1) as (L1 & L2 & L3 & L4); [lia | lia | ].
  change (2 ^ 255 * 1) with (2 ^ 255) in *.
  split; [assumption | ]. split; [assumption | ]. split; [assumption | ].
  rewrite Decompress_val by assumption. rewrite L3, L4.
  rewrite (Z.mod_small yv) by lia.
  unfold decompress_val, decompress_u. cbv zeta.
  rewrite (on_curve_x0 yv Hy Hon).
  change ((1 - 1) mod p_order) with 0. rewrite Z.mul_0_l.
  rewrite (Z.mod_0_l p_order) by (pose proof p_order_pos; lia).
  rewrite ModSqrt_zero. cbv iota beta.
  change (negb (1 =? 0 mod 2)) with true. cbv iota.
  change ((- 0) mod p_order) with 0. rewrite Hon. reflexivity.
Qed.

Lemma C10_sign_bit_with_zero_x_witness :
  0 <= 1 < p_order /\ Point_IsOnCurve (mkPt 0 1) = true /\
  Jubjub_Decompress Curve (le_bytes 32 (1 + 2 ^ 255)) = (Some (mkPt 0 1), None).
Proof.
  assert (H1 : 0 <= 1 < p_order) by (unfold p_order; lia).
  assert (H2 : Point_IsOnCurve (mkPt 0 1) = true) by (vm_compute; reflexivity).
  exact (conj H1 (conj H2
           (proj2 (proj2 (proj2 (C10_sign_bit_with_zero_x 1 H1 H2)))))).
Defined.

(** ** C8: the in-place operations and the allocating ones *)

Lemma load_write_eq s a v : Heap.load (Heap.write s a v) a = v.
Proof. unfold Heap.load, Heap.write. cbn [Heap.cell]. now rewrite Nat.eqb_refl. Qed.

Lemma load_write_neq s a b v :
  b <> a -> Heap.load (Heap.write s a v) b = Heap.load s b.
Proof.
  intros H. unfold Heap.load, Heap.write. cbn [Heap.cell].
  now rewrite (proj2 (Nat.eqb_neq b a) H).
Qed.

Lemma load_extend_old s v b :
  (b < Heap.next s)%nat -> Heap.load (Heap.extend s v) b = Heap.load s b.
Proof.
  intros H. unfold Heap.load, Heap.extend. cbn [Heap.cell].
  rewrite (proj2 (Nat.eqb_neq b (Heap.next s))) by lia. reflexivity.
Qed.

Lemma next_write s a v : Heap.next (Heap.write s a v) = Heap.next s.
Proof. reflexivity. Qed.

Lemma next_extend s v : Heap.next (Heap.extend s v) = S (Heap.next s).
Proof. reflexivity. Qed.

Lemma inverse_or_same a : Heap.inverse_or a a p_order = inv0 a.
Proof. reflexivity. Qed.

Lemma wp_bind {A B} (m : Heap.M A) (k : A -> Heap.M B) Q s :
  wp m (fun a s' => wp (k a) Q s') s -> wp (Heap.bind m k) Q s.
Proof. unfold wp, Heap.bind. destruct (m s) as [a s']. trivial. Qed.

Lemma wp_ret {A} (a : A) (Q : A -> Heap.store -> Prop) s :
  Q a s -> wp (Heap.ret a) Q s.
Proof. trivial. Qed.

Lemma wp_newFieldElement order Q s :
  (forall s', Heap.next s' = S (Heap.next s) ->
              Heap.load s' (Heap.next s) = 0 ->
              (forall b, (b < Heap.next s)%nat -> Heap.load s' b = Heap.load s b) ->
              Q (Heap.next s) s') ->
  wp (Heap.newFieldElement order) Q s.
Proof.
  intros H. unfold wp, Heap.newFieldElement, Heap.alloc. cbn [fst snd].
  apply H.
  - reflexivity.
  - unfold Heap.load, Heap.extend. cbn [Heap.cell]. now rewrite Nat.eqb_refl.
  - intros b Hb. apply load_extend_old. assumption.
Qed.

Lemma wp_write (z : Heap.addr) (v : Z) (Q : Heap.addr -> Heap.store -> Prop) s :
  (forall s', Heap.next s' = Heap.next s ->
              Heap.load s' z = v ->
              (forall b, b <> z -> Heap.load s' b = Heap.load s b) ->
              Q z s') ->
  Q z (Heap.write s z v).
Proof.
  intros H. apply H.
  - reflexivity.
  - apply load_write_eq.
  - intros b Hb. apply load_write_neq. assumption.
Qed.

Lemma wp_Mul z x y Q s :
  (forall s', Heap.next s' = Heap.next s ->
              Heap.load s' z = (Heap.load s x * Heap.load s y) mod p_order ->
              (forall b, b <> z -> Heap.load s' b = Heap.load s b) ->
              Q z s') ->
  wp (Heap.Mul p_order z x y) Q s.
Proof. intros H. unfold wp, Heap.Mul. cbn [fst snd]. rewrite Mod_p. now apply wp_write. Qed.

Lemma wp_Add z x y Q s :
  (forall s', Heap.next s' = Heap.next s ->
              Heap.load s' z = (Heap.load s x + Heap.load s y) mod p_order ->
              (forall b, b <> z -> Heap.load s' b = Heap.load s b) ->
              Q z s') ->
  wp (Heap.Add p_order z x y) Q s.
Proof. intros H. unfold wp, Heap.Add. cbn [fst snd]. rewrite Mod_p. now apply wp_write. Qed.

Lemma wp_Sub z x y Q s :
  (forall s', Heap.next s' = Heap.next s ->
              Heap.load s' z = (Heap.load s x - Heap.load s y) mod p_order ->
              (forall b, b <> z -> Heap.load s' b = Heap.load s b) ->
              Q z s') ->
  wp (Heap.Sub p_order z x y) Q s.
Proof. intros H. unfold wp, Heap.Sub. cbn [fst snd]. rewrite Mod_p. now apply wp_write. Qed.

Lemma wp_ModInverse z Q s :
  (forall s', Heap.next s' = Heap.next s ->
              Heap.load s' z = inv0 (Heap.load s z) ->
              (forall b, b <> z -> Heap.load s' b = Heap.load s b) ->
              Q z s') ->
  wp (Heap.ModInverse p_order z z) Q s.
Proof.
  intros H. unfold wp, Heap.ModInverse. cbn [fst snd].
  rewrite inverse_or_same. now apply wp_write.
Qed.

(** One step of symbolic execution: the facts [load s a = v] about the
    store before the step are carried to the store after it, where the step
    cannot have written [a]. *)
Ltac carry s s' Hframe :=
  repeat match goal with
         | H : Heap.load s ?a = ?v |- _ =>
             first [ let L := fresh "L" in
                     assert (L : Heap.load s' a = v)
                       by (rewrite Hframe by lia; exact H);
                     clear H
                   | clear H ]
         end.

Ltac wp_step :=
  lazymatch goal with
  | |- wp (Heap.bind _ _) _ _ => apply wp_bind
  | |- wp (Heap.ret _) _ _ => apply wp_ret
  | |- wp (Heap.newFieldElement _) _ ?s =>
      let s' := fresh "s" in let Hn := fresh "Hn" in
      let Hv := fresh "L" in let Hf := fresh "Hf" in
      apply wp_newFieldElement; intros s' Hn Hv Hf;
      carry s s' Hf; clear Hf
  | |- wp (?op p_order ?z _ _) _ ?s =>
      let s' := fresh "s" in let Hn := fresh "Hn" in
      let Hv := fresh "L" in let Hf := fresh "Hf" in
      first [ apply wp_Mul | apply wp_Add | apply wp_Sub ];
      intros s' Hn Hv Hf;
      repeat match type of Hv with
             | context [Heap.load s ?a] =>
                 match goal with
                 | H : Heap.load s a = _ |- _ => rewrite H in Hv
                 end
             end;
      carry s s' Hf; clear Hf
  | |- wp (Heap.ModInverse p_order ?z ?z) _ ?s =>
      let s' := fresh "s" in let Hn := fresh "Hn" in
      let Hv := fresh "L" in let Hf := fresh "Hf" in
      apply wp_ModInverse; intros s' Hn Hv Hf;
      repeat match type of Hv with
             | context [Heap.load s ?a] =>
                 match goal with
                 | H : Heap.load s a = _ |- _ => rewrite H in Hv
                 end
             end;
      carry s s' Hf; clear Hf
  end.

Lemma Heap_Point_Add_spec (s : Heap.store) (c : Heap.CurveRef)
      (p p1 p2 : Heap.PointRef) :
  Heap.holds_curve s c ->
  Heap.allocated s p -> Heap.allocated s p1 -> Heap.allocated s p2 ->
  Heap.writable c p ->
  let s' := snd (Heap.Point_Add c p p1 p2 s) in
  Heap.load s' (Heap.r_x p)
  = fst (add_val (Heap.load s (Heap.r_x p1)) (Heap.load s (Heap.r_y p1))
                 (Heap.load s (Heap.r_x p2)) (Heap.load s (Heap.r_y p2))) /\
  Heap.load s' (Heap.r_y p)
  = snd (add_val (Heap.load s (Heap.r_x p1)) (Heap.load s (Heap.r_y p1))
                 (Heap.load s (Heap.r_x p2)) (Heap.load s (Heap.r_y p2))).
Proof.
  intros (Ho & Hd & H1 & Hdv & H1v) [Hpx Hpy] [H1x H1y] [H2x H2y]
         (Hxy & Hxd & Hx1 & Hyd & Hy1).
  remember (Heap.load s (Heap.r_x p1)) as x1 eqn:E1. symmetry in E1.
  remember (Heap.load s (Heap.r_y p1)) as y1 eqn:E2. symmetry in E2.
  remember (Heap.load s (Heap.r_x p2)) as x2 eqn:E3. symmetry in E3.
  remember (Heap.load s (Heap.r_y p2)) as y2 eqn:E4. symmetry in E4.
  cbv zeta.
  change (wp (Heap.Point_Add c p p1 p2)
             (fun _ s' => Heap.load s' (Heap.r_x p) = fst (add_val x1 y1 x2 y2) /\
                          Heap.load s' (Heap.r_y p) = snd (add_val x1 y1 x2 y2)) s).
  unfold Heap.Point_Add. rewrite Ho. cbv zeta.
  repeat wp_step.
  split; assumption.
Qed.

Lemma Heap_Point_Double_spec (s : Heap.store) (c : Heap.CurveRef)
      (p p1 : Heap.PointRef) :
  Heap.holds_curve s c ->
  Heap.allocated s p -> Heap.allocated s p1 ->
  Heap.writable c p ->
  let s' := snd (Heap.Point_Double c p p1 s) in
  Heap.load s' (Heap.r_x p)
  = fst (add_val (Heap.load s (Heap.r_x p1)) (Heap.load s (Heap.r_y p1))
                 (Heap.load s (Heap.r_x p1)) (Heap.load s (Heap.r_y p1))) /\
  Heap.load s' (Heap.r_y p)
  = snd (add_val (Heap.load s (Heap.r_x p1)) (Heap.load s (Heap.r_y p1))
                 (Heap.load s (Heap.r_x p1)) (Heap.load s (Heap.r_y p1))).
Proof.
  intros (Ho & Hd & H1 & Hdv & H1v) [Hpx Hpy] [H1x H1y]
         (Hxy & Hxd & Hx1 & Hyd & Hy1).
  remember (Heap.load s (Heap.r_x p1)) as x1 eqn:E1. symmetry in E1.
  remember (Heap.load s (Heap.r_y p1)) as y1 eqn:E2. symmetry in E2.
  cbv zeta.
  change (wp (Heap.Point_Double c p p1)
             (fun _ s' => Heap.load s' (Heap.r_x p) = fst (add_val x1 y1 x1 y1) /\
                          Heap.load s' (Heap.r_y p) = snd (add_val x1 y1 x1 y1)) s).
  unfold Heap.Point_Double. rewrite Ho. cbv zeta.
  repeat wp_step.
  split; assumption.
Qed.

(** The cells of the store that are not coordinates of the receiver keep
    their value. *)
Lemma Heap_Point_Add_frame (s : Heap.store) (c : Heap.CurveRef)
      (p p1 p2 : Heap.PointRef) (a : Heap.addr) :
  Heap.c_fieldOrder c = p_order ->
  (a < Heap.next s)%nat -> a <> Heap.r_x p -> a <> Heap.r_y p ->
  Heap.load (snd (Heap.Point_Add c p p1 p2 s)) a = Heap.load s a.
Proof.
  intros Ho Ha Hax Hay.
  remember (Heap.load s a) as v eqn:E. symmetry in E.
  change (wp (Heap.Point_Add c p p1 p2) (fun _ s' => Heap.load s' a = v) s).
  unfold Heap.Point_Add. rewrite Ho. cbv zeta.
  repeat wp_step.
  assumption.
Qed.

(** C8: on a store that holds the curve context, for every receiver whose
    coordinates are two distinct integers other than the cached constants
    [d] and [fieldOne] -- a receiver that is itself [p1] or [p2] included --
    the point left in the receiver by [p.Add(p1, p2)] is the point that
    [curve.Add(p1, p2)] returns, and the point left by [p.Double(p1)] is the
    one that [curve.Double(p1)] returns. *)
Theorem C8_in_place_equals_allocating
        (s : Heap.store) (c : Heap.CurveRef) (p p1 p2 : Heap.PointRef) :
  Heap.holds_curve s c ->
  Heap.allocated s p -> Heap.allocated s p1 -> Heap.allocated s p2 ->
  Heap.writable c p ->
  Heap.read (snd (Heap.Point_Add c p p1 p2 s)) p
  = Jubjub_Add Curve (Heap.read s p1) (Heap.read s p2) /\
  Heap.read (snd (Heap.Point_Double c p p1 s)) p
  = Jubjub_Double Curve (Heap.read s p1).
Proof.
  intros Hc Hp H1 H2 Hw. split.
  - destruct (Heap_Point_Add_spec s c p p1 p2 Hc Hp H1 H2 Hw) as [Ex Ey].
    cbv zeta in Ex, Ey. unfold Heap.read at 1. rewrite Ex, Ey.
    rewrite Jubjub_Add_val. reflexivity.
  - destruct (Heap_Point_Double_spec s c p p1 Hc Hp H1 Hw) as [Ex Ey].
    cbv zeta in Ex, Ey. unfold Heap.read at 1. rewrite Ex, Ey.
    rewrite Jubjub_Double_val, Jubjub_Add_val. reflexivity.
Qed.

Lemma C8_in_place_equals_allocating_witness :
  let c := Heap.mkCurveRef p_order 0%nat 1%nat in
  let p1 := Heap.mkPointRef 2%nat 3%nat in
  let p2 := Heap.mkPointRef 4%nat 5%nat in
  Heap.holds_curve example_store c /\
  Heap.allocated example_store p1 /\ Heap.allocated example_store p2 /\
  Heap.writable c p1 /\
  Heap.read (snd (Heap.Point_Add c p1 p1 p2 example_store)) p1
  = Jubjub_Add Curve (Heap.read example_store p1) (Heap.read example_store p2) /\
  Heap.read (snd (Heap.Point_Double c p1 p1 example_store)) p1
  = Jubjub_Double Curve (Heap.read example_store p1).
Proof.
  cbv zeta.
  assert (Hc : Heap.holds_curve example_store (Heap.mkCurveRef p_order 0%nat 1%nat)).
  { unfold Heap.holds_curve. cbn. repeat split; lia. }
  assert (H1 : Heap.allocated example_store (Heap.mkPointRef 2%nat 3%nat)).
  { unfold Heap.allocated. cbn. lia. }
  assert (H2 : Heap.allocated example_store (Heap.mkPointRef 4%nat 5%nat)).
  { unfold Heap.allocated. cbn. lia. }
  assert (Hw : Heap.writable (Heap.mkCurveRef p_order 0%nat 1%nat) (Heap.mkPointRef 2%nat 3%nat)).
  { unfold Heap.writable. cbn. repeat split; lia. }
  exact (conj Hc (conj H1 (conj H2 (conj Hw
           (C8_in_place_equals_allocating example_store _ _ _ _ Hc H1 H1 H2 Hw))))).
Defined.

(** ** Primality of the field order *)

Lemma no_divisor_spec k : forall d n,
  no_divisor k d n = true ->
  forall m, d <= m < d + Z.of_nat k -> n mod m <> 0.
Proof.
  induction k as [ | k IH]; intros d n H m Hm; [lia | ].
  cbn [no_divisor] in H. apply andb_true_iff in H. destruct H as [H1 H2].
  destruct (Z.eq_dec m d) as [-> | Hne].
  - apply negb_true_iff, Z.eqb_neq in H1. exact H1.
  - apply (IH (d + 1) n H2). lia.
Qed.

Lemma is_prime_small_correct n : is_prime_small n = true -> Z.prime n.
Proof.
  unfold is_prime_small. intros H. apply andb_true_iff in H.
  destruct H as [H1 H2]. apply Z.ltb_lt in H1.
  pose proof (no_divisor_spec _ _ _ H2) as Hnd.
  pose proof (Z.sqrt_spec n ltac:(lia)) as Hs. cbv zeta in Hs.
  pose proof (Z.sqrt_nonneg n) as Hs0.
  assert (Hs1 : 1 <= Z.sqrt n).
  { destruct (Z_lt_le_dec (Z.sqrt n) 1); [ | assumption].
    assert (E : Z.sqrt n = 0) by lia. rewrite E in Hs. lia. }
  rewrite Z2Nat.id in Hnd by lia.
  split; [assumption | ].
  intros m Hm [c Hc].
  assert (Hcpos : 1 < c).
  { destruct (Z_lt_le_dec 1 c) as [ | Hle]; [assumption | exfalso].
    assert (c * m <= 1 * m) by (apply Z.mul_le_mono_nonneg_r; lia). lia. }
  destruct (Z_lt_le_dec m (Z.sqrt n + 1)) as [Hlt | Hge].
  - apply (Hnd m); [lia | ]. rewrite Hc. apply Z.mod_mul. lia.
  - assert (c < Z.sqrt n + 1).
    { destruct (Z_lt_le_dec c (Z.sqrt n + 1)) as [ | Hle]; [assumption | exfalso].
      assert ((Z.sqrt n + 1) * (Z.sqrt n + 1) <= c * m)
        by (apply Z.mul_le_mono_nonneg; lia).
      lia. }
    apply (Hnd c); [lia | ]. rewrite Hc, Z.mul_comm. apply Z.mod_mul. lia.
Qed.

Lemma exists_prime_divisor n : 1 < n -> exists r, Z.prime r /\ (r | n).
Proof.
  intros Hn. assert (H0 : 0 <= n) by lia. revert Hn.
  pattern n. apply Z_lt_induction; [ | assumption]. clear n H0.
  intros n IH Hn.
  destruct (prime_dec n) as [Hp | Hnp].
  - exists n. split; [apply prime_alt; assumption | apply Z.divide_refl].
  - destruct (not_prime_divide n Hn Hnp) as (m & Hm & Hdiv).
    destruct (IH m ltac:(lia) ltac:(lia)) as (r & Hr & Hrm).
    exists r. split; [assumption | ]. eapply Z.divide_trans; eassumption.
Qed.

Section PowersOfOne.

(** The exponents [e >= 0] with [a^e = 1] modulo [r] are closed under
    the steps of Euclid's algorithm. *)
Variables r a : Z.
Hypothesis Hr : 1 < r.

Let one (e : Z) : Prop := a ^ e mod r = 1.

Lemma one_mul x k : 0 <= x -> 0 <= k -> one x -> one (x * k).
Proof.
  unfold one. intros Hx Hk H.
  rewrite Z.pow_mul_r, <- Z.mod_pow_l, H, Z.pow_1_l by assumption.
  apply Z.mod_1_l. assumption.
Qed.

Lemma one_sub x y : 0 <= y <= x -> one x -> one y -> one (x - y).
Proof.
  unfold one. intros Hxy Hx Hy.
  replace x with ((x - y) + y) in Hx by lia.
  rewrite Z.pow_add_r, Z.mul_mod, Hy, Z.mul_1_r, Z.mod_mod in Hx by lia.
  exact Hx.
Qed.

Lemma one_mod x y : 0 <= x -> 0 < y -> one x -> one y -> one (x mod y).
Proof.
  intros Hx Hy Ox Oy. rewrite Z.mod_eq by lia.
  apply one_sub; [ | assumption | ].
  - pose proof (Z.mul_div_le x y Hy). pose proof (Z.div_pos x y Hx Hy). nia.
  - apply one_mul; [lia | apply Z.div_pos; lia | assumption].
Qed.

Lemma one_gcd : forall y, 0 <= y -> forall x, 0 <= x -> one x -> one y ->
  one (Z.gcd x y).
Proof.
  intros y Hy. pattern y. apply Z_lt_induction; [ | assumption]. clear y Hy.
  intros y IH x Hx Ox Oy.
  destruct (Z.eq_dec y 0) as [-> | Hnz].
  - rewrite Z.gcd_0_r, Z.abs_eq by assumption. assumption.
  - assert (Hy : 0 <= y).
    { destruct (Z_lt_le_dec y 0) as [Hneg | ]; [ | assumption].
      unfold one in Oy. rewrite Z.pow_neg_r in Oy by assumption.
      rewrite Z.mod_0_l in Oy by lia. discriminate. }
    pose proof (Z.mod_pos_bound x y ltac:(lia)) as Hm.
    rewrite Z.gcd_comm, <- Z.gcd_mod by assumption. rewrite Z.gcd_comm.
    apply IH; try lia; try assumption.
    apply one_mod; try assumption; lia.
Qed.

End PowersOfOne.

Section Lucas.

Variables (N a : Z) (qs : list Z).
Hypothesis HN : 1 < N.
Hypothesis Hqs : forall q, Z.prime q -> (q | N - 1) -> In q qs.
Hypothesis Ha : a ^ (N - 1) mod N = 1.
Hypothesis Hg : forall q, In q qs -> Z.gcd (a ^ ((N - 1) / q) mod N - 1) N = 1.

(** Lucas' test: [a] has order [N - 1] modulo every prime divisor of [N],
    which leaves [N] as its only prime divisor. *)
Theorem lucas_prime : Z.prime N.
Proof.
  split; [assumption | ]. intros n Hn Hdiv.
  destruct (exists_prime_divisor n ltac:(lia)) as (r & Hr & Hrn).
  pose proof (Z.prime_ge_2 r Hr) as Hr2.
  assert (HrN : (r | N)) by (eapply Z.divide_trans; eassumption).
  assert (Hrle : r <= n) by (apply Z.divide_pos_le; [lia | assumption]).
  assert (O1 : a ^ (N - 1) mod r = 1).
  { rewrite <- (Z.mod_mod_divide _ N r HrN), Ha. apply Z.mod_1_l. lia. }
  assert (Hanz : a mod r <> 0).
  { intros E. rewrite <- Z.mod_pow_l, E, Z.pow_0_l, Z.mod_0_l in O1 by lia.
    discriminate. }
  assert (O2 : a ^ (r - 1) mod r = 1) by (apply Z.fermat_nz; assumption).
  pose proof (one_gcd r a ltac:(lia) (r - 1) ltac:(lia) (N - 1) ltac:(lia) O1 O2)
    as Oh.
  set (h := Z.gcd (N - 1) (r - 1)) in *.
  assert (Hh1 : (h | N - 1)) by apply Z.gcd_divide_l.
  assert (Hh2 : (h | r - 1)) by apply Z.gcd_divide_r.
  assert (Hhpos : 0 < h).
  { pose proof (Z.gcd_nonneg (N - 1) (r - 1)). fold h in H.
    destruct (Z.eq_dec h 0) as [E | ]; [ | lia].
    apply Z.gcd_eq_0_l in E. lia. }
  assert (Hhle : h <= r - 1) by (apply Z.divide_pos_le; [lia | assumption]).
  destruct Hh1 as [t Ht].
  assert (Ht1 : 1 < t) by nia.
  destruct (exists_prime_divisor t Ht1) as (q & Hq & [u Hu]).
  pose proof (Z.prime_ge_2 q Hq) as Hq2.
  assert (HqN : (q | N - 1)) by (exists (u * h); rewrite Ht, Hu; ring).
  assert (Hdivq : (N - 1) / q = h * u).
  { rewrite Ht, Hu. replace (u * q * h) with (h * u * q) by ring.
    apply Z.div_mul. lia. }
  assert (Hu0 : 0 <= u) by nia.
  pose proof (one_mul r a ltac:(lia) h u ltac:(lia) Hu0 Oh) as Ohu.
  rewrite <- Hdivq in Ohu.
  pose proof (Hg q (Hqs q Hq HqN)) as Hgcd.
  assert (Hrd : (r | a ^ ((N - 1) / q) mod N - 1)).
  { apply Z.mod_divide; [lia | ].
    rewrite Zminus_mod, (Z.mod_mod_divide _ N r HrN), Ohu.
    rewrite Z.mod_1_l by lia. reflexivity. }
  assert (Hr1 : (r | 1)).
  { rewrite <- Hgcd. apply Z.gcd_greatest; assumption. }
  apply Z.divide_1_r in Hr1. lia.
Qed.

End Lucas.

Lemma prime_divides_product q qs es :
  Z.prime q -> Forall Z.prime qs -> Forall (fun e => 0 <= e) es ->
  (q | prime_power_product qs es) -> In q qs.
Proof.
  intros Hq. revert es. induction qs as [ | q1 qs IH]; intros es Hqs Hes Hdiv.
  - cbn in Hdiv. apply Z.divide_1_r in Hdiv. pose proof (Z.prime_ge_2 q Hq). lia.
  - destruct es as [ | e es].
    + cbn in Hdiv. apply Z.divide_1_r in Hdiv. pose proof (Z.prime_ge_2 q Hq). lia.
    + unfold prime_power_product in Hdiv. cbn [combine map fold_right fst snd] in Hdiv.
      inversion Hqs as [ | ? ? Hq1 Hqs']; subst.
      inversion Hes as [ | ? ? He Hes']; subst.
      apply Z.divide_prime_mul in Hdiv; [ | assumption].
      destruct Hdiv as [Hdiv | Hdiv].
      * left. symmetry. eapply Z.divide_prime_pp; eassumption.
      * right. eapply IH; eassumption.
Qed.

Lemma p_minus_1_primes_prime : Forall Z.prime p_minus_1_primes.
Proof.
  unfold p_minus_1_primes.
  repeat (apply Forall_cons;
          [apply is_prime_small_correct; vm_compute; reflexivity | ]).
  apply Forall_nil.
Qed.

Lemma p_minus_1_factorisation :
  p_order - 1 = prime_power_product p_minus_1_primes p_minus_1_exponents.
Proof. vm_compute. reflexivity. Qed.

(** ** The Lucas test on a product tree *)

Lemma prod_pow_app l r : prod_pow (l ++ r) = prod_pow l * prod_pow r.
Proof.
  unfold prod_pow. induction l as [ | x l IH]; cbn [app map fold_right].
  - now rewrite Z.mul_1_l.
  - rewrite IH. ring.
Qed.

Lemma prod_pow_nonneg fs :
  Forall (fun qe => 0 < fst qe /\ 1 <= snd qe) fs -> 0 <= prod_pow fs.
Proof.
  unfold prod_pow. induction 1 as [ | x l [Hq He] Hl IH]; cbn [map fold_right].
  - lia.
  - apply Z.mul_nonneg_nonneg; [apply Z.pow_nonneg; lia | assumption].
Qed.

Section LucasTree.

Variables N a : Z.

Lemma powmod_pow_mod E k :
  0 <= E -> 0 <= k ->
  Big.powmod (a ^ E mod N) k N = a ^ (E * k) mod N.
Proof.
  intros HE Hk. rewrite powmod_spec by assumption.
  rewrite Z.mod_pow_l, <- Z.pow_mul_r by assumption. reflexivity.
Qed.

Lemma lucas_tree_sound fuel : forall b fs E,
  0 <= E ->
  Forall (fun qe => 0 < fst qe /\ 1 <= snd qe) fs ->
  b = a ^ E mod N ->
  E * prod_pow fs = N - 1 ->
  lucas_tree fuel N b fs = true ->
  forall q e, In (q, e) fs ->
    a ^ (N - 1) mod N = 1 /\ Z.gcd (a ^ ((N - 1) / q) mod N - 1) N = 1.
Proof.
  induction fuel as [ | k IH]; intros b fs E HE Hall Hb Hprod H q e Hin;
    [discriminate | ].
  destruct fs as [ | [q0 e0] [ | y t]].
  - contradiction.
  - destruct Hin as [[= -> ->] | []].
    inversion Hall as [ | ? ? [Hq He] _]; subst. cbn [fst snd] in Hq, He.
    cbn [lucas_tree] in H. cbv zeta in H.
    apply andb_true_iff in H. destruct H as [Hg H1].
    apply Z.eqb_eq in Hg, H1.
    unfold prod_pow in Hprod. cbn [map fold_right fst snd] in Hprod.
    assert (Hk : 0 <= q ^ (e - 1)) by (apply Z.pow_nonneg; lia).
    assert (Hqe : q ^ e = q ^ (e - 1) * q).
    { replace e with (e - 1 + 1) at 1 by lia.
      rewrite Z.pow_add_r, Z.pow_1_r by lia. reflexivity. }
    assert (Hdiv : (N - 1) / q = E * q ^ (e - 1)).
    { rewrite <- Hprod, Hqe.
      replace (E * (q ^ (e - 1) * q * 1)) with (E * q ^ (e - 1) * q) by ring.
      apply Z.div_mul. lia. }
    rewrite powmod_pow_mod in Hg, H1 by assumption.
    rewrite powmod_pow_mod in H1 by (try apply Z.mul_nonneg_nonneg; lia).
    rewrite Hdiv. split; [ | exact Hg].
    rewrite <- Hprod, Hqe.
    replace (E * (q ^ (e - 1) * q * 1)) with (E * q ^ (e - 1) * q) by ring.
    exact H1.
  - cbn [lucas_tree] in H. cbv zeta in H.
    set (fs := (q0, e0) :: y :: t) in *.
    set (h := Nat.div2 (length fs)) in *.
    rewrite <- (firstn_skipn h fs) in Hall, Hprod, Hin.
    apply Forall_app in Hall. destruct Hall as [Hl Hr].
    rewrite prod_pow_app in Hprod.
    pose proof (prod_pow_nonneg _ Hl) as Pl.
    pose proof (prod_pow_nonneg _ Hr) as Pr.
    apply andb_true_iff in H. destruct H as [H1 H2].
    rewrite Hb in H1, H2. rewrite powmod_pow_mod in H1, H2 by assumption.
    apply in_app_or in Hin. destruct Hin as [Hin | Hin].
    + apply (IH (a ^ (E * prod_pow (skipn h fs)) mod N) (firstn h fs)
               (E * prod_pow (skipn h fs))) with (e := e);
        [apply Z.mul_nonneg_nonneg; lia | assumption | reflexivity | | assumption
        | assumption].
      rewrite <- Hprod. ring.
    + apply (IH (a ^ (E * prod_pow (firstn h fs)) mod N) (skipn h fs)
               (E * prod_pow (firstn h fs))) with (e := e);
        [apply Z.mul_nonneg_nonneg; lia | assumption | reflexivity | | assumption
        | assumption].
      rewrite <- Hprod. ring.
Qed.

End LucasTree.

Lemma in_combine_exists {A B} (x : A) (xs : list A) (ys : list B) :
  length xs = length ys -> In x xs -> exists y, In (x, y) (combine xs ys).
Proof.
  revert ys. induction xs as [ | x0 xs IH]; intros [ | y0 ys] Hlen Hin;
    try contradiction; try discriminate.
  destruct Hin as [-> | Hin].
  - exists y0. left. reflexivity.
  - destruct (IH ys) as [y Hy]; [now injection Hlen | assumption | ].
    exists y. right. exact Hy.
Qed.

Lemma p_generator_order :
  lucas_tree 12 p_order p_generator
    (combine p_minus_1_primes p_minus_1_exponents) = true.
Proof. vm_compute. reflexivity. Qed.

Lemma p_generator_lucas (q : Z) :
  In q p_minus_1_primes ->
  p_generator ^ (p_order - 1) mod p_order = 1 /\
  Z.gcd (p_generator ^ ((p_order - 1) / q) mod p_order - 1) p_order = 1.
Proof.
  intros Hq.
  destruct (in_combine_exists q p_minus_1_primes p_minus_1_exponents
              eq_refl Hq) as [e He].
  apply (lucas_tree_sound p_order p_generator 12 p_generator
           (combine p_minus_1_primes p_minus_1_exponents) 1) with (e := e).
  - lia.
  - unfold p_minus_1_primes, p_minus_1_exponents. cbn [combine].
    repeat (apply Forall_cons; [cbn [fst snd]; lia | ]). apply Forall_nil.
  - reflexivity.
  - rewrite Z.mul_1_l. symmetry. exact p_minus_1_factorisation.
  - exact p_generator_order.
  - exact He.
Qed.

Theorem p_order_prime : Z.prime p_order.
Proof.
  apply (lucas_prime p_order p_generator p_minus_1_primes).
  - reflexivity.
  - intros q Hq Hdiv. rewrite p_minus_1_factorisation in Hdiv.
    apply (prime_divides_product q p_minus_1_primes p_minus_1_exponents Hq
             p_minus_1_primes_prime); [ | assumption].
    unfold p_minus_1_exponents.
    repeat (apply Forall_cons; [lia | ]). apply Forall_nil.
  - refine (proj1 (p_generator_lucas 2 _)). left. reflexivity.
  - intros q Hq. exact (proj2 (p_generator_lucas q Hq)).
Qed.

(** ** Arithmetic modulo the field order *)

Local Infix "==" := eqp (at level 70).

#[global] Instance eqp_equiv : Equivalence eqp.
Proof.
  split.
  - intros a. reflexivity.
  - intros a b H. unfold eqp in *. congruence.
  - intros a b c H1 H2. unfold eqp in *. congruence.
Qed.

#[global] Instance eqp_add : Proper (eqp ==> eqp ==> eqp) Z.add.
Proof.
  intros a b H c e H'. unfold eqp in *.
  now rewrite Zplus_mod, H, H', <- Zplus_mod.
Qed.

#[global] Instance eqp_sub : Proper (eqp ==> eqp ==> eqp) Z.sub.
Proof.
  intros a b H c e H'. unfold eqp in *.
  now rewrite Zminus_mod, H, H', <- Zminus_mod.
Qed.

#[global] Instance eqp_mul : Proper (eqp ==> eqp ==> eqp) Z.mul.
Proof.
  intros a b H c e H'. unfold eqp in *.
  now rewrite Zmult_mod, H, H', <- Zmult_mod.
Qed.

#[global] Instance eqp_opp : Proper (eqp ==> eqp) Z.opp.
Proof.
  intros a b H. change (0 - a == 0 - b). now rewrite H.
Qed.

Lemma eqp_mod a : a mod p_order == a.
Proof. unfold eqp. apply Z.mod_mod. pose proof p_order_pos. lia. Qed.

Lemma eqp_pow a b k : a == b -> a ^ k == b ^ k.
Proof.
  intros H. unfold eqp in *. now rewrite <- Z.mod_pow_l, H, Z.mod_pow_l.
Qed.

Lemma eqp_small a b :
  0 <= a < p_order -> 0 <= b < p_order -> a == b -> a = b.
Proof. intros Ha Hb H. unfold eqp in H. now rewrite !Z.mod_small in H. Qed.

Lemma eqp_sub_0 a b : a - b == 0 -> a == b.
Proof.
  intros H. replace a with ((a - b) + b) by ring. rewrite H. reflexivity.
Qed.

Lemma eqp_0_sub a b : a == b -> a - b == 0.
Proof. intros H. rewrite H. replace (b - b) with 0 by ring. reflexivity. Qed.

Lemma eqp_0_mod a : a == 0 <-> a mod p_order = 0.
Proof. unfold eqp. rewrite Z.mod_0_l by (pose proof p_order_pos; lia). tauto. Qed.

Lemma eqp_0_divide a : a == 0 <-> (p_order | a).
Proof.
  rewrite eqp_0_mod. apply Z.mod_divide. pose proof p_order_pos. lia.
Qed.

Lemma eqp_mul_0 a b : a * b == 0 -> a == 0 \/ b == 0.
Proof.
  rewrite !eqp_0_divide. apply Z.divide_prime_mul. exact p_order_prime.
Qed.

Lemma eqp_const_neq (a b : Z) :
  (a mod p_order =? b mod p_order) = false -> ~ a == b.
Proof. intros H E. unfold eqp in E. apply Z.eqb_neq in H. contradiction. Qed.

Lemma eqp_1_0 : ~ 1 == 0.
Proof. apply eqp_const_neq. reflexivity. Qed.

(** [inv0] is the inverse of every element but 0. *)
Lemma ModInverse_reduced v :
  0 <= v < p_order ->
  Big.ModInverse v p_order
  = if v =? 0 then None else Some (Z.invmod v p_order).
Proof.
  intros Hv. unfold Big.ModInverse. cbv zeta.
  change (Z.abs p_order) with p_order.
  destruct (Z.ltb_spec v 0); [lia | ].
  destruct (Z.eqb_spec v 0) as [-> | Hnz].
  - reflexivity.
  - assert (Hg : Z.gcd v p_order = 1).
    { rewrite Z.gcd_comm. apply Z.coprime_prime_small; [exact p_order_prime | lia]. }
    rewrite Hg. reflexivity.
Qed.

Lemma inv0_spec v :
  0 <= v < p_order -> v <> 0 ->
  inv0 v * v == 1 /\ 0 <= inv0 v < p_order.
Proof.
  intros Hv Hnz. unfold inv0. rewrite ModInverse_reduced by assumption.
  destruct (Z.eqb_spec v 0); [contradiction | ].
  split.
  - unfold eqp. rewrite Z.invmod_prime.
    + symmetry. apply Z.mod_1_l. pose proof p_order_lt.
      assert (1 < p_order) by reflexivity. assumption.
    + exact p_order_prime.
    + rewrite Z.mod_small; assumption.
  - unfold Z.invmod. apply Z.mod_pos_bound. exact p_order_pos.
Qed.

Lemma inv0_zero : inv0 0 = 0.
Proof. reflexivity. Qed.

Lemma inv0_general v :
  inv0 v = if v mod p_order =? 0 then v else Z.invmod (v mod p_order) p_order.
Proof.
  unfold inv0, Big.ModInverse. cbv zeta. change (Z.abs p_order) with p_order.
  pose proof p_order_pos as Hp. pose proof p_order_prime as Hprime.
  set (g := if v <? 0 then v mod p_order else v).
  assert (Hg : g mod p_order = v mod p_order).
  { subst g. destruct (v <? 0); [apply Z.mod_mod; lia | reflexivity]. }
  assert (Hinv : Z.invmod g p_order = Z.invmod (v mod p_order) p_order).
  { rewrite <- Hg. symmetry. apply Z.invmod_mod_l. }
  destruct (Z.eqb_spec (v mod p_order) 0) as [E | E].
  - assert (Hdiv : (p_order | g)) by (apply Z.mod_divide; [lia | congruence]).
    assert (Hgcd : Z.gcd g p_order = p_order).
    { rewrite Z.gcd_comm. apply Z.divide_gcd_iff; [lia | assumption]. }
    rewrite Hgcd. reflexivity.
  - assert (Hgcd : Z.gcd g p_order = 1).
    { rewrite Z.gcd_comm. apply Z.coprime_prime_l; [assumption | ].
      intros Hdiv. apply Z.mod_divide in Hdiv; [ | lia]. congruence. }
    rewrite Hgcd. cbn [Z.eqb Pos.eqb]. assumption.
Qed.

#[global] Instance eqp_inv0 : Proper (eqp ==> eqp) inv0.
Proof.
  intros v w H. rewrite !inv0_general. unfold eqp in H. rewrite <- H.
  destruct (v mod p_order =? 0); [exact H | reflexivity].
Qed.

Lemma inv0_mul v : ~ v == 0 -> inv0 v * v == 1.
Proof.
  intros Hnz. rewrite inv0_general.
  assert (Hm : v mod p_order <> 0) by (intros E; apply Hnz, eqp_0_mod, E).
  destruct (Z.eqb_spec (v mod p_order) 0); [contradiction | ].
  unfold eqp. rewrite Z.invmod_mod_l, Z.invmod_prime.
  - symmetry. apply Z.mod_1_l. reflexivity.
  - exact p_order_prime.
  - assumption.
Qed.

Lemma inv0_mod v :
  ~ v == 0 -> inv0 (v mod p_order) * v == 1.
Proof. intros Hnz. rewrite eqp_mod. apply inv0_mul. assumption. Qed.

(** Removal of the intermediate reductions from a congruence. *)
Ltac strip_mod := rewrite_strat (topdown eqp_mod).
Ltac strip_mod_in H := rewrite_strat (topdown eqp_mod) in H.

(** A congruence between two expressions that are equal as polynomials. *)
Ltac eqp_ring :=
  apply eqp_sub_0;
  match goal with
  | |- eqp (?a - ?b) 0 => replace (a - b) with 0 by ring
  end;
  reflexivity.

Lemma eqp_inverse v : ~ v == 0 -> exists w, w * v == 1.
Proof. intros H. exists (inv0 (v mod p_order)). now apply inv0_mod. Qed.

Lemma eqp_mul_cancel_l a b c : ~ a == 0 -> a * b == a * c -> b == c.
Proof.
  intros Ha H. destruct (eqp_inverse a Ha) as [w Hw].
  replace b with (1 * b) by ring. replace c with (1 * c) by ring.
  rewrite <- Hw. replace (w * a * b) with (w * (a * b)) by ring.
  rewrite H. replace (w * (a * c)) with (w * a * c) by ring. reflexivity.
Qed.

(** Fermat's little theorem at the field order. *)
Lemma eqp_fermat z : ~ z == 0 -> z ^ (p_order - 1) == 1.
Proof.
  intros Hz. unfold eqp. rewrite Z.fermat_nz.
  - symmetry. apply Z.mod_1_l. reflexivity.
  - exact p_order_prime.
  - intros E. apply Hz, eqp_0_mod, E.
Qed.

Lemma sqrt_m1_square : sqrt_m1 * sqrt_m1 + 1 == 0.
Proof. unfold eqp. vm_compute. reflexivity. Qed.

Lemma d_raw_euler :
  Big.powmod d_raw ((p_order - 1) / 2) p_order = p_order - 1.
Proof. vm_compute. reflexivity. Qed.

(** The coefficient [d] is not a square modulo [p]. *)
Lemma d_nonsquare_root z : ~ z * z == d_raw.
Proof.
  intros H.
  assert (Hz : ~ z == 0).
  { intros E. rewrite E in H.
    revert H. apply eqp_const_neq. vm_compute. reflexivity. }
  pose proof (eqp_fermat z Hz) as Hf.
  assert (Hk : p_order - 1 = 2 * ((p_order - 1) / 2)) by reflexivity.
  rewrite Hk, Z.pow_mul_r, Z.pow_2_r in Hf by (vm_compute; discriminate).
  rewrite (eqp_pow _ _ _ H) in Hf.
  unfold eqp in Hf. rewrite <- powmod_spec in Hf by (vm_compute; discriminate).
  rewrite d_raw_euler in Hf. vm_compute in Hf. discriminate Hf.
Qed.

Lemma d_nonsquare A B : A * A == d_raw * (B * B) -> B == 0.
Proof.
  intros H. destruct (Z.eq_dec (B mod p_order) 0) as [E | E].
  - apply eqp_0_mod. assumption.
  - exfalso. assert (HB : ~ B == 0) by (intros E'; apply E, eqp_0_mod, E').
    destruct (eqp_inverse B HB) as [w Hw].
    apply (d_nonsquare_root (A * w)).
    replace (A * w * (A * w)) with (A * A * (w * w)) by ring.
    rewrite H.
    replace (d_raw * (B * B) * (w * w)) with (d_raw * ((w * B) * (w * B))) by ring.
    rewrite Hw. replace (d_raw * (1 * 1)) with d_raw by ring. reflexivity.
Qed.

(** ** The curve equation and the addition law *)

Lemma on_curve_val_spec xv yv : on_curve_val xv yv = true <-> on_curve xv yv.
Proof.
  unfold on_curve_val, on_curve. cbv zeta. rewrite Z.eqb_eq, <- eqp_0_mod.
  split; intros H.
  - strip_mod_in H. apply eqp_sub_0. rewrite <- H. eqp_ring.
  - strip_mod. apply eqp_0_sub in H. rewrite <- H. eqp_ring.
Qed.

Lemma on_curve_identity : on_curve 0 1.
Proof. unfold on_curve, eqp. vm_compute. reflexivity. Qed.

Lemma on_curve_neg xv yv : on_curve xv yv -> on_curve ((- xv) mod p_order) yv.
Proof.
  unfold on_curve. intros H. strip_mod.
  replace (- xv * - xv) with (xv * xv) by ring. exact H.
Qed.

Lemma on_curve_congr x1 y1 x2 y2 :
  x1 == x2 -> y1 == y2 -> on_curve x1 y1 -> on_curve x2 y2.
Proof. unfold on_curve. intros Hx Hy H. rewrite <- Hx, <- Hy. exact H. Qed.

(** Completeness: on the curve the denominators [1 + c] and [1 - c] of the
    addition law do not vanish, because [-1] is a square modulo [p] and [d]
    is not. *)
Lemma add_complete x1 y1 x2 y2 :
  on_curve x1 y1 -> on_curve x2 y2 ->
  ~ cterm x1 y1 x2 y2 * cterm x1 y1 x2 y2 == 1.
Proof.
  unfold on_curve, cterm. intros H1 H2 Hc.
  apply eqp_0_sub in H1, H2, Hc. pose proof sqrt_m1_square as HI.
  set (i := sqrt_m1) in *. set (d := d_raw) in *.
  set (c := d * x1 * x2 * y1 * y2) in *.
  assert (B1 : x1 * y1 * (i * x2 + y2) == 0).
  { apply (d_nonsquare (i * x1 + c * y1)). apply eqp_sub_0.
    replace ((i * x1 + c * y1) * (i * x1 + c * y1)
             - d_raw * (x1 * y1 * (i * x2 + y2) * (x1 * y1 * (i * x2 + y2))))
      with ((i * i + 1) * (x1 * x1 - d * x1 * x1 * y1 * y1 * x2 * x2)
            - d * x1 * x1 * y1 * y1
              * (y2 * y2 - x2 * x2 - (1 + d * (x2 * x2) * (y2 * y2)))
            + (y1 * y1 - x1 * x1 - (1 + d * (x1 * x1) * (y1 * y1)))
            + (c * c - 1) * (y1 * y1 - 1))
      by (subst c d; ring).
    rewrite HI, H1, H2, Hc. eqp_ring. }
  assert (B2 : x1 * y1 * (i * x2 - y2) == 0).
  { apply (d_nonsquare (i * x1 - c * y1)). apply eqp_sub_0.
    replace ((i * x1 - c * y1) * (i * x1 - c * y1)
             - d_raw * (x1 * y1 * (i * x2 - y2) * (x1 * y1 * (i * x2 - y2))))
      with ((i * i + 1) * (x1 * x1 - d * x1 * x1 * y1 * y1 * x2 * x2)
            - d * x1 * x1 * y1 * y1
              * (y2 * y2 - x2 * x2 - (1 + d * (x2 * x2) * (y2 * y2)))
            + (y1 * y1 - x1 * x1 - (1 + d * (x1 * x1) * (y1 * y1)))
            + (c * c - 1) * (y1 * y1 - 1))
      by (subst c d; ring).
    rewrite HI, H1, H2, Hc. eqp_ring. }
  assert (H4 : 4 == 0).
  { replace 4 with (4 * (c * c) - 4 * (c * c - 1)) by ring.
    replace (4 * (c * c))
      with ((d * x2 * (x1 * y1 * (i * x2 + y2) - x1 * y1 * (i * x2 - y2)))
            * (d * x2 * (x1 * y1 * (i * x2 + y2) - x1 * y1 * (i * x2 - y2))))
      by (subst c; ring).
    rewrite B1, B2, Hc. eqp_ring. }
  revert H4. apply eqp_const_neq. reflexivity.
Qed.

Lemma add_denominators x1 y1 x2 y2 :
  on_curve x1 y1 -> on_curve x2 y2 ->
  ~ 1 + cterm x1 y1 x2 y2 == 0 /\ ~ 1 - cterm x1 y1 x2 y2 == 0.
Proof.
  intros H1 H2. pose proof (add_complete x1 y1 x2 y2 H1 H2) as Hc.
  set (c := cterm x1 y1 x2 y2) in *.
  split; intros E; apply Hc; apply eqp_sub_0.
  - replace (c * c - 1) with ((1 + c) * (c - 1)) by ring. rewrite E. eqp_ring.
  - replace (c * c - 1) with ((1 - c) * (- c - 1)) by ring. rewrite E. eqp_ring.
Qed.

Lemma add_val_range x1 y1 x2 y2 :
  let r := add_val x1 y1 x2 y2 in
  0 <= fst r < p_order /\ 0 <= snd r < p_order.
Proof.
  unfold add_val. cbv zeta. cbn [fst snd].
  split; apply Z.mod_pos_bound; exact p_order_pos.
Qed.

(** The coordinates that [Add] computes, as field equations. *)
Lemma add_val_equations x1 y1 x2 y2 :
  on_curve x1 y1 -> on_curve x2 y2 ->
  let r := add_val x1 y1 x2 y2 in
  fst r * (1 + cterm x1 y1 x2 y2) == x1 * y2 + x2 * y1 /\
  snd r * (1 - cterm x1 y1 x2 y2) == y1 * y2 + x1 * x2.
Proof.
  intros H1 H2. destruct (add_denominators x1 y1 x2 y2 H1 H2) as [Dp Dm].
  unfold add_val. cbv zeta. cbn [fst snd]. split; strip_mod.
  - replace (1 + x1 * x2 * (y1 * y2) * d_raw) with (1 + cterm x1 y1 x2 y2)
      by (unfold cterm; ring).
    pose proof (inv0_mul _ Dp) as Hi.
    set (w := inv0 (1 + cterm x1 y1 x2 y2)) in *.
    replace ((x1 * y2 + x2 * y1) * w * (1 + cterm x1 y1 x2 y2))
      with ((x1 * y2 + x2 * y1) * (w * (1 + cterm x1 y1 x2 y2))) by ring.
    rewrite Hi. eqp_ring.
  - replace (1 - x1 * x2 * (y1 * y2) * d_raw) with (1 - cterm x1 y1 x2 y2)
      by (unfold cterm; ring).
    pose proof (inv0_mul _ Dm) as Hi.
    set (w := inv0 (1 - cterm x1 y1 x2 y2)) in *.
    replace ((y1 * y2 + x1 * x2) * w * (1 - cterm x1 y1 x2 y2))
      with ((y1 * y2 + x1 * x2) * (w * (1 - cterm x1 y1 x2 y2))) by ring.
    rewrite Hi. eqp_ring.
Qed.

(** ** Polynomial identities of the addition law *)

(** The curve equation of a sum, with the denominators cleared, as a
    combination of the curve equations of the two summands. *)
Lemma closure_identity (d x1 y1 x2 y2 : Z) :
  let c := d * x1 * x2 * y1 * y2 in
  let X := x1 * y2 + x2 * y1 in
  let Y := y1 * y2 + x1 * x2 in
  Y * Y * ((1 + c) * (1 + c)) - X * X * ((1 - c) * (1 - c))
  - (1 + c) * (1 + c) * ((1 - c) * (1 - c)) - d * (X * X) * (Y * Y)
  = (
    d*d*d*x1*x1*y1*y1*x2^4*y2^4 - d*d*x1*x1*x2^4*y2^4 + d*d*y1*y1*x2^4*y2^4 -
    d*d*x2^4*y2^4 - d*x1*x1*x2^4*y2*y2 + d*x1*x1*x2*x2*y2^4 +
    d*y1*y1*x2^4*y2*y2 - d*y1*y1*x2*x2*y2^4 - 2*d*x2^4*y2^4 - 2*d*x2*x2*y2*y2
    - 2*x2^4*y2*y2 + x2^4 + 2*x2*x2*y2^4 - 4*x2*x2*y2*y2 + y2^4)
    * (y1 * y1 - x1 * x1 - (1 + d * (x1 * x1) * (y1 * y1)))
  + (
    d*x1^4*x2*x2*y2*y2 + 2*d*x1*x1*x2*x2*y2*y2 + d*y1^4*x2*x2*y2*y2 -
    2*d*y1*y1*x2*x2*y2*y2 + d*x2*x2*y2*y2 + 2*x1*x1*x2*x2*y2*y2 - x1*x1*x2*x2
    + x1*x1*y2*y2 - 2*y1*y1*x2*x2*y2*y2 + y1*y1*x2*x2 - y1*y1*y2*y2 +
    2*x2*x2*y2*y2 - x2*x2 + y2*y2 + 1)
    * (y2 * y2 - x2 * x2 - (1 + d * (x2 * x2) * (y2 * y2))).
Proof. cbv zeta. ring. Qed.

(** Associativity, x coordinate: the cross-multiplied difference of the two
    bracketings is a combination of the three curve equations. *)
Lemma assoc_x_identity (d x1 y1 x2 y2 x3 y3 : Z) :
  let c12 := d * x1 * x2 * y1 * y2 in
  let c23 := d * x2 * x3 * y2 * y3 in
  let X12 := x1 * y2 + x2 * y1 in
  let Y12 := y1 * y2 + x1 * x2 in
  let X23 := x2 * y3 + x3 * y2 in
  let Y23 := y2 * y3 + x2 * x3 in
  (X12 * y3 * (1 - c12) + x3 * Y12 * (1 + c12))
  * ((1 + c23) * (1 - c23) + d * x1 * y1 * X23 * Y23)
  - (x1 * Y23 * (1 + c23) + X23 * y1 * (1 - c23))
    * ((1 + c12) * (1 - c12) + d * X12 * Y12 * x3 * y3)
  = (
    -d*d*x1*x2^4*y2*y2*y2*x3*x3*y3 - d*d*x1*x2*x2*x2*y2^4*x3*y3*y3 +
    d*d*y1*x2^4*y2*y2*y2*x3*y3*y3 + d*d*y1*x2*x2*x2*y2^4*x3*x3*y3 -
    d*x1*x2^4*y2*x3*x3*y3 - d*x1*x2*x2*x2*y2*y2*x3*x3*x3 -
    d*x1*x2*x2*x2*y2*y2*x3 + d*x1*x2*x2*y2*y2*y2*y3*y3*y3 -
    d*x1*x2*x2*y2*y2*y2*y3 + d*x1*x2*y2^4*x3*y3*y3 + d*y1*x2^4*y2*x3*y3*y3 +
    d*y1*x2*x2*x2*y2*y2*y3*y3*y3 - d*y1*x2*x2*x2*y2*y2*y3 -
    d*y1*x2*x2*y2*y2*y2*x3*x3*x3 - d*y1*x2*x2*y2*y2*y2*x3 -
    d*y1*x2*y2^4*x3*x3*y3)
    * (y1 * y1 - x1 * x1 - (1 + d * (x1 * x1) * (y1 * y1)))
  + (
    d*d*x1*x1*y1*x2*x2*y2*x3*x3*x3*y3*y3 -
    d*d*x1*x1*y1*x2*y2*y2*x3*x3*y3*y3*y3 -
    d*d*x1*y1*y1*x2*x2*y2*x3*x3*y3*y3*y3 +
    d*d*x1*y1*y1*x2*y2*y2*x3*x3*x3*y3*y3 + d*x1*x1*x1*x2*x2*y2*x3*x3*y3 +
    d*x1*x1*x1*x2*y2*y2*x3*y3*y3 + d*x1*x1*x1*x2*x3*x3*x3*y3*y3 +
    d*x1*x1*x1*y2*x3*x3*y3*y3*y3 - d*x1*x1*y1*x2*x2*y2*x3*y3*y3 -
    d*x1*x1*y1*x2*y2*y2*x3*x3*y3 + d*x1*x1*y1*x2*x3*x3*y3*y3*y3 +
    d*x1*x1*y1*y2*x3*x3*x3*y3*y3 - d*x1*y1*y1*x2*x2*y2*x3*x3*y3 -
    d*x1*y1*y1*x2*y2*y2*x3*y3*y3 - d*x1*y1*y1*x2*x3*x3*x3*y3*y3 -
    d*x1*y1*y1*y2*x3*x3*y3*y3*y3 + d*x1*x2*x2*y2*x3*x3*y3 +
    d*x1*x2*y2*y2*x3*y3*y3 + d*x1*x2*x3*x3*x3*y3*y3 + d*x1*y2*x3*x3*y3*y3*y3 +
    d*y1*y1*y1*x2*x2*y2*x3*y3*y3 + d*y1*y1*y1*x2*y2*y2*x3*x3*y3 -
    d*y1*y1*y1*x2*x3*x3*y3*y3*y3 - d*y1*y1*y1*y2*x3*x3*x3*y3*y3 -
    d*y1*x2*x2*y2*x3*y3*y3 - d*y1*x2*y2*y2*x3*x3*y3 + d*y1*x2*x3*x3*y3*y3*y3 +
    d*y1*y2*x3*x3*x3*y3*y3 + x1*x1*x1*x2*x3*x3*x3 - x1*x1*x1*x2*x3*y3*y3 +
    x1*x1*x1*x2*x3 + x1*x1*x1*y2*x3*x3*y3 - x1*x1*x1*y2*y3*y3*y3 +
    x1*x1*x1*y2*y3 + x1*x1*y1*x2*x3*x3*y3 - x1*x1*y1*x2*y3*y3*y3 +
    x1*x1*y1*x2*y3 + x1*x1*y1*y2*x3*x3*x3 - x1*x1*y1*y2*x3*y3*y3 +
    x1*x1*y1*y2*x3 - x1*y1*y1*x2*x3*x3*x3 + x1*y1*y1*x2*x3*y3*y3 -
    x1*y1*y1*x2*x3 - x1*y1*y1*y2*x3*x3*y3 + x1*y1*y1*y2*y3*y3*y3 -
    x1*y1*y1*y2*y3 + x1*x2*x3*x3*x3 - x1*x2*x3*y3*y3 + x1*x2*x3 +
    x1*y2*x3*x3*y3 - x1*y2*y3*y3*y3 + x1*y2*y3 - y1*y1*y1*x2*x3*x3*y3 +
    y1*y1*y1*x2*y3*y3*y3 - y1*y1*y1*x2*y3 - y1*y1*y1*y2*x3*x3*x3 +
    y1*y1*y1*y2*x3*y3*y3 - y1*y1*y1*y2*x3 + y1*x2*x3*x3*y3 - y1*x2*y3*y3*y3 +
    y1*x2*y3 + y1*y2*x3*x3*x3 - y1*y2*x3*y3*y3 + y1*y2*x3)
    * (y2 * y2 - x2 * x2 - (1 + d * (x2 * x2) * (y2 * y2)))
  + (
    -d*x1*x1*y1*x2*x2*y2*x3 + d*x1*x1*y1*x2*y2*y2*y3 + d*x1*y1*y1*x2*x2*y2*y3
    - d*x1*y1*y1*x2*y2*y2*x3 - x1*x1*x1*x2*x2*x2*x3 - x1*x1*x1*x2*x2*y2*y3 +
    x1*x1*x1*x2*y2*y2*x3 - x1*x1*x1*x2*x3 + x1*x1*x1*y2*y2*y2*y3 -
    x1*x1*x1*y2*y3 - x1*x1*y1*x2*x2*x2*y3 - x1*x1*y1*x2*x2*y2*x3 +
    x1*x1*y1*x2*y2*y2*y3 - x1*x1*y1*x2*y3 + x1*x1*y1*y2*y2*y2*x3 -
    x1*x1*y1*y2*x3 + x1*y1*y1*x2*x2*x2*x3 + x1*y1*y1*x2*x2*y2*y3 -
    x1*y1*y1*x2*y2*y2*x3 + x1*y1*y1*x2*x3 - x1*y1*y1*y2*y2*y2*y3 +
    x1*y1*y1*y2*y3 - x1*x2*x2*x2*x3 - x1*x2*x2*y2*y3 + x1*x2*y2*y2*x3 -
    x1*x2*x3 + x1*y2*y2*y2*y3 - x1*y2*y3 + y1*y1*y1*x2*x2*x2*y3 +
    y1*y1*y1*x2*x2*y2*x3 - y1*y1*y1*x2*y2*y2*y3 + y1*y1*y1*x2*y3 -
    y1*y1*y1*y2*y2*y2*x3 + y1*y1*y1*y2*x3 - y1*x2*x2*x2*y3 - y1*x2*x2*y2*x3 +
    y1*x2*y2*y2*y3 - y1*x2*y3 + y1*y2*y2*y2*x3 - y1*y2*x3)
    * (y3 * y3 - x3 * x3 - (1 + d * (x3 * x3) * (y3 * y3))).
Proof. cbv zeta. ring. Qed.

(** Associativity, y coordinate: the cross-multiplied difference of the two
    bracketings is a combination of the three curve equations. *)
Lemma assoc_y_identity (d x1 y1 x2 y2 x3 y3 : Z) :
  let c12 := d * x1 * x2 * y1 * y2 in
  let c23 := d * x2 * x3 * y2 * y3 in
  let X12 := x1 * y2 + x2 * y1 in
  let Y12 := y1 * y2 + x1 * x2 in
  let X23 := x2 * y3 + x3 * y2 in
  let Y23 := y2 * y3 + x2 * x3 in
  (Y12 * y3 * (1 + c12) + X12 * x3 * (1 - c12))
  * ((1 + c23) * (1 - c23) - d * x1 * y1 * X23 * Y23)
  - (y1 * Y23 * (1 + c23) + x1 * X23 * (1 - c23))
    * ((1 + c12) * (1 - c12) - d * X12 * Y12 * x3 * y3)
  = (
    d*d*x1*x2^4*y2*y2*y2*x3*y3*y3 + d*d*x1*x2*x2*x2*y2^4*x3*x3*y3 -
    d*d*y1*x2^4*y2*y2*y2*x3*x3*y3 - d*d*y1*x2*x2*x2*y2^4*x3*y3*y3 +
    d*x1*x2^4*y2*x3*y3*y3 + d*x1*x2*x2*x2*y2*y2*y3*y3*y3 -
    d*x1*x2*x2*x2*y2*y2*y3 - d*x1*x2*x2*y2*y2*y2*x3*x3*x3 -
    d*x1*x2*x2*y2*y2*y2*x3 - d*x1*x2*y2^4*x3*x3*y3 - d*y1*x2^4*y2*x3*x3*y3 -
    d*y1*x2*x2*x2*y2*y2*x3*x3*x3 - d*y1*x2*x2*x2*y2*y2*x3 +
    d*y1*x2*x2*y2*y2*y2*y3*y3*y3 - d*y1*x2*x2*y2*y2*y2*y3 +
    d*y1*x2*y2^4*x3*y3*y3)
    * (y1 * y1 - x1 * x1 - (1 + d * (x1 * x1) * (y1 * y1)))
  + (
    d*d*x1*x1*y1*x2*x2*y2*x3*x3*y3*y3*y3 -
    d*d*x1*x1*y1*x2*y2*y2*x3*x3*x3*y3*y3 -
    d*d*x1*y1*y1*x2*x2*y2*x3*x3*x3*y3*y3 +
    d*d*x1*y1*y1*x2*y2*y2*x3*x3*y3*y3*y3 - d*x1*x1*x1*x2*x2*y2*x3*y3*y3 -
    d*x1*x1*x1*x2*y2*y2*x3*x3*y3 + d*x1*x1*x1*x2*x3*x3*y3*y3*y3 +
    d*x1*x1*x1*y2*x3*x3*x3*y3*y3 + d*x1*x1*y1*x2*x2*y2*x3*x3*y3 +
    d*x1*x1*y1*x2*y2*y2*x3*y3*y3 + d*x1*x1*y1*x2*x3*x3*x3*y3*y3 +
    d*x1*x1*y1*y2*x3*x3*y3*y3*y3 + d*x1*y1*y1*x2*x2*y2*x3*y3*y3 +
    d*x1*y1*y1*x2*y2*y2*x3*x3*y3 - d*x1*y1*y1*x2*x3*x3*y3*y3*y3 -
    d*x1*y1*y1*y2*x3*x3*x3*y3*y3 - d*x1*x2*x2*y2*x3*y3*y3 -
    d*x1*x2*y2*y2*x3*x3*y3 + d*x1*x2*x3*x3*y3*y3*y3 + d*x1*y2*x3*x3*x3*y3*y3 -
    d*y1*y1*y1*x2*x2*y2*x3*x3*y3 - d*y1*y1*y1*x2*y2*y2*x3*y3*y3 -
    d*y1*y1*y1*x2*x3*x3*x3*y3*y3 - d*y1*y1*y1*y2*x3*x3*y3*y3*y3 +
    d*y1*x2*x2*y2*x3*x3*y3 + d*y1*x2*y2*y2*x3*y3*y3 + d*y1*x2*x3*x3*x3*y3*y3 +
    d*y1*y2*x3*x3*y3*y3*y3 + x1*x1*x1*x2*x3*x3*y3 - x1*x1*x1*x2*y3*y3*y3 +
    x1*x1*x1*x2*y3 + x1*x1*x1*y2*x3*x3*x3 - x1*x1*x1*y2*x3*y3*y3 +
    x1*x1*x1*y2*x3 + x1*x1*y1*x2*x3*x3*x3 - x1*x1*y1*x2*x3*y3*y3 +
    x1*x1*y1*x2*x3 + x1*x1*y1*y2*x3*x3*y3 - x1*x1*y1*y2*y3*y3*y3 +
    x1*x1*y1*y2*y3 - x1*y1*y1*x2*x3*x3*y3 + x1*y1*y1*x2*y3*y3*y3 -
    x1*y1*y1*x2*y3 - x1*y1*y1*y2*x3*x3*x3 + x1*y1*y1*y2*x3*y3*y3 -
    x1*y1*y1*y2*x3 + x1*x2*x3*x3*y3 - x1*x2*y3*y3*y3 + x1*x2*y3 +
    x1*y2*x3*x3*x3 - x1*y2*x3*y3*y3 + x1*y2*x3 - y1*y1*y1*x2*x3*x3*x3 +
    y1*y1*y1*x2*x3*y3*y3 - y1*y1*y1*x2*x3 - y1*y1*y1*y2*x3*x3*y3 +
    y1*y1*y1*y2*y3*y3*y3 - y1*y1*y1*y2*y3 + y1*x2*x3*x3*x3 - y1*x2*x3*y3*y3 +
    y1*x2*x3 + y1*y2*x3*x3*y3 - y1*y2*y3*y3*y3 + y1*y2*y3)
    * (y2 * y2 - x2 * x2 - (1 + d * (x2 * x2) * (y2 * y2)))
  + (
    -d*x1*x1*y1*x2*x2*y2*y3 + d*x1*x1*y1*x2*y2*y2*x3 + d*x1*y1*y1*x2*x2*y2*x3
    - d*x1*y1*y1*x2*y2*y2*y3 - x1*x1*x1*x2*x2*x2*y3 - x1*x1*x1*x2*x2*y2*x3 +
    x1*x1*x1*x2*y2*y2*y3 - x1*x1*x1*x2*y3 + x1*x1*x1*y2*y2*y2*x3 -
    x1*x1*x1*y2*x3 - x1*x1*y1*x2*x2*x2*x3 - x1*x1*y1*x2*x2*y2*y3 +
    x1*x1*y1*x2*y2*y2*x3 - x1*x1*y1*x2*x3 + x1*x1*y1*y2*y2*y2*y3 -
    x1*x1*y1*y2*y3 + x1*y1*y1*x2*x2*x2*y3 + x1*y1*y1*x2*x2*y2*x3 -
    x1*y1*y1*x2*y2*y2*y3 + x1*y1*y1*x2*y3 - x1*y1*y1*y2*y2*y2*x3 +
    x1*y1*y1*y2*x3 - x1*x2*x2*x2*y3 - x1*x2*x2*y2*x3 + x1*x2*y2*y2*y3 -
    x1*x2*y3 + x1*y2*y2*y2*x3 - x1*y2*x3 + y1*y1*y1*x2*x2*x2*x3 +
    y1*y1*y1*x2*x2*y2*y3 - y1*y1*y1*x2*y2*y2*x3 + y1*y1*y1*x2*x3 -
    y1*y1*y1*y2*y2*y2*y3 + y1*y1*y1*y2*y3 - y1*x2*x2*x2*x3 - y1*x2*x2*y2*y3 +
    y1*x2*y2*y2*x3 - y1*x2*x3 + y1*y2*y2*y2*y3 - y1*y2*y3)
    * (y3 * y3 - x3 * x3 - (1 + d * (x3 * x3) * (y3 * y3))).
Proof. cbv zeta. ring. Qed.

(** ** The group law on the curve *)

Lemma eqp_nonzero_mul a b : ~ a == 0 -> ~ b == 0 -> ~ a * b == 0.
Proof. intros Ha Hb H. destruct (eqp_mul_0 a b H); contradiction. Qed.

(** The sum of two points of the curve is on the curve. *)
Lemma add_val_on_curve x1 y1 x2 y2 :
  on_curve x1 y1 -> on_curve x2 y2 ->
  on_curve (fst (add_val x1 y1 x2 y2)) (snd (add_val x1 y1 x2 y2)).
Proof.
  intros H1 H2.
  destruct (add_denominators x1 y1 x2 y2 H1 H2) as [Dp Dm].
  destruct (add_val_equations x1 y1 x2 y2 H1 H2) as [Ex Ey]. cbv zeta in Ex, Ey.
  set (x3 := fst (add_val x1 y1 x2 y2)) in *.
  set (y3 := snd (add_val x1 y1 x2 y2)) in *.
  pose proof (closure_identity d_raw x1 y1 x2 y2) as HT. cbv zeta in HT.
  unfold on_curve in H1, H2. apply eqp_0_sub in H1, H2.
  unfold cterm in *. set (c := d_raw * x1 * x2 * y1 * y2) in *.
  set (X := x1 * y2 + x2 * y1) in *. set (Y := y1 * y2 + x1 * x2) in *.
  unfold on_curve. apply eqp_sub_0.
  apply (eqp_mul_cancel_l ((1 + c) * (1 + c) * ((1 - c) * (1 - c)))).
  { repeat apply eqp_nonzero_mul; assumption. }
  replace ((1 + c) * (1 + c) * ((1 - c) * (1 - c))
           * (y3 * y3 - x3 * x3 - (1 + d_raw * (x3 * x3) * (y3 * y3))))
    with ((y3 * (1 - c)) * (y3 * (1 - c)) * ((1 + c) * (1 + c))
          - (x3 * (1 + c)) * (x3 * (1 + c)) * ((1 - c) * (1 - c))
          - (1 + c) * (1 + c) * ((1 - c) * (1 - c))
          - d_raw * ((x3 * (1 + c)) * (x3 * (1 + c)))
            * ((y3 * (1 - c)) * (y3 * (1 - c)))) by ring.
  rewrite Ex, Ey, HT, H1, H2. eqp_ring.
Qed.

(** [add_val] depends on its arguments only modulo [p]. *)
Lemma add_val_congr x1 y1 x2 y2 x1' y1' x2' y2' :
  x1 == x1' -> y1 == y1' -> x2 == x2' -> y2 == y2' ->
  add_val x1 y1 x2 y2 = add_val x1' y1' x2' y2'.
Proof.
  intros Hx1 Hy1 Hx2 Hy2. unfold add_val. cbv zeta.
  f_equal.
  - match goal with |- ?a mod p_order = ?b mod p_order => change (a == b) end.
    strip_mod. rewrite Hx1, Hy1, Hx2, Hy2. reflexivity.
  - match goal with |- ?a mod p_order = ?b mod p_order => change (a == b) end.
    strip_mod. rewrite Hx1, Hy1, Hx2, Hy2. reflexivity.
Qed.

Lemma inv0_one : inv0 1 = 1.
Proof. vm_compute. reflexivity. Qed.

(** [(0, 1)] is a neutral element. *)
Lemma add_val_identity_r xv yv :
  add_val xv yv 0 1 = (xv mod p_order, yv mod p_order).
Proof.
  unfold add_val. cbv zeta. f_equal.
  - match goal with |- ?a mod p_order = ?b mod p_order => change (a == b) end.
    strip_mod.
    replace (1 + xv * 0 * (yv * 1) * d_raw) with 1 by ring.
    rewrite inv0_one. eqp_ring.
  - match goal with |- ?a mod p_order = ?b mod p_order => change (a == b) end.
    strip_mod.
    replace (1 - xv * 0 * (yv * 1) * d_raw) with 1 by ring.
    rewrite inv0_one. eqp_ring.
Qed.

Lemma add_val_identity_l xv yv :
  add_val 0 1 xv yv = (xv mod p_order, yv mod p_order).
Proof.
  remember 0 as zero eqn:E0. remember 1 as one eqn:E1.
  unfold add_val. cbv zeta. f_equal.
  - match goal with |- ?a mod p_order = ?b mod p_order => change (a == b) end.
    strip_mod. subst zero one.
    replace (1 + 0 * xv * (1 * yv) * d_raw) with 1 by ring.
    rewrite inv0_one. eqp_ring.
  - match goal with |- ?a mod p_order = ?b mod p_order => change (a == b) end.
    strip_mod. subst zero one.
    replace (1 - 0 * xv * (1 * yv) * d_raw) with 1 by ring.
    rewrite inv0_one. eqp_ring.
Qed.

Section Associativity.

Variables x1 y1 x2 y2 x3 y3 : Z.
Variables x12 y12 x23 y23 : Z.

Let c12 := d_raw * x1 * x2 * y1 * y2.
Let c23 := d_raw * x2 * x3 * y2 * y3.
Let X12 := x1 * y2 + x2 * y1.
Let Y12 := y1 * y2 + x1 * x2.
Let X23 := x2 * y3 + x3 * y2.
Let Y23 := y2 * y3 + x2 * x3.
Let cL := d_raw * x12 * x3 * y12 * y3.
Let cR := d_raw * x1 * x23 * y1 * y23.

Hypothesis H1 : y1 * y1 - x1 * x1 - (1 + d_raw * (x1 * x1) * (y1 * y1)) == 0.
Hypothesis H2 : y2 * y2 - x2 * x2 - (1 + d_raw * (x2 * x2) * (y2 * y2)) == 0.
Hypothesis H3 : y3 * y3 - x3 * x3 - (1 + d_raw * (x3 * x3) * (y3 * y3)) == 0.
Hypothesis E12x : x12 * (1 + c12) == X12.
Hypothesis E12y : y12 * (1 - c12) == Y12.
Hypothesis E23x : x23 * (1 + c23) == X23.
Hypothesis E23y : y23 * (1 - c23) == Y23.

(** The x coordinates of [(P1 + P2) + P3] and [P1 + (P2 + P3)], each
    multiplied by all the denominators. *)
Lemma assoc_x_core xL xR :
  xL * (1 + cL) == x12 * y3 + x3 * y12 ->
  xR * (1 + cR) == x1 * y23 + x23 * y1 ->
  (1 + cL) * (1 + cR) * ((1 + c12) * (1 - c12) * ((1 + c23) * (1 - c23))) * xL
  == (1 + cL) * (1 + cR) * ((1 + c12) * (1 - c12) * ((1 + c23) * (1 - c23))) * xR.
Proof.
  intros EL ER.
  pose proof (assoc_x_identity d_raw x1 y1 x2 y2 x3 y3) as HA. cbv zeta in HA.
  fold c12 c23 X12 Y12 X23 Y23 in HA.
  transitivity
    ((X12 * y3 * (1 - c12) + x3 * Y12 * (1 + c12))
     * ((1 + c23) * (1 - c23) + d_raw * x1 * y1 * X23 * Y23)).
  { replace ((1 + cL) * (1 + cR)
             * ((1 + c12) * (1 - c12) * ((1 + c23) * (1 - c23))) * xL)
      with (xL * (1 + cL)
            * ((1 + cR) * ((1 + c23) * (1 - c23))) * ((1 + c12) * (1 - c12)))
      by ring.
    rewrite EL.
    replace ((x12 * y3 + x3 * y12)
             * ((1 + cR) * ((1 + c23) * (1 - c23))) * ((1 + c12) * (1 - c12)))
      with ((x12 * (1 + c12) * y3 * (1 - c12)
             + x3 * (y12 * (1 - c12)) * (1 + c12))
            * ((1 + c23) * (1 - c23)
               + d_raw * x1 * y1 * (x23 * (1 + c23)) * (y23 * (1 - c23))))
      by (unfold cR; ring).
    rewrite E12x, E12y, E23x, E23y. reflexivity. }
  transitivity
    ((x1 * Y23 * (1 + c23) + X23 * y1 * (1 - c23))
     * ((1 + c12) * (1 - c12) + d_raw * X12 * Y12 * x3 * y3)).
  { apply eqp_sub_0. rewrite HA, H1, H2, H3. eqp_ring. }
  replace ((1 + cL) * (1 + cR)
           * ((1 + c12) * (1 - c12) * ((1 + c23) * (1 - c23))) * xR)
    with (xR * (1 + cR)
          * ((1 + cL) * ((1 + c12) * (1 - c12))) * ((1 + c23) * (1 - c23)))
    by ring.
  rewrite ER.
  replace ((x1 * y23 + x23 * y1)
           * ((1 + cL) * ((1 + c12) * (1 - c12))) * ((1 + c23) * (1 - c23)))
    with ((x1 * (y23 * (1 - c23)) * (1 + c23)
           + x23 * (1 + c23) * y1 * (1 - c23))
          * ((1 + c12) * (1 - c12)
             + d_raw * (x12 * (1 + c12)) * (y12 * (1 - c12)) * x3 * y3))
    by (unfold cL; ring).
  rewrite E12x, E12y, E23x, E23y. reflexivity.
Qed.

Lemma assoc_y_core yL yR :
  yL * (1 - cL) == y12 * y3 + x12 * x3 ->
  yR * (1 - cR) == y1 * y23 + x1 * x23 ->
  (1 - cL) * (1 - cR) * ((1 + c12) * (1 - c12) * ((1 + c23) * (1 - c23))) * yL
  == (1 - cL) * (1 - cR) * ((1 + c12) * (1 - c12) * ((1 + c23) * (1 - c23))) * yR.
Proof.
  intros EL ER.
  pose proof (assoc_y_identity d_raw x1 y1 x2 y2 x3 y3) as HA. cbv zeta in HA.
  fold c12 c23 X12 Y12 X23 Y23 in HA.
  transitivity
    ((Y12 * y3 * (1 + c12) + X12 * x3 * (1 - c12))
     * ((1 + c23) * (1 - c23) - d_raw * x1 * y1 * X23 * Y23)).
  { replace ((1 - cL) * (1 - cR)
             * ((1 + c12) * (1 - c12) * ((1 + c23) * (1 - c23))) * yL)
      with (yL * (1 - cL)
            * ((1 - cR) * ((1 + c23) * (1 - c23))) * ((1 + c12) * (1 - c12)))
      by ring.
    rewrite EL.
    replace ((y12 * y3 + x12 * x3)
             * ((1 - cR) * ((1 + c23) * (1 - c23))) * ((1 + c12) * (1 - c12)))
      with ((y12 * (1 - c12) * y3 * (1 + c12)
             + x12 * (1 + c12) * x3 * (1 - c12))
            * ((1 + c23) * (1 - c23)
               - d_raw * x1 * y1 * (x23 * (1 + c23)) * (y23 * (1 - c23))))
      by (unfold cR; ring).
    rewrite E12x, E12y, E23x, E23y. reflexivity. }
  transitivity
    ((y1 * Y23 * (1 + c23) + x1 * X23 * (1 - c23))
     * ((1 + c12) * (1 - c12) - d_raw * X12 * Y12 * x3 * y3)).
  { apply eqp_sub_0. rewrite HA, H1, H2, H3. eqp_ring. }
  replace ((1 - cL) * (1 - cR)
           * ((1 + c12) * (1 - c12) * ((1 + c23) * (1 - c23))) * yR)
    with (yR * (1 - cR)
          * ((1 - cL) * ((1 + c12) * (1 - c12))) * ((1 + c23) * (1 - c23)))
    by ring.
  rewrite ER.
  replace ((y1 * y23 + x1 * x23)
           * ((1 - cL) * ((1 + c12) * (1 - c12))) * ((1 + c23) * (1 - c23)))
    with ((y1 * (y23 * (1 - c23)) * (1 + c23)
           + x1 * (x23 * (1 + c23)) * (1 - c23))
          * ((1 + c12) * (1 - c12)
             - d_raw * (x12 * (1 + c12)) * (y12 * (1 - c12)) * x3 * y3))
    by (unfold cL; ring).
  rewrite E12x, E12y, E23x, E23y. reflexivity.
Qed.

End Associativity.

(** The addition law is associative on the curve. *)
Theorem add_val_assoc x1 y1 x2 y2 x3 y3 :
  on_curve x1 y1 -> on_curve x2 y2 -> on_curve x3 y3 ->
  add_val (fst (add_val x1 y1 x2 y2)) (snd (add_val x1 y1 x2 y2)) x3 y3
  = add_val x1 y1 (fst (add_val x2 y2 x3 y3)) (snd (add_val x2 y2 x3 y3)).
Proof.
  intros C1 C2 C3.
  pose proof (add_val_on_curve x1 y1 x2 y2 C1 C2) as C12.
  pose proof (add_val_on_curve x2 y2 x3 y3 C2 C3) as C23.
  destruct (add_val_equations x1 y1 x2 y2 C1 C2) as [E12x E12y].
  destruct (add_val_equations x2 y2 x3 y3 C2 C3) as [E23x E23y].
  destruct (add_denominators x1 y1 x2 y2 C1 C2) as [D12p D12m].
  destruct (add_denominators x2 y2 x3 y3 C2 C3) as [D23p D23m].
  cbv zeta in E12x, E12y, E23x, E23y.
  set (x12 := fst (add_val x1 y1 x2 y2)) in *.
  set (y12 := snd (add_val x1 y1 x2 y2)) in *.
  set (x23 := fst (add_val x2 y2 x3 y3)) in *.
  set (y23 := snd (add_val x2 y2 x3 y3)) in *.
  destruct (add_val_equations x12 y12 x3 y3 C12 C3) as [ELx ELy].
  destruct (add_val_equations x1 y1 x23 y23 C1 C23) as [ERx ERy].
  destruct (add_denominators x12 y12 x3 y3 C12 C3) as [DLp DLm].
  destruct (add_denominators x1 y1 x23 y23 C1 C23) as [DRp DRm].
  destruct (add_val_range x12 y12 x3 y3) as [RLx RLy].
  destruct (add_val_range x1 y1 x23 y23) as [RRx RRy].
  cbv zeta in ELx, ELy, ERx, ERy, RLx, RLy, RRx, RRy.
  unfold on_curve in C1, C2, C3. apply eqp_0_sub in C1, C2, C3.
  unfold cterm in *.
  rewrite (surjective_pairing (add_val x12 y12 x3 y3)).
  rewrite (surjective_pairing (add_val x1 y1 x23 y23)).
  f_equal; apply eqp_small; try assumption.
  - eapply eqp_mul_cancel_l;
      [ | exact (assoc_x_core x1 y1 x2 y2 x3 y3 x12 y12 x23 y23
                   C1 C2 C3 E12x E12y E23x E23y _ _ ELx ERx)].
    repeat apply eqp_nonzero_mul; assumption.
  - eapply eqp_mul_cancel_l;
      [ | exact (assoc_y_core x1 y1 x2 y2 x3 y3 x12 y12 x23 y23
                   C1 C2 C3 E12x E12y E23x E23y _ _ ELy ERy)].
    repeat apply eqp_nonzero_mul; assumption.
Qed.

(** ** Scalar multiplication *)

Lemma repeated_add_val k xv yv :
  repeated_add k (mkPt xv yv)
  = mkPt (fst (rep_val k xv yv)) (snd (rep_val k xv yv)).
Proof.
  induction k as [ | k IH]; cbn [repeated_add rep_val].
  - reflexivity.
  - cbv zeta. rewrite IH, Point_Add_val, Jubjub_Add_val. reflexivity.
Qed.

Lemma rep_val_range k xv yv :
  0 <= fst (rep_val k xv yv) < p_order /\ 0 <= snd (rep_val k xv yv) < p_order.
Proof.
  destruct k as [ | k]; cbn [rep_val].
  - cbn [fst snd]. pose proof p_order_pos.
    assert (1 < p_order) by reflexivity. lia.
  - apply add_val_range.
Qed.

Lemma rep_val_on_curve k xv yv :
  on_curve xv yv -> on_curve (fst (rep_val k xv yv)) (snd (rep_val k xv yv)).
Proof.
  intros H. induction k as [ | k IH]; cbn [rep_val].
  - exact on_curve_identity.
  - apply add_val_on_curve; assumption.
Qed.

(** Multiples add up: [[a]P + [b]P = [a + b]P]. *)
Lemma rep_val_add a b xv yv :
  on_curve xv yv ->
  add_val (fst (rep_val a xv yv)) (snd (rep_val a xv yv))
          (fst (rep_val b xv yv)) (snd (rep_val b xv yv))
  = rep_val (a + b) xv yv.
Proof.
  intros H. induction b as [ | b IH].
  - cbn [rep_val fst snd]. rewrite add_val_identity_r, Nat.add_0_r.
    destruct (rep_val_range a xv yv) as [Rx Ry].
    rewrite !Z.mod_small by assumption. symmetry. apply surjective_pairing.
  - cbn [rep_val]. rewrite <- add_val_assoc.
    + rewrite IH. replace (a + S b)%nat with (S (a + b)) by lia. reflexivity.
    + apply rep_val_on_curve. assumption.
    + apply rep_val_on_curve. assumption.
    + assumption.
Qed.

(** The ladder on coordinate values. *)
Lemma ScalarMult_loop_val steps n : forall a0 b0 a1 b1,
  exists a0' b0' a1' b1',
    ScalarMult_loop steps n (mkPt a0 b0) (mkPt a1 b1)
    = (mkPt a0' b0', mkPt a1' b1').
Proof.
  induction steps as [ | i IH]; intros a0 b0 a1 b1; cbn [ScalarMult_loop].
  - eauto.
  - destruct (Big.Bit n (Z.of_nat i) =? 0); cbv zeta;
      rewrite !Point_Add_val, !Point_Double_val, !Jubjub_Add_val; apply IH.
Qed.

Lemma shiftr_step n (i : nat) :
  0 <= n ->
  Z.shiftr n (Z.of_nat i)
  = 2 * Z.shiftr n (Z.of_nat (S i)) + Big.Bit n (Z.of_nat i).
Proof.
  intros Hn. unfold Big.Bit. rewrite Z.testbit_odd.
  rewrite Nat2Z.inj_succ, <- Z.add_1_r, <- Z.shiftr_shiftr by lia.
  set (a := Z.shiftr n (Z.of_nat i)). rewrite <- Z.div2_spec.
  rewrite (Z.div2_odd a) at 1. destruct (Z.odd a); reflexivity.
Qed.

(** The invariant of the ladder: with [m] the bits of the scalar already
    consumed, [r0 = [m]P] and [r1 = [m + 1]P]. *)
Lemma ScalarMult_loop_invariant xv yv n :
  on_curve xv yv -> 0 <= n ->
  forall steps a0 b0 a1 b1,
    let m := Z.to_nat (Z.shiftr n (Z.of_nat steps)) in
    (a0, b0) = rep_val m xv yv ->
    a1 == fst (rep_val (S m) xv yv) -> b1 == snd (rep_val (S m) xv yv) ->
    fst (ScalarMult_loop steps n (mkPt a0 b0) (mkPt a1 b1))
    = mkPt (fst (rep_val (Z.to_nat n) xv yv)) (snd (rep_val (Z.to_nat n) xv yv)).
Proof.
  intros Hon Hn. induction steps as [ | i IH]; intros a0 b0 a1 b1 m H0 Hx1 Hy1.
  - subst m. cbn [ScalarMult_loop fst]. change (Z.of_nat 0) with 0 in *.
    rewrite Z.shiftr_0_r in H0. rewrite <- H0. reflexivity.
  - cbn [ScalarMult_loop].
    pose proof (shiftr_step n i Hn) as Hstep.
    pose proof (Z.shiftr_nonneg n (Z.of_nat (S i))) as Hs. 
    assert (Hm0 : 0 <= Z.shiftr n (Z.of_nat (S i))) by (apply Hs; assumption).
    fold m in Hx1, Hy1, H0.
    assert (HP0 : a0 = fst (rep_val m xv yv) /\ b0 = snd (rep_val m xv yv)).
    { rewrite <- H0. split; reflexivity. }
    destruct HP0 as [-> ->].
    assert (Hdouble : forall k, add_val (fst (rep_val k xv yv)) (snd (rep_val k xv yv))
                                 (fst (rep_val k xv yv)) (snd (rep_val k xv yv))
                           = rep_val (k + k) xv yv)
      by (intros k; apply rep_val_add; assumption).
    assert (Hnext : add_val (fst (rep_val m xv yv)) (snd (rep_val m xv yv)) a1 b1
                    = rep_val (m + S m) xv yv).
    { rewrite <- rep_val_add by assumption.
      apply add_val_congr; try reflexivity; assumption. }
    assert (Hdouble1 : add_val a1 b1 a1 b1 = rep_val (S m + S m) xv yv).
    { rewrite <- rep_val_add by assumption.
      apply add_val_congr; assumption. }
    unfold Big.Bit in *.
    destruct (Z.testbit n (Z.of_nat i)) eqn:Hbit; cbn [Z.eqb]; cbv zeta;
      rewrite !Point_Add_val, !Point_Double_val, !Jubjub_Add_val;
      cbv zeta; cbn [mkPt mkFp pt_x pt_y fe_n].
    + (* bit 1: r0 <- r0 + r1; r1 <- 2 r1 *)
      rewrite Hnext, Hdouble1.
      assert (Em : Z.to_nat (Z.shiftr n (Z.of_nat i)) = (m + S m)%nat)
        by (subst m; lia).
      apply IH; cbv zeta; rewrite Em.
      * symmetry. apply surjective_pairing.
      * replace (S (m + S m)) with (S m + S m)%nat by lia. reflexivity.
      * replace (S (m + S m)) with (S m + S m)%nat by lia. reflexivity.
    + (* bit 0: r1 <- r0 + r1; r0 <- 2 r0 *)
      rewrite Hnext, Hdouble.
      assert (Em : Z.to_nat (Z.shiftr n (Z.of_nat i)) = (m + m)%nat)
        by (subst m; lia).
      apply IH; cbv zeta; rewrite Em.
      * symmetry. apply surjective_pairing.
      * replace (S (m + m)) with (m + S m)%nat by lia. reflexivity.
      * replace (S (m + m)) with (m + S m)%nat by lia. reflexivity.
Qed.

Lemma shiftr_BitLen n : 0 <= n -> Z.shiftr n (Z.of_nat (Z.to_nat (Big.BitLen n))) = 0.
Proof.
  intros Hn. unfold Big.BitLen. destruct (Z.eqb_spec n 0) as [-> | Hnz].
  - reflexivity.
  - rewrite Z.abs_eq by assumption. pose proof (Z.log2_nonneg n).
    rewrite Z2Nat.id by lia. apply Z.shiftr_eq_0; lia.
Qed.

(** [ScalarMult] on a point of the curve returns the [k]-fold sum. *)
Theorem ScalarMult_repeated_add (k order xv yv : Z) :
  0 <= k -> Point_IsOnCurve (mkPt xv yv) = true ->
  Jubjub_ScalarMult Curve (mkScalar k order) (mkPt xv yv)
  = (Some (repeated_add (Z.to_nat k) (mkPt xv yv)), None).
Proof.
  intros Hk Hon. unfold Jubjub_ScalarMult. rewrite Hon. cbn [negb sc_n].
  rewrite Point_IsOnCurve_val in Hon. apply on_curve_val_spec in Hon.
  rewrite Identity_val, Point_Clone_val.
  pose proof (ScalarMult_loop_invariant xv yv k Hon Hk
                (Z.to_nat (Big.BitLen k)) 0 1 xv yv) as Hinv.
  cbv zeta in Hinv. rewrite shiftr_BitLen in Hinv by assumption.
  change (Z.to_nat 0) with 0%nat in Hinv.
  specialize (Hinv eq_refl).
  cbn [rep_val] in Hinv. rewrite add_val_identity_l in Hinv. cbn [fst snd] in Hinv.
  assert (Hx : xv == xv mod p_order) by (symmetry; apply eqp_mod).
  assert (Hy : yv == yv mod p_order) by (symmetry; apply eqp_mod).
  specialize (Hinv Hx Hy).
  destruct (ScalarMult_loop (Z.to_nat (Big.BitLen k)) k (mkPt 0 1) (mkPt xv yv))
    as [r0 r1].
  cbn [fst] in Hinv. rewrite Hinv, repeated_add_val. reflexivity.
Qed.

(** ** The square root modulo the field order *)

Lemma eqp_square_one z : z * z == 1 -> z == 1 \/ z == -1.
Proof.
  intros H. assert (H' : (z - 1) * (z + 1) == 0).
  { replace ((z - 1) * (z + 1)) with (z * z - 1) by ring. rewrite H. eqp_ring. }
  destruct (eqp_mul_0 _ _ H') as [E | E]; [left | right]; apply eqp_sub_0.
  - exact E.
  - replace (z - -1) with (z + 1) by ring. exact E.
Qed.

Lemma eqp_pow_zero z k : 0 <= k -> z ^ k == 0 -> z == 0.
Proof.
  intros Hk. pattern k. apply natlike_ind; [ | | assumption].
  - rewrite Z.pow_0_r. intros H. exfalso. exact (eqp_1_0 H).
  - intros j Hj IH H. rewrite Z.pow_succ_r in H by assumption.
    destruct (eqp_mul_0 _ _ H); auto.
Qed.

Lemma pow2_succ z k : 0 <= k -> z ^ (2 ^ (k + 1)) = z ^ (2 ^ k) * z ^ (2 ^ k).
Proof.
  intros Hk. rewrite Z.pow_add_r, Z.pow_1_r by lia.
  rewrite <- Z.pow_add_r by (apply Z.pow_nonneg; lia). f_equal. lia.
Qed.

Lemma pow2_sq z k : 0 <= k -> (z * z) ^ (2 ^ k) = z ^ (2 ^ (k + 1)).
Proof.
  intros Hk. rewrite pow2_succ by assumption. apply Z.pow_mul_l.
Qed.

(** The inner loop finds the least [m] with [t^(2^m) = 1], among the
    exponents below the bound. *)
Lemma order_exponent_spec fuel : forall t m0,
  0 <= t < p_order ->
  let m := Big.order_exponent fuel t p_order m0 in
  m0 <= m <= m0 + Z.of_nat fuel /\
  (forall k, 0 <= k < m - m0 -> ~ t ^ (2 ^ k) == 1) /\
  (m < m0 + Z.of_nat fuel -> t ^ (2 ^ (m - m0)) == 1).
Proof.
  induction fuel as [ | f IH]; intros t m0 Ht; cbn [Big.order_exponent]; cbv zeta.
  - split; [lia | ]. split; [intros; lia | intros; lia].
  - destruct (Z.eqb_spec t 1) as [-> | Hne].
    + split; [lia | ]. split; [intros; lia | ].
      intros _. rewrite Z.sub_diag. reflexivity.
    + pose proof (Z.mod_pos_bound (t * t) p_order p_order_pos) as Ht'.
      specialize (IH ((t * t) mod p_order) (m0 + 1) Ht'). cbv zeta in IH.
      set (m := Big.order_exponent f ((t * t) mod p_order) p_order (m0 + 1)) in *.
      destruct IH as (Hr & Hleast & Hfound).
      split; [lia | ]. split.
      * intros k Hk. destruct (Z.eq_dec k 0) as [-> | Hk0].
        -- rewrite Z.pow_0_r, Z.pow_1_r. intros E. apply Hne.
           apply eqp_small; [assumption | | assumption].
           assert (1 < p_order) by reflexivity. lia.
        -- intros E. apply (Hleast (k - 1)); [lia | ].
           rewrite (eqp_pow _ _ _ (eqp_mod (t * t))).
           rewrite pow2_sq by lia. replace (k - 1 + 1) with k by lia. exact E.
      * intros Hlt.
        assert (Hlt' : m < m0 + 1 + Z.of_nat f) by lia.
        specialize (Hfound Hlt').
        rewrite (eqp_pow _ _ _ (eqp_mod (t * t))) in Hfound.
        rewrite pow2_sq in Hfound by lia.
        replace (m - (m0 + 1) + 1) with (m - m0) in Hfound by lia. exact Hfound.
Qed.

(** The outer loop keeps [y^2 = x*b], [g^(2^(r-1)) = -1] and
    [b^(2^(r-1)) = 1], and stops with [b = 1]. *)
Lemma tonelli_shanks_loop_spec x fuel : forall y b g r,
  1 <= r <= Z.of_nat fuel ->
  0 <= b < p_order ->
  y * y == x * b ->
  g ^ (2 ^ (r - 1)) == -1 ->
  b ^ (2 ^ (r - 1)) == 1 ->
  let z := Big.tonelli_shanks_loop fuel p_order y b g r in
  z * z == x.
Proof.
  induction fuel as [ | k IH]; intros y b g r Hr Hb Hy Hg Hb1; [lia | ].
  cbn [Big.tonelli_shanks_loop]. cbv zeta.
  pose proof (order_exponent_spec (Z.to_nat r) b 0 Hb) as Hm. cbv zeta in Hm.
  set (m := Big.order_exponent (Z.to_nat r) b p_order 0) in *.
  rewrite Z2Nat.id in Hm by lia. destruct Hm as (Hm & Hleast & Hfound).
  assert (Hmr : m < r).
  { destruct (Z_lt_le_dec m r) as [ | Hge]; [assumption | exfalso].
    apply (Hleast (r - 1)); [lia | assumption]. }
  specialize (Hfound ltac:(lia)). rewrite Z.sub_0_r in Hfound.
  destruct (Z.eqb_spec m 0) as [E0 | Hm0].
  - rewrite E0, Z.pow_0_r, Z.pow_1_r in Hfound. rewrite Hy, Hfound. eqp_ring.
  - assert (Hminus : b ^ (2 ^ (m - 1)) == -1).
    { destruct (eqp_square_one (b ^ (2 ^ (m - 1)))) as [E | E].
      - rewrite <- pow2_succ by lia. replace (m - 1 + 1) with m by lia. exact Hfound.
      - exfalso. apply (Hleast (m - 1)); [lia | exact E].
      - exact E. }
    rewrite powmod_spec by (apply Z.pow_nonneg; lia).
    set (t := g ^ (2 ^ (r - m - 1)) mod p_order).
    assert (Ht : t * t == g ^ (2 ^ (r - m))).
    { subst t. rewrite (eqp_mod (g ^ (2 ^ (r - m - 1)))).
      rewrite <- pow2_succ by lia. replace (r - m - 1 + 1) with (r - m) by lia.
      reflexivity. }
    apply IH.
    + lia.
    + apply Z.mod_pos_bound. exact p_order_pos.
    + strip_mod.
      replace (y * t * (y * t)) with (y * y * (t * t)) by ring.
      rewrite Hy. eqp_ring.
    + rewrite (eqp_pow _ _ _ (eqp_mod (t * t))), (eqp_pow _ _ _ Ht).
      rewrite <- Z.pow_mul_r by (apply Z.pow_nonneg; lia).
      rewrite <- Z.pow_add_r by lia. replace (r - m + (m - 1)) with (r - 1) by lia.
      exact Hg.
    + rewrite (eqp_pow _ _ _ (eqp_mod _)).
      rewrite Z.pow_mul_l, (eqp_pow _ _ _ (eqp_mod (t * t))), (eqp_pow _ _ _ Ht).
      rewrite Hminus.
      rewrite <- Z.pow_mul_r by (apply Z.pow_nonneg; lia).
      rewrite <- Z.pow_add_r by lia. replace (r - m + (m - 1)) with (r - 1) by lia.
      rewrite Hg. reflexivity.
Qed.

Lemma half_order_nonneg : 0 <= (p_order - 1) / 2.
Proof. vm_compute. discriminate. Qed.

Lemma half_order_double : 2 * ((p_order - 1) / 2) = p_order - 1.
Proof. reflexivity. Qed.

(** Euler's criterion, the direction used: a non-zero square has
    [x^((p-1)/2) = 1]. *)
Lemma euler_square r x :
  r * r == x -> ~ r == 0 -> x ^ ((p_order - 1) / 2) == 1.
Proof.
  intros H Hr. rewrite <- (eqp_pow _ _ _ H).
  rewrite <- Z.pow_2_r, <- Z.pow_mul_r by (pose proof half_order_nonneg; lia).
  rewrite half_order_double. apply eqp_fermat. assumption.
Qed.

(** The symbol of a square that is not 0 is 1. *)
Lemma Jacobi_of_square x r :
  r * r == x -> ~ r == 0 -> Big.Jacobi x p_order = 1.
Proof.
  intros H Hr. unfold Big.Jacobi. cbv zeta.
  rewrite powmod_spec by exact half_order_nonneg.
  pose proof (euler_square r x H Hr) as He. unfold eqp in He. rewrite He.
  reflexivity.
Qed.

Lemma five_power : Big.powmod 5 ((p_order - 1) / 2) p_order = p_order - 1.
Proof. vm_compute. reflexivity. Qed.

Lemma find_nonresidue_skip fuel n :
  Big.Jacobi n p_order = 1 ->
  Big.find_nonresidue (S fuel) n p_order
  = Big.find_nonresidue fuel (n + 1) p_order.
Proof. intros H. cbn [Big.find_nonresidue]. rewrite H. reflexivity. Qed.

(** 2, 3 and 4 are squares modulo [p], 5 is not: the search of
    Tonelli-Shanks stops at 5. *)
Lemma nonresidue_search : Big.find_nonresidue 256 2 p_order = 5.
Proof.
  change 256%nat with (S (S (S (S 252)))).
  rewrite (find_nonresidue_skip _ 2).
  2:{ apply (Jacobi_of_square 2
        14989411347484419663140498193005880785086916883037474254598401919095177670476).
      - unfold eqp. vm_compute. reflexivity.
      - apply eqp_const_neq. reflexivity. }
  change (2 + 1) with 3. rewrite (find_nonresidue_skip _ 3).
  2:{ apply (Jacobi_of_square 3
        3465144826073652318776269530687742778239987716319478677504).
      - unfold eqp. vm_compute. reflexivity.
      - apply eqp_const_neq. reflexivity. }
  change (3 + 1) with 4. rewrite (find_nonresidue_skip _ 4).
  2:{ apply (Jacobi_of_square 4 2).
      - reflexivity.
      - apply eqp_const_neq. reflexivity. }
  change (4 + 1) with 5. cbn [Big.find_nonresidue].
  unfold Big.Jacobi. cbv zeta. rewrite five_power. reflexivity.
Qed.

(** The constants of Tonelli-Shanks at the field order: [p - 1 = 2^32 * s]
    with [s] odd, and 5 is the first non-residue. *)
Lemma tonelli_shanks_constants :
  Big.trailingZeroBits (p_order - 1) = 32 /\
  Big.find_nonresidue 256 2 p_order = 5 /\
  Big.powmod 5 ((p_order - 1) / 2) p_order = p_order - 1 /\
  (let s := Z.shiftr (p_order - 1) 32 in
   0 <= s /\ 2 * Z.shiftr (s + 1) 1 = s + 1 /\ 0 <= Z.shiftr (s + 1) 1 /\
   s * 2 ^ 31 = (p_order - 1) / 2).
Proof.
  split; [vm_compute; reflexivity | ].
  split; [exact nonresidue_search | ].
  split; [exact five_power | ].
  vm_compute. repeat split; try reflexivity; discriminate.
Qed.

Lemma five_nonresidue : 5 ^ ((p_order - 1) / 2) == -1.
Proof.
  pose proof five_power as H5.
  rewrite powmod_spec in H5 by (vm_compute; discriminate).
  unfold eqp. rewrite H5. vm_compute. reflexivity.
Qed.

Lemma modSqrtTonelliShanks_eq x p e s n :
  Big.trailingZeroBits (p - 1) = e -> Z.shiftr (p - 1) e = s ->
  Big.find_nonresidue 256 2 p = n ->
  Big.modSqrtTonelliShanks x p
  = Big.tonelli_shanks_loop (S (Z.to_nat e)) p
      (Big.powmod x (Z.shiftr (s + 1) 1) p) (Big.powmod x s p)
      (Big.powmod n s p) e.
Proof. intros <- <- <-. reflexivity. Qed.

Lemma tonelli_shanks_start x s k1 :
  0 <= s -> 0 <= k1 -> 2 * k1 = s + 1 -> s * 2 ^ 31 = (p_order - 1) / 2 ->
  x ^ ((p_order - 1) / 2) == 1 ->
  let z := Big.tonelli_shanks_loop 33 p_order
             (Big.powmod x k1 p_order) (Big.powmod x s p_order)
             (Big.powmod 5 s p_order) 32 in
  z * z == x.
Proof.
  intros Hs0 Hk0 Hhalf Hs31 Hx.
  rewrite !powmod_spec by assumption.
  apply tonelli_shanks_loop_spec.
  - lia.
  - apply Z.mod_pos_bound. exact p_order_pos.
  - strip_mod. rewrite <- Z.pow_add_r by assumption.
    replace (k1 + k1) with (s + 1) by lia.
    rewrite Z.pow_add_r, Z.pow_1_r by lia. eqp_ring.
  - change (32 - 1) with 31. rewrite (eqp_pow _ _ _ (eqp_mod _)).
    rewrite <- Z.pow_mul_r, Hs31 by lia. exact five_nonresidue.
  - change (32 - 1) with 31. rewrite (eqp_pow _ _ _ (eqp_mod _)).
    rewrite <- Z.pow_mul_r, Hs31 by lia. exact Hx.
Qed.

Lemma modSqrtTonelliShanks_spec x :
  x ^ ((p_order - 1) / 2) == 1 ->
  Big.modSqrtTonelliShanks x p_order * Big.modSqrtTonelliShanks x p_order == x.
Proof.
  intros Hx. destruct tonelli_shanks_constants as (He & Hn & _ & Hs).
  rewrite (modSqrtTonelliShanks_eq x p_order 32 _ 5 He eq_refl Hn).
  destruct Hs as (Hs0 & Hhalf & Hhalf0 & Hs31).
  exact (tonelli_shanks_start x _ _ Hs0 Hhalf0 Hhalf Hs31 Hx).
Qed.

Lemma ModSqrt_eq x p :
  (p mod 4 =? 3) = false -> (p mod 8 =? 5) = false ->
  Big.ModSqrt x p
  = if Big.powmod x ((p - 1) / 2) p =? 0 then Some 0
    else if Big.powmod x ((p - 1) / 2) p =? 1
    then Some (Big.modSqrtTonelliShanks
                 (if (x <? 0) || (p <=? x) then x mod p else x) p)
    else None.
Proof.
  intros H4 H8. unfold Big.ModSqrt, Big.Jacobi. cbv zeta. rewrite H4, H8.
  destruct (Big.powmod x ((p - 1) / 2) p =? 0); [reflexivity | ].
  destruct (Big.powmod x ((p - 1) / 2) p =? 1); reflexivity.
Qed.

Lemma ModSqrt_p x :
  Big.ModSqrt x p_order
  = if x ^ ((p_order - 1) / 2) mod p_order =? 0 then Some 0
    else if x ^ ((p_order - 1) / 2) mod p_order =? 1
    then Some (Big.modSqrtTonelliShanks
                 (if (x <? 0) || (p_order <=? x) then x mod p_order else x)
                 p_order)
    else None.
Proof.
  rewrite ModSqrt_eq by reflexivity.
  rewrite powmod_spec by (vm_compute; discriminate). reflexivity.
Qed.

(** [ModSqrt] returns a square root when it returns a value. *)
Theorem ModSqrt_Some x r :
  Big.ModSqrt x p_order = Some r -> r * r == x.
Proof.
  rewrite ModSqrt_p.
  pose proof (Z.mod_pos_bound (x ^ ((p_order - 1) / 2)) p_order p_order_pos) as Hw.
  set (w := x ^ ((p_order - 1) / 2) mod p_order) in *.
  destruct (Z.eqb_spec w 0) as [E0 | Hw0].
  - intros [= <-].
    assert (Hx : x == 0).
    { apply (eqp_pow_zero x ((p_order - 1) / 2) half_order_nonneg).
      apply eqp_0_mod. exact E0. }
    rewrite Hx. reflexivity.
  - destruct (Z.eqb_spec w 1) as [E1 | Hw1]; [ | discriminate].
    intros [= <-].
    assert (Hx1 : x ^ ((p_order - 1) / 2) == 1).
    { unfold eqp. fold w. rewrite E1. reflexivity. }
    destruct ((x <? 0) || (p_order <=? x)).
    + rewrite <- (eqp_mod x) at 3.
      apply modSqrtTonelliShanks_spec.
      rewrite (eqp_pow _ _ _ (eqp_mod x)). exact Hx1.
    + apply modSqrtTonelliShanks_spec. exact Hx1.
Qed.

(** [ModSqrt] returns nil only when there is no square root. *)
Theorem ModSqrt_None x :
  Big.ModSqrt x p_order = None -> forall r, ~ r * r == x.
Proof.
  rewrite ModSqrt_p.
  pose proof (Z.mod_pos_bound (x ^ ((p_order - 1) / 2)) p_order p_order_pos) as Hw.
  set (w := x ^ ((p_order - 1) / 2) mod p_order) in *.
  destruct (Z.eqb_spec w 0) as [E0 | Hw0]; [discriminate | ].
  destruct (Z.eqb_spec w 1) as [E1 | Hw1]; [discriminate | ].
  intros _ r Hr.
  destruct (Z.eq_dec (r mod p_order) 0) as [Er | Er].
  - apply Hw0. subst w. apply eqp_0_mod.
    assert (Hr0 : r == 0) by (apply eqp_0_mod; exact Er).
    assert (Hx0 : x == 0) by (rewrite <- Hr, Hr0; eqp_ring).
    rewrite (eqp_pow _ _ _ Hx0).
    rewrite Z.pow_0_l by (vm_compute; reflexivity). reflexivity.
  - apply Hw1.
    assert (Hr0 : ~ r == 0) by (intros E; apply Er, eqp_0_mod, E).
    pose proof (euler_square r x Hr Hr0) as He. unfold eqp in He.
    fold w in He. rewrite He. reflexivity.
Qed.

(** ** The curve equation is kept by every operation *)

Lemma IsOnCurve_on_curve xv yv :
  Point_IsOnCurve (mkPt xv yv) = true <-> on_curve xv yv.
Proof. rewrite Point_IsOnCurve_val. apply on_curve_val_spec. Qed.

Lemma IsOnCurve_false xv yv :
  Point_IsOnCurve (mkPt xv yv) = false <-> ~ on_curve xv yv.
Proof.
  rewrite <- IsOnCurve_on_curve.
  destruct (Point_IsOnCurve (mkPt xv yv)); split; intros H; congruence.
Qed.

Lemma Jubjub_Add_mkPt x1 y1 x2 y2 :
  Jubjub_Add Curve (mkPt x1 y1) (mkPt x2 y2)
  = mkPt (fst (add_val x1 y1 x2 y2)) (snd (add_val x1 y1 x2 y2)).
Proof. rewrite Jubjub_Add_val. reflexivity. Qed.

Lemma Jubjub_Add_on_curve x1 y1 x2 y2 :
  Point_IsOnCurve (mkPt x1 y1) = true -> Point_IsOnCurve (mkPt x2 y2) = true ->
  Point_IsOnCurve (Jubjub_Add Curve (mkPt x1 y1) (mkPt x2 y2)) = true.
Proof.
  rewrite Jubjub_Add_mkPt, !IsOnCurve_on_curve. apply add_val_on_curve.
Qed.

Lemma Point_Neg_on_curve a b xv yv :
  Point_IsOnCurve (mkPt xv yv) = true ->
  Point_IsOnCurve (Point_Neg (mkPt a b) (mkPt xv yv)) = true.
Proof.
  rewrite Point_Neg_val, !IsOnCurve_on_curve. apply on_curve_neg.
Qed.

(** Both accumulators of the ladder stay on the curve, whatever the bits
    of the scalar. *)
Lemma ScalarMult_loop_on_curve steps n : forall a0 b0 a1 b1,
  on_curve a0 b0 -> on_curve a1 b1 ->
  exists a b,
    fst (ScalarMult_loop steps n (mkPt a0 b0) (mkPt a1 b1)) = mkPt a b /\
    on_curve a b.
Proof.
  induction steps as [ | i IH]; intros a0 b0 a1 b1 H0 H1; cbn [ScalarMult_loop].
  - exists a0, b0. split; [reflexivity | assumption].
  - destruct (Big.Bit n (Z.of_nat i) =? 0); cbv zeta;
      rewrite !Point_Add_val, !Point_Double_val, !Jubjub_Add_mkPt;
      apply IH; apply add_val_on_curve; assumption.
Qed.

Lemma ScalarMult_on_curve (s : Scalar) xv yv :
  Point_IsOnCurve (mkPt xv yv) = true ->
  exists a b,
    Jubjub_ScalarMult Curve s (mkPt xv yv) = (Some (mkPt a b), None) /\
    Point_IsOnCurve (mkPt a b) = true.
Proof.
  intros Hon. unfold Jubjub_ScalarMult. rewrite Hon. cbn [negb].
  rewrite Identity_val, Point_Clone_val.
  apply IsOnCurve_on_curve in Hon.
  destruct (ScalarMult_loop_on_curve (Z.to_nat (Big.BitLen (sc_n s))) (sc_n s)
              0 1 xv yv on_curve_identity Hon) as (a & b & E & Hab).
  destruct (ScalarMult_loop (Z.to_nat (Big.BitLen (sc_n s))) (sc_n s)
              (mkPt 0 1) (mkPt xv yv)) as [r0 r1].
  cbn [fst] in E. subst r0. exists a, b.
  split; [reflexivity | apply IsOnCurve_on_curve; assumption].
Qed.

Lemma ScalarMult_off_curve (curve : Jubjub) (s : Scalar) (P : Point) :
  Jubjub_ScalarMult curve s P = (None, Some ErrInvalidPoint)
  <-> Point_IsOnCurve P = false.
Proof.
  unfold Jubjub_ScalarMult. destruct (Point_IsOnCurve P); cbn [negb].
  - destruct (ScalarMult_loop _ _ _ _). split; discriminate.
  - split; reflexivity.
Qed.

Lemma MulByCofactor_on_curve xv yv :
  Point_IsOnCurve (mkPt xv yv) = true ->
  exists a b,
    Point_MulByCofactor (mkPt xv yv) = Some (mkPt a b) /\
    Point_IsOnCurve (mkPt a b) = true.
Proof.
  intros Hon. unfold Point_MulByCofactor.
  change (pt_curve (mkPt xv yv)) with Curve.
  destruct (ScalarMult_on_curve (jj_cofactor Curve) xv yv Hon) as (a & b & E & Hab).
  rewrite E. cbn [fst]. exists a, b. split; [reflexivity | assumption].
Qed.

Lemma Decompress_on_curve (c : list byte) (P : Point) :
  Jubjub_Decompress Curve c = (Some P, None) -> Point_IsOnCurve P = true.
Proof.
  intros H. destruct (Decompress_success c P H) as (_ & r & _ & Hr).
  cbv zeta in Hr. destruct Hr as [Hon ->].
  rewrite Point_IsOnCurve_val. exact Hon.
Qed.

(** ** The failures of decompression *)

(** The denominator [d*y^2 + 1] never vanishes: [d] is not a square. *)
Lemma decompress_denominator yv : ~ d_raw * (yv * yv) + 1 == 0.
Proof.
  intros H.
  assert (Hsq : sqrt_m1 * sqrt_m1 == d_raw * (yv * yv)).
  { apply eqp_sub_0.
    replace (sqrt_m1 * sqrt_m1 - d_raw * (yv * yv))
      with ((sqrt_m1 * sqrt_m1 + 1) - (d_raw * (yv * yv) + 1)) by ring.
    rewrite sqrt_m1_square, H. reflexivity. }
  pose proof (d_nonsquare _ _ Hsq) as Hy.
  apply eqp_1_0. rewrite <- H, Hy. eqp_ring.
Qed.

(** [decompress_u y] is the quotient [(y^2 - 1) / (d*y^2 + 1)]. *)
Lemma decompress_u_spec yv :
  decompress_u yv * (d_raw * (yv * yv) + 1) == yv * yv - 1.
Proof.
  unfold decompress_u. cbv zeta. strip_mod.
  replace (d_raw * (yv * yv) + 1) with (yv * yv * d_raw + 1) by ring.
  set (v := yv * yv * d_raw + 1).
  replace ((yv * yv - 1) * inv0 v * v) with ((yv * yv - 1) * (inv0 v * v)) by ring.
  rewrite inv0_mul.
  - eqp_ring.
  - subst v. replace (yv * yv * d_raw + 1) with (d_raw * (yv * yv) + 1) by ring.
    apply decompress_denominator.
Qed.

Lemma decompress_u_root yv r :
  r * r == decompress_u yv <-> r * r * (d_raw * (yv * yv) + 1) == yv * yv - 1.
Proof.
  split; intros H.
  - rewrite H. apply decompress_u_spec.
  - apply (eqp_mul_cancel_l (d_raw * (yv * yv) + 1)).
    + apply decompress_denominator.
    + set (D := d_raw * (yv * yv) + 1) in *.
      replace (D * (r * r)) with (r * r * D) by ring. rewrite H.
      replace (D * decompress_u yv) with (decompress_u yv * D) by ring.
      symmetry. apply decompress_u_spec.
Qed.

Lemma ModSqrt_None_iff x :
  Big.ModSqrt x p_order = None <-> forall r, ~ r * r == x.
Proof.
  split.
  - apply ModSqrt_None.
  - intros H. destruct (Big.ModSqrt x p_order) as [r | ] eqn:E; [ | reflexivity].
    exfalso. exact (H r (ModSqrt_Some x r E)).
Qed.

(** A square root of [u] always gives a point of the curve: the last check
    of [UnmarshalBinary] cannot fail. *)
Lemma decompress_root_on_curve yv r :
  r * r == decompress_u yv -> on_curve r yv.
Proof.
  intros H. apply decompress_u_root in H. unfold on_curve.
  apply eqp_sub_0.
  replace (yv * yv - r * r - (1 + d_raw * (r * r) * (yv * yv)))
    with ((yv * yv - 1) - r * r * (d_raw * (yv * yv) + 1)) by ring.
  rewrite H. eqp_ring.
Qed.

Lemma decompress_final_check (s yv r : Z) :
  Big.ModSqrt (decompress_u yv) p_order = Some r ->
  on_curve_val (if negb (s =? r mod 2) then (- r) mod p_order else r) yv = true.
Proof.
  intros H. apply on_curve_val_spec.
  pose proof (decompress_root_on_curve yv r (ModSqrt_Some _ _ H)) as Hon.
  destruct (negb (s =? r mod 2)); [apply on_curve_neg | ]; assumption.
Qed.

Lemma decompress_val_None (s yv : Z) :
  decompress_val s yv = None <-> Big.ModSqrt (decompress_u yv) p_order = None.
Proof.
  unfold decompress_val.
  destruct (Big.ModSqrt (decompress_u yv) p_order) as [r | ] eqn:E.
  - rewrite (decompress_final_check s yv r E). cbn [negb]. split; discriminate.
  - split; reflexivity.
Qed.

(** [Decompress] returns either a point and no error, or no point and
    [ErrInvalidPoint]. *)
Lemma Decompress_cases (c : list byte) :
  Jubjub_Decompress Curve c = (None, Some ErrInvalidPoint) \/
  exists P, Jubjub_Decompress Curve c = (Some P, None).
Proof.
  destruct (Nat.eq_dec (length c) 32) as [Hlen | Hlen].
  - rewrite Decompress_val by assumption.
    destruct (decompress_val (sign_bit c) (y_field c mod p_order)) as [[xv yv] | ].
    + right. eexists. reflexivity.
    + left. reflexivity.
  - left. apply Decompress_length. assumption.
Qed.

Lemma Decompress_fails_iff (c : list byte) :
  Jubjub_Decompress Curve c = (None, Some ErrInvalidPoint) <->
  length c <> 32%nat \/
  Big.ModSqrt (decompress_u (y_field c mod p_order)) p_order = None.
Proof.
  destruct (Nat.eq_dec (length c) 32) as [Hlen | Hlen].
  - rewrite Decompress_val by assumption.
    rewrite <- (decompress_val_None (sign_bit c)).
    destruct (decompress_val (sign_bit c) (y_field c mod p_order)) as [[xv yv] | ].
    + split; [discriminate | intros [H | H]; [contradiction | discriminate]].
    + split; [right | ]; reflexivity.
  - rewrite Decompress_length by assumption. split; [left; assumption | reflexivity].
Qed.

(** ** Decompression of the encoding of a known point *)

(** The two square roots of [x^2] in [[0, p)] are [x] and [p - x]. *)
Lemma eqp_square_roots r xv :
  0 <= r < p_order -> 0 <= xv < p_order -> r * r == xv * xv ->
  r = xv \/ (xv <> 0 /\ r = p_order - xv).
Proof.
  intros Hr Hx H.
  assert (H' : (r - xv) * (r + xv) == 0).
  { replace ((r - xv) * (r + xv)) with (r * r - xv * xv) by ring.
    apply eqp_0_sub. exact H. }
  destruct (eqp_mul_0 _ _ H') as [E | E].
  - left. apply eqp_small; [assumption | assumption | ].
    apply eqp_sub_0. exact E.
  - destruct (Z.eq_dec xv 0) as [-> | Hnz].
    + left. apply eqp_small; [assumption | assumption | ].
      rewrite Z.add_0_r in E. exact E.
    + right. split; [assumption | ].
      apply eqp_small; [assumption | lia | ].
      apply eqp_sub_0. replace (r - (p_order - xv)) with (r + xv - p_order) by ring.
      rewrite E. unfold eqp. replace (0 - p_order) with (-1 * p_order) by ring.
      rewrite Z.mod_mul by (pose proof p_order_pos; lia). reflexivity.
Qed.

Lemma parity_of_complement xv :
  0 < xv < p_order -> (xv mod 2 =? (p_order - xv) mod 2) = false.
Proof.
  intros Hx. apply Z.eqb_neq. intros E.
  assert (Hp : p_order mod 2 = 1) by reflexivity.
  pose proof (Z.div_mod p_order 2 ltac:(lia)) as D1.
  pose proof (Z.div_mod xv 2 ltac:(lia)) as D2.
  pose proof (Z.div_mod (p_order - xv) 2 ltac:(lia)) as D3.
  pose proof (Z.mod_pos_bound xv 2 ltac:(lia)).
  lia.
Qed.

(** On the coordinates of a point of the curve, the steps of
    [UnmarshalBinary] after the decoding of [y] recover [x] from its
    parity. *)
Lemma decompress_val_on_curve xv yv :
  0 <= xv < p_order -> on_curve xv yv ->
  decompress_val (xv mod 2) yv = Some (xv, yv).
Proof.
  intros Hx Hon.
  assert (Hroot : xv * xv == decompress_u yv).
  { apply decompress_u_root. unfold on_curve in Hon. apply eqp_sub_0.
    replace (xv * xv * (d_raw * (yv * yv) + 1) - (yv * yv - 1))
      with ((1 + d_raw * (xv * xv) * (yv * yv)) - (yv * yv - xv * xv)) by ring.
    rewrite Hon. eqp_ring. }
  unfold decompress_val.
  destruct (Big.ModSqrt (decompress_u yv) p_order) as [r | ] eqn:Hsqrt.
  - pose proof (ModSqrt_range _ _ Hsqrt) as Hr.
    pose proof (ModSqrt_Some _ _ Hsqrt) as Hrr.
    assert (Hsq : r * r == xv * xv) by (rewrite Hrr, Hroot; reflexivity).
    assert (Hval : on_curve_val xv yv = true) by (apply on_curve_val_spec, Hon).
    destruct (eqp_square_roots r xv Hr Hx Hsq) as [-> | [Hnz ->]].
    + rewrite Z.eqb_refl. cbn [negb]. rewrite Hval. reflexivity.
    + rewrite parity_of_complement by lia. cbn [negb].
      replace ((- (p_order - xv)) mod p_order) with xv.
      * rewrite Hval. reflexivity.
      * apply Z.mod_unique with (q := -1); lia.
  - exfalso. exact (ModSqrt_None _ Hsqrt xv Hroot).
Qed.

Lemma Decompress_of_point (c : list byte) (xv yv : Z) :
  length c = 32%nat ->
  sign_bit c = xv mod 2 -> y_field c mod p_order = yv ->
  0 <= xv < p_order -> on_curve_val xv yv = true ->
  Jubjub_Decompress Curve c = (Some (mkPt xv yv), None).
Proof.
  intros Hlen Hs Hy Hx Hon. rewrite Decompress_val by exact Hlen.
  rewrite Hs, Hy, decompress_val_on_curve; [reflexivity | exact Hx | ].
  apply on_curve_val_spec. exact Hon.
Qed.

Lemma test_vector_decompress :
  Jubjub_Decompress Curve test_vector = (Some test_point, None).
Proof.
  unfold test_point.
  apply (Decompress_of_point test_vector
    41050235188544478418366209524862836201380949263485756367215295374254530985114
    9704726760505102629595623322929810829485096538761553509148554541066026634459).
  - reflexivity.
  - vm_compute. reflexivity.
  - vm_compute. reflexivity.
  - split; [discriminate | reflexivity].
  - vm_compute. reflexivity.
Qed.

Lemma Generator_val : Jubjub_Generator Curve = Some (mkPt generator_x 11).
Proof.
  unfold Jubjub_Generator. rewrite Curve_generatorY.
  change (mkFE 11 p_order) with (mkFp 11). rewrite ToBytes_val.
  rewrite (Decompress_of_point (le_bytes 32 (11 mod p_order)) generator_x 11);
    [reflexivity | | | | | ].
  - reflexivity.
  - vm_compute. reflexivity.
  - vm_compute. reflexivity.
  - split; [discriminate | reflexivity].
  - vm_compute. reflexivity.
Qed.

Lemma Generator_on_curve : Point_IsOnCurve (mkPt generator_x 11) = true.
Proof. vm_compute. reflexivity. Qed.

Lemma SubgroupGenerator_on_curve :
  exists a b,
    Jubjub_SubgroupGenerator Curve = Some (mkPt a b) /\
    Point_IsOnCurve (mkPt a b) = true.
Proof.
  unfold Jubjub_SubgroupGenerator. rewrite Generator_val.
  apply MulByCofactor_on_curve. exact Generator_on_curve.
Qed.

(** ** The round trip of the test vector *)

Lemma C1_roundtrip_witness :
  Jubjub_Decompress Curve test_vector = (Some test_point, None) /\
  y_field test_vector < p_order /\
  (fe_n (pt_x test_point) = 0 -> sign_bit test_vector = 0) /\
  Point_MarshalBinary test_point = Some test_vector.
Proof.
  assert (H1 : Jubjub_Decompress Curve test_vector = (Some test_point, None))
    by exact test_vector_decompress.
  assert (H2 : y_field test_vector < p_order) by (vm_compute; reflexivity).
  assert (H3 : fe_n (pt_x test_point) = 0 -> sign_bit test_vector = 0)
    by (intros E; vm_compute in E; discriminate E).
  exact (conj H1 (conj H2 (conj H3
           (C1_roundtrip test_vector test_point H1 H2 H3)))).
Defined.

(** ** The ladder, the invariant of returned points, the failures *)

(** C2: for every scalar [k] with [0 <= k < n] and every point [P] that
    satisfies the curve equation, [ScalarMult(k, P)] --- the ladder on two
    accumulators, [r0] from the identity and [r1] from [P], over the bits
    from the most significant down, returning [r0] --- returns the point
    that [k] additions of [P] to the identity give. *)
Theorem C2_ScalarMult_double_and_add (k xv yv : Z) :
  0 <= k < q_order ->
  Point_IsOnCurve (mkPt xv yv) = true ->
  Jubjub_ScalarMult Curve (mkScalar k q_order) (mkPt xv yv)
  = (Some (repeated_add (Z.to_nat k) (mkPt xv yv)), None).
Proof.
  intros [Hk _] Hon. apply ScalarMult_repeated_add; assumption.
Qed.

Lemma C2_ScalarMult_double_and_add_witness :
  0 <= 5 < q_order /\
  Point_IsOnCurve (mkPt generator_x 11) = true /\
  Jubjub_ScalarMult Curve (mkScalar 5 q_order) (mkPt generator_x 11)
  = (Some (repeated_add (Z.to_nat 5) (mkPt generator_x 11)), None).
Proof.
  assert (H1 : 0 <= 5 < q_order) by (split; [discriminate | reflexivity]).
  assert (H2 : Point_IsOnCurve (mkPt generator_x 11) = true)
    by exact Generator_on_curve.
  exact (conj H1 (conj H2
           (C2_ScalarMult_double_and_add 5 generator_x 11 H1 H2))).
Defined.

(** C3: every operation that returns a point returns one that satisfies the
    curve equation [-x^2 + y^2 = 1 + d*x^2*y^2] modulo [p], or fails and
    returns none: [Identity], [Generator] and [SubgroupGenerator]; [Add],
    [Double] and [Neg] on points of the curve, allocating or in place on any
    receiver; [ScalarMult], which fails on a point off the curve;
    [MulByCofactor]; and every [Decompress] that succeeds. *)
Theorem C3_returned_points_on_curve :
  Point_IsOnCurve (Jubjub_Identity Curve) = true /\
  (exists g, Jubjub_Generator Curve = Some g /\ Point_IsOnCurve g = true) /\
  (exists g, Jubjub_SubgroupGenerator Curve = Some g /\
             Point_IsOnCurve g = true) /\
  (forall x1 y1 x2 y2 a b,
     Point_IsOnCurve (mkPt x1 y1) = true ->
     Point_IsOnCurve (mkPt x2 y2) = true ->
     Point_IsOnCurve (Jubjub_Add Curve (mkPt x1 y1) (mkPt x2 y2)) = true /\
     Point_IsOnCurve (Point_Add (mkPt a b) (mkPt x1 y1) (mkPt x2 y2)) = true) /\
  (forall x1 y1 a b,
     Point_IsOnCurve (mkPt x1 y1) = true ->
     Point_IsOnCurve (Jubjub_Double Curve (mkPt x1 y1)) = true /\
     Point_IsOnCurve (Point_Double (mkPt a b) (mkPt x1 y1)) = true /\
     Point_IsOnCurve (Point_Neg (mkPt a b) (mkPt x1 y1)) = true) /\
  (forall s xv yv,
     match Jubjub_ScalarMult Curve s (mkPt xv yv) with
     | (Some R, None) =>
         Point_IsOnCurve (mkPt xv yv) = true /\ Point_IsOnCurve R = true
     | (None, Some _) => Point_IsOnCurve (mkPt xv yv) = false
     | _ => False
     end) /\
  (forall xv yv,
     match Point_MulByCofactor (mkPt xv yv) with
     | Some R =>
         Point_IsOnCurve (mkPt xv yv) = true /\ Point_IsOnCurve R = true
     | None => Point_IsOnCurve (mkPt xv yv) = false
     end) /\
  (forall c,
     match Jubjub_Decompress Curve c with
     | (Some P, None) => Point_IsOnCurve P = true
     | (None, Some _) => True
     | _ => False
     end).
Proof.
  split; [vm_compute; reflexivity | ].
  split; [exists (mkPt generator_x 11);
          split; [exact Generator_val | exact Generator_on_curve] | ].
  split.
  { destruct SubgroupGenerator_on_curve as (a & b & E & H).
    exists (mkPt a b). split; assumption. }
  split.
  { intros x1 y1 x2 y2 a b H1 H2. rewrite Point_Add_val.
    split; apply Jubjub_Add_on_curve; assumption. }
  split.
  { intros x1 y1 a b H1. rewrite Jubjub_Double_val, Point_Double_val.
    split; [ | split].
    - apply Jubjub_Add_on_curve; assumption.
    - apply Jubjub_Add_on_curve; assumption.
    - apply Point_Neg_on_curve; assumption. }
  split.
  { intros s xv yv.
    destruct (Point_IsOnCurve (mkPt xv yv)) eqn:Hon.
    - destruct (ScalarMult_on_curve s xv yv Hon) as (a & b & E & H).
      rewrite E. split; [reflexivity | assumption].
    - apply (ScalarMult_off_curve Curve s) in Hon. rewrite Hon. reflexivity. }
  split.
  { intros xv yv.
    destruct (Point_IsOnCurve (mkPt xv yv)) eqn:Hon.
    - destruct (MulByCofactor_on_curve xv yv Hon) as (a & b & E & H).
      rewrite E. split; [reflexivity | assumption].
    - unfold Point_MulByCofactor.
      apply (ScalarMult_off_curve (pt_curve (mkPt xv yv))
               (jj_cofactor (pt_curve (mkPt xv yv)))) in Hon.
      rewrite Hon. reflexivity. }
  intros c. destruct (Decompress_cases c) as [E | [P E]].
  - rewrite E. exact I.
  - rewrite E. exact (Decompress_on_curve c P E).
Qed.

Lemma C3_returned_points_on_curve_witness :
  Point_IsOnCurve (mkPt generator_x 11) = true /\
  Point_IsOnCurve (mkPt 0 (p_order - 1)) = true /\
  Point_IsOnCurve
    (Jubjub_Add Curve (mkPt generator_x 11) (mkPt 0 (p_order - 1))) = true /\
  Point_IsOnCurve
    (Point_Add (mkPt generator_x 11) (mkPt generator_x 11)
               (mkPt 0 (p_order - 1))) = true.
Proof.
  assert (H1 : Point_IsOnCurve (mkPt generator_x 11) = true)
    by exact Generator_on_curve.
  assert (H2 : Point_IsOnCurve (mkPt 0 (p_order - 1)) = true)
    by (vm_compute; reflexivity).
  exact (conj H1 (conj H2
           (proj1 (proj2 (proj2 (proj2 C3_returned_points_on_curve)))
              generator_x 11 0 (p_order - 1) generator_x 11 H1 H2))).
Defined.

(** C4: [ErrInvalidPoint] is returned, with no point, exactly in these
    cases.  [Decompress] returns it when the input is not 32 bytes long, when
    [u = (y^2 - 1) / (d*y^2 + 1)] has no square root modulo [p], and when
    the last check of the curve equation fails, and in no other case, where
    it returns a point and no error.  [ScalarMult] returns it, with no
    result, when the point does not satisfy the curve equation, and only
    then. *)
Theorem C4_InvalidPoint_cases :
  (forall c : list byte,
     let yv := y_field c mod p_order in
     (Jubjub_Decompress Curve c = (None, Some ErrInvalidPoint) <->
        length c <> 32%nat \/
        (length c = 32%nat /\
         forall r, ~ eqp (r * r * (d_raw * (yv * yv) + 1)) (yv * yv - 1)) \/
        (length c = 32%nat /\
         exists r,
           Big.ModSqrt (decompress_u yv) p_order = Some r /\
           Point_IsOnCurve
             (mkPt (if negb (sign_bit c =? r mod 2)
                    then (- r) mod p_order else r) yv) = false)) /\
     (Jubjub_Decompress Curve c = (None, Some ErrInvalidPoint) \/
      exists P, Jubjub_Decompress Curve c = (Some P, None))) /\
  (forall (curve : Jubjub) (s : Scalar) (P : Point),
     (Jubjub_ScalarMult curve s P = (None, Some ErrInvalidPoint) <->
        Point_IsOnCurve P = false) /\
     (Point_IsOnCurve P = true ->
      exists R, Jubjub_ScalarMult curve s P = (Some R, None))).
Proof.
  split.
  - intros c yv. split; [ | apply Decompress_cases].
    rewrite Decompress_fails_iff, ModSqrt_None_iff. fold yv. split.
    + intros [Hlen | Hroot]; [left; assumption | ].
      destruct (Nat.eq_dec (length c) 32) as [E | E]; [ | left; assumption].
      right; left. split; [assumption | ].
      intros r Hr. apply (Hroot r), decompress_u_root, Hr.
    + intros [Hlen | [[_ Hroot] | [Hlen (r & Hr & Hoff)]]].
      * left. assumption.
      * right. intros r Hr. apply (Hroot r), decompress_u_root, Hr.
      * exfalso. rewrite Point_IsOnCurve_val in Hoff.
        rewrite (decompress_final_check (sign_bit c) yv r Hr) in Hoff.
        discriminate Hoff.
  - intros curve s P. split; [apply ScalarMult_off_curve | ].
    intros Hon. unfold Jubjub_ScalarMult. rewrite Hon. cbn [negb].
    destruct (ScalarMult_loop _ _ _ _) as [r0 r1]. exists r0. reflexivity.
Qed.

Lemma C4_InvalidPoint_cases_witness :
  Jubjub_Decompress Curve [] = (None, Some ErrInvalidPoint) /\
  Point_IsOnCurve (mkPt 1 1) = false /\
  Jubjub_ScalarMult Curve (mkScalar 5 q_order) (mkPt 1 1)
  = (None, Some ErrInvalidPoint).
Proof.
  assert (H1 : length (@nil byte) <> 32%nat) by discriminate.
  assert (H2 : Point_IsOnCurve (mkPt 1 1) = false) by (vm_compute; reflexivity).
  exact (conj
           (proj2 (proj1 (proj1 C4_InvalidPoint_cases []))
              (or_introl H1))
           (conj H2
              (proj2 (proj1 (proj2 C4_InvalidPoint_cases Curve
                               (mkScalar 5 q_order) (mkPt 1 1))) H2))).
Defined.

(** ** The byte codecs *)

Lemma FeFromBytes_val (inp : list byte) :
  Jubjub_FeFromBytes Curve inp = mkFp (le_val (firstn 32 inp) mod p_order).
Proof.
  unfold Jubjub_FeFromBytes. rewrite Curve_fieldOrder, fresh_p.
  apply fromBytes_val.
Qed.

Lemma le_val_zeros k : le_val (repeat x00 k) = 0.
Proof. induction k as [ | k IH]; cbn [repeat le_val]; [ | rewrite IH]; reflexivity. Qed.

Lemma le_val_firstn_zeros n k : le_val (firstn n (repeat x00 k)) = 0.
Proof.
  revert k; induction n as [ | n IH]; intros [ | k]; cbn [repeat firstn le_val];
    try reflexivity.
  rewrite IH. reflexivity.
Qed.

Lemma le_val_padded n (inp : list byte) k :
  le_val (firstn n (inp ++ repeat x00 k)) = le_val (firstn n inp).
Proof.
  rewrite firstn_app, le_val_app, le_val_firstn_zeros. lia.
Qed.

(** X1: the bytes of a field element are 32 and decode to the element;
    a string of 32 bytes whose little-endian value is below the field order
    is returned by encoding what it decodes to. *)
Theorem X1_field_bytes_roundtrip :
  (forall v : Z,
     length (FieldElement_ToBytes (mkFp v)) = 32%nat /\
     Jubjub_FeFromBytes Curve (FieldElement_ToBytes (mkFp v))
     = mkFp (v mod p_order)) /\
  (forall c : list byte,
     length c = 32%nat -> le_val c < p_order ->
     FieldElement_ToBytes (Jubjub_FeFromBytes Curve c) = c).
Proof.
  split.
  - intros v. split; [apply ToBytes_length | ].
    rewrite FeFromBytes_val, ToBytes_val.
    pose proof (Z.mod_pos_bound v p_order p_order_pos) as Hr.
    pose proof p_order_lt as Hp.
    rewrite firstn_all2 by (rewrite le_bytes_length; lia).
    rewrite le_val_bytes. change (256 ^ Z.of_nat 32) with (2 * 2 ^ 255).
    rewrite (Z.mod_small (v mod p_order) (2 * 2 ^ 255)) by lia.
    rewrite Z.mod_mod by lia. reflexivity.
  - intros c Hlen Hc. rewrite FeFromBytes_val, ToBytes_val.
    rewrite firstn_all2 by lia.
    pose proof (le_val_range c) as Hr.
    rewrite Z.mod_mod by (pose proof p_order_pos; lia).
    rewrite Z.mod_small by lia.
    rewrite <- Hlen. apply le_bytes_val.
Qed.

Lemma X1_field_bytes_roundtrip_witness :
  length test_vector = 32%nat /\ le_val test_vector < p_order /\
  FieldElement_ToBytes (Jubjub_FeFromBytes Curve test_vector) = test_vector.
Proof.
  assert (H1 : length test_vector = 32%nat) by reflexivity.
  assert (H2 : le_val test_vector < p_order) by (vm_compute; reflexivity).
  exact (conj H1 (conj H2
           (proj2 X1_field_bytes_roundtrip test_vector H1 H2))).
Defined.

(** X2: [FeFromBytes] reads the first 32 bytes of its input and no more,
    reads a shorter input as if it were continued with zero bytes, and
    returns a value of [[0, p)]; the empty input gives 0. *)
Theorem X2_FeFromBytes_prefix (inp : list byte) (k : nat) :
  Jubjub_FeFromBytes Curve inp = Jubjub_FeFromBytes Curve (firstn 32 inp) /\
  Jubjub_FeFromBytes Curve (inp ++ repeat x00 k) = Jubjub_FeFromBytes Curve inp /\
  0 <= fe_n (Jubjub_FeFromBytes Curve inp) < p_order /\
  Jubjub_FeFromBytes Curve [] = mkFp 0.
Proof.
  rewrite !FeFromBytes_val. split; [ | split; [ | split]].
  - rewrite firstn_firstn. reflexivity.
  - rewrite le_val_padded. reflexivity.
  - cbn [fe_n mkFp]. apply Z.mod_pos_bound, p_order_pos.
  - reflexivity.
Qed.

(** ** The bytes of scalars *)

Lemma q_order_bytes : Z.to_nat ((Big.BitLen q_order + 7) / 8) = (8 * 4)%nat.
Proof. vm_compute. reflexivity. Qed.

Lemma q_order_lt : q_order < 2 ^ 252.
Proof. reflexivity. Qed.

Lemma Scalar_ToBytes_val (k : Z) :
  Scalar_ToBytes (mkScalar k q_order) = le_bytes 32 (k mod q_order).
Proof.
  unfold Scalar_ToBytes. cbn [sc_n sc_fieldOrder].
  rewrite Mod_pos by exact q_order_pos.
  pose proof (Z.mod_pos_bound k q_order q_order_pos) as Hr.
  rewrite (words_to_bytes_spec _ _ 4 q_order_bytes); [reflexivity | ].
  change (256 ^ Z.of_nat (8 * 4)) with (2 ^ 256).
  pose proof q_order_lt. assert (2 ^ 252 < 2 ^ 256) by reflexivity. lia.
Qed.

Lemma ScalarFromBytes_val (inp : list byte) :
  Jubjub_ScalarFromBytes Curve inp
  = (let w := le_val (firstn 32 inp) in
     if q_order <? w
     then (mkScalar (w mod q_order) q_order, Some ErrScalarOutOfRange)
     else (mkScalar w q_order, None)).
Proof.
  unfold Jubjub_ScalarFromBytes, Scalar_fromBytes. rewrite Curve_subgroupOrder.
  replace (sc_fieldOrder (fst (newScalar None q_order))) with q_order by reflexivity.
  rewrite (bytes_to_nat_spec inp q_order 4 q_order_words).
  change (8 * 4)%nat with 32%nat. cbn zeta.
  rewrite Cmp_gt, Cmp_lt, Mod_pos by apply q_order_pos.
  pose proof (le_val_range (firstn 32 inp)) as Hr.
  destruct (Z.ltb_spec (le_val (firstn 32 inp)) 0); [lia | ].
  rewrite orb_false_r. reflexivity.
Qed.

(** X3: the bytes of a scalar are 32 and [ScalarFromBytes] reads them back
    as the scalar reduced modulo [n], with no signal: a scalar of [[0, n)]
    is read back as it is, and the scalar [n], which the constructors
    accept, is read back as 0.  A string of 32 bytes whose little-endian
    value is below [n] is returned by encoding what it decodes to. *)
Theorem X3_scalar_bytes_roundtrip :
  (forall k : Z,
     length (Scalar_ToBytes (mkScalar k q_order)) = 32%nat /\
     Jubjub_ScalarFromBytes Curve (Scalar_ToBytes (mkScalar k q_order))
     = (mkScalar (k mod q_order) q_order, None)) /\
  (forall c : list byte,
     length c = 32%nat -> le_val c < q_order ->
     Jubjub_ScalarFromBytes Curve c = (mkScalar (le_val c) q_order, None) /\
     Scalar_ToBytes (fst (Jubjub_ScalarFromBytes Curve c)) = c).
Proof.
  split.
  - intros k. rewrite Scalar_ToBytes_val. split; [apply le_bytes_length | ].
    rewrite ScalarFromBytes_val. cbv zeta.
    pose proof (Z.mod_pos_bound k q_order q_order_pos) as Hr.
    pose proof q_order_lt as Hq.
    rewrite firstn_all2 by (rewrite le_bytes_length; lia).
    rewrite le_val_bytes. change (256 ^ Z.of_nat 32) with (2 ^ 256).
    assert (2 ^ 252 < 2 ^ 256) by reflexivity.
    rewrite (Z.mod_small (k mod q_order) (2 ^ 256)) by lia.
    destruct (Z.ltb_spec q_order (k mod q_order)); [lia | reflexivity].
  - intros c Hlen Hc.
    assert (E : Jubjub_ScalarFromBytes Curve c = (mkScalar (le_val c) q_order, None)).
    { rewrite ScalarFromBytes_val. cbv zeta. rewrite firstn_all2 by lia.
      destruct (Z.ltb_spec q_order (le_val c)); [lia | reflexivity]. }
    split; [exact E | ]. rewrite E. cbn [fst]. rewrite Scalar_ToBytes_val.
    pose proof (le_val_range c) as Hr. rewrite Z.mod_small by lia.
    rewrite <- Hlen. apply le_bytes_val.
Qed.

Lemma X3_scalar_bytes_roundtrip_witness :
  length (le_bytes 32 1000) = 32%nat /\ le_val (le_bytes 32 1000) < q_order /\
  Jubjub_ScalarFromBytes Curve (le_bytes 32 1000)
  = (mkScalar (le_val (le_bytes 32 1000)) q_order, None) /\
  Scalar_ToBytes (fst (Jubjub_ScalarFromBytes Curve (le_bytes 32 1000)))
  = le_bytes 32 1000.
Proof.
  assert (H1 : length (le_bytes 32 1000) = 32%nat) by reflexivity.
  assert (H2 : le_val (le_bytes 32 1000) < q_order) by (vm_compute; reflexivity).
  exact (conj H1 (conj H2
           (proj2 X3_scalar_bytes_roundtrip (le_bytes 32 1000) H1 H2))).
Defined.

(** ** The compressed form of points *)

Lemma compressed_fields (xv yv : Z) :
  let c := le_bytes 32 (yv mod p_order + 2 ^ 255 * ((xv mod p_order) mod 2)) in
  length c = 32%nat /\ y_field c = yv mod p_order /\
  sign_bit c = (xv mod p_order) mod 2.
Proof.
  pose proof (Z.mod_pos_bound yv p_order p_order_pos) as HY.
  pose proof (Z.mod_pos_bound (xv mod p_order) 2 ltac:(lia)) as HS.
  pose proof p_order_lt as Hp.
  destruct (fields_of_sum (yv mod p_order) ((xv mod p_order) mod 2))
    as (L1 & _ & L3 & L4); [lia | lia | ].
  cbv zeta. split; [exact L1 | split; [exact L3 | exact L4]].
Qed.

(** X4: [MarshalBinary] and [Compress] never fail on a point of this
    curve context: they return 32 bytes whose low 255 bits hold [y] reduced
    modulo [p] and whose top bit is the parity of [x] reduced modulo [p],
    whether or not the point is on the curve. *)
Theorem X4_MarshalBinary_format (xv yv : Z) :
  exists c : list byte,
    Point_MarshalBinary (mkPt xv yv) = Some c /\
    Point_Compress (mkPt xv yv) = Some c /\
    length c = 32%nat /\
    y_field c = yv mod p_order /\
    sign_bit c = (xv mod p_order) mod 2.
Proof.
  exists (le_bytes 32 (yv mod p_order + 2 ^ 255 * ((xv mod p_order) mod 2))).
  unfold Point_Compress. rewrite MarshalBinary_val.
  split; [reflexivity | split; [reflexivity | ]].
  apply compressed_fields.
Qed.

(** X5: a point that [Decompress] returns has the [y] of the input reduced
    modulo [p], an [x] of [[0, p)] and, unless [x] is 0, the parity of [x]
    equal to the sign bit of the input. *)
Theorem X5_Decompress_coordinates (c : list byte) (P : Point) :
  Jubjub_Decompress Curve c = (Some P, None) ->
  exists xv : Z,
    P = mkPt xv (y_field c mod p_order) /\
    0 <= xv < p_order /\
    (xv <> 0 -> xv mod 2 = sign_bit c).
Proof.
  intros H. destruct (Decompress_success c P H) as (Hlen & r & Hsqrt & Hr).
  cbv zeta in Hr. destruct Hr as [_ HP].
  pose proof (ModSqrt_range _ _ Hsqrt) as Hrange.
  destruct (sign_selection_parity (sign_bit c) r Hrange (sign_bit_range c Hlen))
    as [Hx Hpar].
  eexists. split; [exact HP | ]. split; [exact Hx | ].
  intros Hnz. apply Hpar. intros E. contradiction.
Qed.

Lemma X5_Decompress_coordinates_witness :
  Jubjub_Decompress Curve test_vector = (Some test_point, None) /\
  exists xv : Z,
    test_point = mkPt xv (y_field test_vector mod p_order) /\
    0 <= xv < p_order /\
    (xv <> 0 -> xv mod 2 = sign_bit test_vector).
Proof.
  exact (conj test_vector_decompress
           (X5_Decompress_coordinates test_vector test_point
              test_vector_decompress)).
Defined.

(** X6: compressing a point of the curve and decompressing the bytes gives
    the point back, with its coordinates reduced modulo [p]. *)
Theorem X6_compress_decompress (xv yv : Z) :
  Point_IsOnCurve (mkPt xv yv) = true ->
  exists c : list byte,
    Point_MarshalBinary (mkPt xv yv) = Some c /\
    Jubjub_Decompress Curve c
    = (Some (mkPt (xv mod p_order) (yv mod p_order)), None).
Proof.
  intros Hon. apply IsOnCurve_on_curve in Hon.
  exists (le_bytes 32 (yv mod p_order + 2 ^ 255 * ((xv mod p_order) mod 2))).
  split; [apply MarshalBinary_val | ].
  destruct (compressed_fields xv yv) as (Hlen & Hy & Hs). cbv zeta in Hlen, Hy, Hs.
  rewrite Decompress_val by exact Hlen. rewrite Hy, Hs.
  rewrite Z.mod_mod by (pose proof p_order_pos; lia).
  rewrite decompress_val_on_curve; [reflexivity | | ].
  - apply Z.mod_pos_bound, p_order_pos.
  - apply (on_curve_congr xv yv); [ | | exact Hon]; symmetry; apply eqp_mod.
Qed.

Lemma X6_compress_decompress_witness :
  Point_IsOnCurve (mkPt generator_x 11) = true /\
  exists c : list byte,
    Point_MarshalBinary (mkPt generator_x 11) = Some c /\
    Jubjub_Decompress Curve c
    = (Some (mkPt (generator_x mod p_order) (11 mod p_order)), None).
Proof.
  exact (conj Generator_on_curve
           (X6_compress_decompress generator_x 11 Generator_on_curve)).
Defined.

(** [UnmarshalBinary] on a receiver of this curve context. *)
Lemma UnmarshalBinary_val (a b : Z) (c : list byte) :
  length c = 32%nat ->
  Point_UnmarshalBinary (mkPt a b) c
  = match decompress_val (sign_bit c) (y_field c mod p_order) with
    | Some (xv, yv) => (mkPt xv yv, None)
    | None => (mkPt a b, Some ErrInvalidPoint)
    end.
Proof.
  intros H. unfold Point_UnmarshalBinary.
  rewrite H. cbn [Nat.eqb negb]. cbv zeta.
  rewrite (sign_bit_byte c H).
  change (pt_curve (mkPt a b)) with Curve.
  change (pt_x (mkPt a b)) with (mkFE a p_order).
  change (pt_y (mkPt a b)) with (mkFE b p_order).
  fe_simpl.
  rewrite fromBytes_val, (y_field_bytes c H). unfold mkFp. fe_simpl.
  unfold decompress_val, FieldElement_ModSqrt. cbn [fe_n fe_fieldOrder].
  fold (decompress_u (y_field c mod p_order)).
  destruct (Big.ModSqrt (decompress_u (y_field c mod p_order)) p_order)
    as [r | ] eqn:Hsqrt; [ | reflexivity].
  pose proof (ModSqrt_range _ _ Hsqrt) as Hr.
  pose proof (decompress_final_check (sign_bit c) _ r Hsqrt) as Hfinal.
  change (mkFE r p_order) with (mkFp r). rewrite (ToBytes_lsb r Hr).
  cbv zeta.
  destruct (negb (sign_bit c =? r mod 2)); unfold mkFp; fe_simpl;
    rewrite Point_IsOnCurve_coords by reflexivity; cbn [fe_n];
    rewrite Hfinal; reflexivity.
Qed.

(** X7: [UnmarshalBinary] on any receiver of this curve context sets it to
    the point that [Decompress] returns for the same bytes; when it fails
    the error is [ErrInvalidPoint] and the receiver keeps its
    coordinates. *)
Theorem X7_UnmarshalBinary_receiver (a b : Z) (c : list byte) :
  match Point_UnmarshalBinary (mkPt a b) c with
  | (p, None) => Jubjub_Decompress Curve c = (Some p, None)
  | (p, Some e) =>
      p = mkPt a b /\ e = ErrInvalidPoint /\
      Jubjub_Decompress Curve c = (None, Some ErrInvalidPoint)
  end.
Proof.
  destruct (Nat.eq_dec (length c) 32) as [Hlen | Hlen].
  - rewrite UnmarshalBinary_val, Decompress_val by assumption.
    destruct (decompress_val (sign_bit c) (y_field c mod p_order))
      as [[xv yv] | ]; [reflexivity | ].
    split; [reflexivity | split; reflexivity].
  - rewrite Decompress_length by assumption.
    unfold Point_UnmarshalBinary.
    destruct (Nat.eqb_spec (length c) 32) as [E | _]; [contradiction | ].
    cbn [negb]. split; [reflexivity | split; reflexivity].
Qed.

(** ** The group law of the point operations *)

Lemma add_val_comm x1 y1 x2 y2 : add_val x1 y1 x2 y2 = add_val x2 y2 x1 y1.
Proof.
  unfold add_val. cbv zeta.
  rewrite (Z.mul_comm x2 x1), (Z.mul_comm y2 y1).
  rewrite (Z.add_comm ((x2 * y1) mod p_order)). reflexivity.
Qed.

(** X8: addition is commutative, for the allocating [Add] and for the
    in-place [Add] on any receiver of this curve context, on all points. *)
Theorem X8_Add_commutative (p1 p2 : Point) (a b : Z) :
  Jubjub_Add Curve p1 p2 = Jubjub_Add Curve p2 p1 /\
  Point_Add (mkPt a b) p1 p2 = Point_Add (mkPt a b) p2 p1.
Proof.
  rewrite !Point_Add_val, !Jubjub_Add_val. cbv zeta.
  rewrite (add_val_comm (fe_n (pt_x p1))). split; reflexivity.
Qed.

(** X9: addition is associative on the points of the curve. *)
Theorem X9_Add_associative (x1 y1 x2 y2 x3 y3 : Z) :
  Point_IsOnCurve (mkPt x1 y1) = true ->
  Point_IsOnCurve (mkPt x2 y2) = true ->
  Point_IsOnCurve (mkPt x3 y3) = true ->
  Jubjub_Add Curve (Jubjub_Add Curve (mkPt x1 y1) (mkPt x2 y2)) (mkPt x3 y3)
  = Jubjub_Add Curve (mkPt x1 y1) (Jubjub_Add Curve (mkPt x2 y2) (mkPt x3 y3)).
Proof.
  rewrite !IsOnCurve_on_curve. intros H1 H2 H3.
  rewrite !Jubjub_Add_mkPt.
  rewrite (add_val_assoc x1 y1 x2 y2 x3 y3 H1 H2 H3). reflexivity.
Qed.

Lemma X9_Add_associative_witness :
  Point_IsOnCurve (mkPt generator_x 11) = true /\
  Point_IsOnCurve (mkPt 0 (p_order - 1)) = true /\
  Jubjub_Add Curve
    (Jubjub_Add Curve (mkPt generator_x 11) (mkPt generator_x 11))
    (mkPt 0 (p_order - 1))
  = Jubjub_Add Curve (mkPt generator_x 11)
      (Jubjub_Add Curve (mkPt generator_x 11) (mkPt 0 (p_order - 1))).
Proof.
  assert (H2 : Point_IsOnCurve (mkPt 0 (p_order - 1)) = true)
    by (vm_compute; reflexivity).
  exact (conj Generator_on_curve (conj H2
           (X9_Add_associative generator_x 11 generator_x 11 0 (p_order - 1)
              Generator_on_curve Generator_on_curve H2))).
Defined.

Lemma on_curve_opp xv yv : on_curve xv yv -> on_curve (- xv) yv.
Proof.
  unfold on_curve. intros H.
  replace (- xv * - xv) with (xv * xv) by ring. exact H.
Qed.

Lemma add_val_opp xv yv :
  on_curve xv yv -> add_val xv yv ((- xv) mod p_order) yv = (0, 1).
Proof.
  intros Hon.
  rewrite (add_val_congr xv yv ((- xv) mod p_order) yv xv yv (- xv) yv);
    [ | reflexivity | reflexivity | apply eqp_mod | reflexivity].
  destruct (add_denominators xv yv (- xv) yv Hon (on_curve_opp _ _ Hon))
    as [_ Dm].
  assert (E : 1 - cterm xv yv (- xv) yv = 1 + d_raw * (xv * xv) * (yv * yv))
    by (unfold cterm; ring).
  rewrite E in Dm.
  unfold add_val. cbv zeta. f_equal.
  - apply (proj1 (eqp_0_mod _)). strip_mod.
    replace (xv * yv + - xv * yv) with 0 by ring. eqp_ring.
  - match goal with |- ?a mod p_order = _ => change (a == 1) end.
    strip_mod.
    replace (1 - xv * - xv * (yv * yv) * d_raw)
      with (1 + d_raw * (xv * xv) * (yv * yv)) by ring.
    replace (yv * yv + xv * - xv) with (yv * yv - xv * xv) by ring.
    unfold on_curve in Hon. rewrite Hon. rewrite Z.mul_comm.
    apply inv0_mul. exact Dm.
Qed.

(** X10: the identity is neutral for [Add] on every point, on either side,
    up to the reduction of the coordinates modulo [p]; and on a point of
    the curve, adding the point that [Neg] gives returns the identity. *)
Theorem X10_identity_and_inverse :
  (forall xv yv : Z,
     Jubjub_Add Curve (mkPt xv yv) (Jubjub_Identity Curve)
     = mkPt (xv mod p_order) (yv mod p_order) /\
     Jubjub_Add Curve (Jubjub_Identity Curve) (mkPt xv yv)
     = mkPt (xv mod p_order) (yv mod p_order)) /\
  (forall xv yv a b : Z,
     Point_IsOnCurve (mkPt xv yv) = true ->
     Jubjub_Add Curve (mkPt xv yv) (Point_Neg (mkPt a b) (mkPt xv yv))
     = Jubjub_Identity Curve).
Proof.
  split.
  - intros xv yv. rewrite Identity_val, !Jubjub_Add_mkPt.
    rewrite add_val_identity_r, add_val_identity_l. split; reflexivity.
  - intros xv yv a b Hon. apply IsOnCurve_on_curve in Hon.
    rewrite Point_Neg_val, Jubjub_Add_mkPt, (add_val_opp xv yv Hon).
    reflexivity.
Qed.

Lemma X10_identity_and_inverse_witness :
  Point_IsOnCurve (mkPt generator_x 11) = true /\
  Jubjub_Add Curve (mkPt generator_x 11)
    (Point_Neg (mkPt 0 1) (mkPt generator_x 11))
  = Jubjub_Identity Curve.
Proof.
  exact (conj Generator_on_curve
           (proj2 X10_identity_and_inverse generator_x 11 0 1
              Generator_on_curve)).
Defined.

(** X11: doubling is the addition of a point to itself, for the allocating
    and the in-place operations, on all points. *)
Theorem X11_Double_is_Add (p1 : Point) (a b : Z) :
  Jubjub_Double Curve p1 = Jubjub_Add Curve p1 p1 /\
  Point_Double (mkPt a b) p1 = Point_Add (mkPt a b) p1 p1.
Proof.
  split; [apply Jubjub_Double_val | ].
  rewrite Point_Double_val, Point_Add_val. reflexivity.
Qed.

(** ** Scalar multiplication as a group action *)

Lemma ScalarMult_rep_val (k order xv yv : Z) :
  0 <= k -> on_curve xv yv ->
  Jubjub_ScalarMult Curve (mkScalar k order) (mkPt xv yv)
  = (Some (mkPt (fst (rep_val (Z.to_nat k) xv yv))
                (snd (rep_val (Z.to_nat k) xv yv))), None).
Proof.
  intros Hk Hon. rewrite ScalarMult_repeated_add.
  - rewrite repeated_add_val. reflexivity.
  - assumption.
  - apply IsOnCurve_on_curve. assumption.
Qed.

Lemma rep_val_mul a b xv yv :
  on_curve xv yv ->
  rep_val a (fst (rep_val b xv yv)) (snd (rep_val b xv yv))
  = rep_val (a * b) xv yv.
Proof.
  intros Hon. induction a as [ | a IH].
  - reflexivity.
  - cbn [rep_val]. rewrite IH, rep_val_add by assumption.
    f_equal. cbn [Nat.mul]. lia.
Qed.

(** X12: scalar multiplication is additive in the scalar: on a point of the
    curve, [ScalarMult(a + b, P)] is the sum that [Add] gives of
    [ScalarMult(a, P)] and [ScalarMult(b, P)]. *)
Theorem X12_ScalarMult_additive (a b oa ob oab xv yv : Z) :
  0 <= a -> 0 <= b ->
  Point_IsOnCurve (mkPt xv yv) = true ->
  exists Ra Rb : Point,
    Jubjub_ScalarMult Curve (mkScalar a oa) (mkPt xv yv) = (Some Ra, None) /\
    Jubjub_ScalarMult Curve (mkScalar b ob) (mkPt xv yv) = (Some Rb, None) /\
    Jubjub_ScalarMult Curve (mkScalar (a + b) oab) (mkPt xv yv)
    = (Some (Jubjub_Add Curve Ra Rb), None).
Proof.
  intros Ha Hb Hon. apply IsOnCurve_on_curve in Hon.
  do 2 eexists.
  split; [apply ScalarMult_rep_val; assumption | ].
  split; [apply ScalarMult_rep_val; assumption | ].
  rewrite ScalarMult_rep_val by (assumption || lia).
  rewrite Jubjub_Add_mkPt, rep_val_add by assumption.
  rewrite Z2Nat.inj_add by assumption. reflexivity.
Qed.

Lemma X12_ScalarMult_additive_witness :
  0 <= 2 /\ 0 <= 3 /\
  Point_IsOnCurve (mkPt generator_x 11) = true /\
  exists Ra Rb : Point,
    Jubjub_ScalarMult Curve (mkScalar 2 q_order) (mkPt generator_x 11)
    = (Some Ra, None) /\
    Jubjub_ScalarMult Curve (mkScalar 3 q_order) (mkPt generator_x 11)
    = (Some Rb, None) /\
    Jubjub_ScalarMult Curve (mkScalar (2 + 3) q_order) (mkPt generator_x 11)
    = (Some (Jubjub_Add Curve Ra Rb), None).
Proof.
  assert (H1 : 0 <= 2) by discriminate.
  assert (H2 : 0 <= 3) by discriminate.
  exact (conj H1 (conj H2 (conj Generator_on_curve
           (X12_ScalarMult_additive 2 3 q_order q_order q_order generator_x 11
              H1 H2 Generator_on_curve)))).
Defined.

(** X13: on a point of the curve, the scalar 0 gives the identity and the
    scalar 1 gives the point, with its coordinates reduced modulo [p]. *)
Theorem X13_ScalarMult_zero_one (order xv yv : Z) :
  Point_IsOnCurve (mkPt xv yv) = true ->
  Jubjub_ScalarMult Curve (mkScalar 0 order) (mkPt xv yv)
  = (Some (Jubjub_Identity Curve), None) /\
  Jubjub_ScalarMult Curve (mkScalar 1 order) (mkPt xv yv)
  = (Some (mkPt (xv mod p_order) (yv mod p_order)), None).
Proof.
  intros Hon. apply IsOnCurve_on_curve in Hon.
  rewrite !ScalarMult_rep_val by (assumption || lia).
  change (Z.to_nat 0) with 0%nat. change (Z.to_nat 1) with 1%nat.
  cbn [rep_val fst snd]. rewrite add_val_identity_l. split; reflexivity.
Qed.

Lemma X13_ScalarMult_zero_one_witness :
  Point_IsOnCurve (mkPt generator_x 11) = true /\
  Jubjub_ScalarMult Curve (mkScalar 0 q_order) (mkPt generator_x 11)
  = (Some (Jubjub_Identity Curve), None) /\
  Jubjub_ScalarMult Curve (mkScalar 1 q_order) (mkPt generator_x 11)
  = (Some (mkPt (generator_x mod p_order) (11 mod p_order)), None).
Proof.
  exact (conj Generator_on_curve
           (X13_ScalarMult_zero_one q_order generator_x 11 Generator_on_curve)).
Defined.

(** X14: scalar multiplications compose: on a point of the curve,
    multiplying by [b] and the result by [a] gives what multiplying by
    [a * b] gives. *)
Theorem X14_ScalarMult_composes (a b oa ob oab xv yv : Z) :
  0 <= a -> 0 <= b ->
  Point_IsOnCurve (mkPt xv yv) = true ->
  exists Rb : Point,
    Jubjub_ScalarMult Curve (mkScalar b ob) (mkPt xv yv) = (Some Rb, None) /\
    Jubjub_ScalarMult Curve (mkScalar a oa) Rb
    = Jubjub_ScalarMult Curve (mkScalar (a * b) oab) (mkPt xv yv).
Proof.
  intros Ha Hb Hon. apply IsOnCurve_on_curve in Hon.
  eexists. split; [apply ScalarMult_rep_val; assumption | ].
  rewrite !ScalarMult_rep_val;
    [ | lia | assumption | assumption | apply rep_val_on_curve; assumption ].
  rewrite rep_val_mul by assumption.
  rewrite Z2Nat.inj_mul by assumption. reflexivity.
Qed.

Lemma X14_ScalarMult_composes_witness :
  0 <= 2 /\ 0 <= 3 /\
  Point_IsOnCurve (mkPt generator_x 11) = true /\
  exists Rb : Point,
    Jubjub_ScalarMult Curve (mkScalar 3 q_order) (mkPt generator_x 11)
    = (Some Rb, None) /\
    Jubjub_ScalarMult Curve (mkScalar 2 q_order) Rb
    = Jubjub_ScalarMult Curve (mkScalar (2 * 3) q_order) (mkPt generator_x 11).
Proof.
  assert (H1 : 0 <= 2) by discriminate.
  assert (H2 : 0 <= 3) by discriminate.
  exact (conj H1 (conj H2 (conj Generator_on_curve
           (X14_ScalarMult_composes 2 3 q_order q_order q_order generator_x 11
              H1 H2 Generator_on_curve)))).
Defined.

Lemma rep_val_double k xv yv :
  on_curve xv yv ->
  rep_val (k + k) xv yv
  = add_val (fst (rep_val k xv yv)) (snd (rep_val k xv yv))
            (fst (rep_val k xv yv)) (snd (rep_val k xv yv)).
Proof. intros H. symmetry. apply rep_val_add. assumption. Qed.

(** X15: on a point of the curve [MulByCofactor] returns the point added
    eight times to the identity, which is the point doubled three times;
    on a point off the curve it has no result, the failure of [ScalarMult]
    being dropped. *)
Theorem X15_MulByCofactor (xv yv : Z) :
  (Point_IsOnCurve (mkPt xv yv) = true ->
   Point_MulByCofactor (mkPt xv yv) = Some (repeated_add 8 (mkPt xv yv)) /\
   Point_MulByCofactor (mkPt xv yv)
   = Some (Jubjub_Double Curve
             (Jubjub_Double Curve (Jubjub_Double Curve (mkPt xv yv))))) /\
  (Point_IsOnCurve (mkPt xv yv) = false ->
   Point_MulByCofactor (mkPt xv yv) = None).
Proof.
  split.
  - intros Hon.
    assert (E : Point_MulByCofactor (mkPt xv yv)
                = Some (repeated_add 8 (mkPt xv yv))).
    { unfold Point_MulByCofactor. change (pt_curve (mkPt xv yv)) with Curve.
      rewrite Curve_cofactor, ScalarMult_repeated_add by (assumption || lia).
      cbn [fst]. change (Z.to_nat 8) with 8%nat.
      rewrite repeated_add_val. reflexivity. }
    split; [exact E | ]. rewrite E. f_equal.
    apply IsOnCurve_on_curve in Hon.
    rewrite repeated_add_val, !Jubjub_Double_val, !Jubjub_Add_mkPt.
    change 8%nat with (4 + 4)%nat. rewrite rep_val_double by assumption.
    change 4%nat with (2 + 2)%nat. rewrite rep_val_double by assumption.
    change 2%nat with (1 + 1)%nat. rewrite rep_val_double by assumption.
    cbn [rep_val fst snd]. rewrite add_val_identity_l. cbn [fst snd].
    rewrite (add_val_congr (xv mod p_order) (yv mod p_order)
               (xv mod p_order) (yv mod p_order) xv yv xv yv)
      by apply eqp_mod.
    reflexivity.
  - intros Hoff. unfold Point_MulByCofactor.
    apply (ScalarMult_off_curve (pt_curve (mkPt xv yv))
             (jj_cofactor (pt_curve (mkPt xv yv)))) in Hoff.
    rewrite Hoff. reflexivity.
Qed.

Lemma X15_MulByCofactor_witness :
  Point_IsOnCurve (mkPt generator_x 11) = true /\
  Point_IsOnCurve (mkPt 1 1) = false /\
  Point_MulByCofactor (mkPt generator_x 11)
  = Some (repeated_add 8 (mkPt generator_x 11)) /\
  Point_MulByCofactor (mkPt 1 1) = None.
Proof.
  assert (H2 : Point_IsOnCurve (mkPt 1 1) = false) by (vm_compute; reflexivity).
  exact (conj Generator_on_curve (conj H2
           (conj (proj1 (proj1 (X15_MulByCofactor generator_x 11)
                          Generator_on_curve))
                 (proj2 (X15_MulByCofactor 1 1) H2)))).
Defined.

(** ** The field operations at the field order *)

Lemma ModInverse_general v :
  Big.ModInverse v p_order
  = if v mod p_order =? 0 then None
    else Some (Z.invmod (v mod p_order) p_order).
Proof.
  unfold Big.ModInverse. cbv zeta. change (Z.abs p_order) with p_order.
  pose proof p_order_pos as Hp. pose proof p_order_prime as Hprime.
  set (g := if v <? 0 then v mod p_order else v).
  assert (Hg : g mod p_order = v mod p_order).
  { subst g. destruct (v <? 0); [apply Z.mod_mod; lia | reflexivity]. }
  assert (Hinv : Z.invmod g p_order = Z.invmod (v mod p_order) p_order).
  { rewrite <- Hg. symmetry. apply Z.invmod_mod_l. }
  destruct (Z.eqb_spec (v mod p_order) 0) as [E | E].
  - assert (Hdiv : (p_order | g)) by (apply Z.mod_divide; [lia | congruence]).
    assert (Hgcd : Z.gcd g p_order = p_order).
    { rewrite Z.gcd_comm. apply Z.divide_gcd_iff; [lia | assumption]. }
    rewrite Hgcd. reflexivity.
  - assert (Hgcd : Z.gcd g p_order = 1).
    { rewrite Z.gcd_comm. apply Z.coprime_prime_l; [assumption | ].
      intros Hdiv. apply Z.mod_divide in Hdiv; [ | lia]. congruence. }
    rewrite Hgcd. cbn [Z.eqb Pos.eqb]. rewrite Hinv. reflexivity.
Qed.

Lemma invmod_inverse v :
  v mod p_order <> 0 ->
  0 <= Z.invmod (v mod p_order) p_order < p_order /\
  (Z.invmod (v mod p_order) p_order * v) mod p_order = 1.
Proof.
  intros Hnz. split.
  - unfold Z.invmod. apply Z.mod_pos_bound. exact p_order_pos.
  - pose proof (inv0_mul v) as H. rewrite inv0_general in H.
    destruct (Z.eqb_spec (v mod p_order) 0); [contradiction | ].
    unfold eqp in H. rewrite H.
    + reflexivity.
    + intros E. apply Hnz. apply eqp_0_mod. exact E.
Qed.

(** X16: on an element that is not 0 modulo [p], [ModInverse] leaves in
    its receiver the inverse, a value of [[0, p)] whose product with the
    element is 1; on an element that is 0 modulo [p] it leaves the receiver
    as it was. *)
Theorem X16_ModInverse (a v : Z) :
  (v mod p_order = 0 ->
   FieldElement_ModInverse (mkFp a) (mkFp v) = mkFp a) /\
  (v mod p_order <> 0 ->
   exists i : Z,
     FieldElement_ModInverse (mkFp a) (mkFp v) = mkFp i /\
     0 <= i < p_order /\
     FieldElement_Mul (mkFp a) (mkFp i) (mkFp v) = mkFp 1).
Proof.
  unfold FieldElement_ModInverse, mkFp. cbn [fe_n fe_fieldOrder].
  rewrite ModInverse_general. split.
  - intros E. rewrite E. reflexivity.
  - intros Hnz. destruct (Z.eqb_spec (v mod p_order) 0); [contradiction | ].
    destruct (invmod_inverse v Hnz) as [Hr Hm].
    exists (Z.invmod (v mod p_order) p_order).
    split; [reflexivity | ]. split; [exact Hr | ].
    rewrite Mul_p. cbn [fe_n]. rewrite Hm. reflexivity.
Qed.

Lemma X16_ModInverse_witness :
  (p_order mod p_order = 0 /\
   FieldElement_ModInverse (mkFp 7) (mkFp p_order) = mkFp 7) /\
  (10241 mod p_order <> 0 /\
   exists i : Z,
     FieldElement_ModInverse (mkFp 7) (mkFp 10241) = mkFp i /\
     0 <= i < p_order /\
     FieldElement_Mul (mkFp 7) (mkFp i) (mkFp 10241) = mkFp 1).
Proof.
  assert (H1 : p_order mod p_order = 0) by reflexivity.
  assert (H2 : 10241 mod p_order <> 0) by discriminate.
  exact (conj (conj H1 (proj1 (X16_ModInverse 7 p_order) H1))
              (conj H2 (proj2 (X16_ModInverse 7 10241) H2))).
Defined.

(** X17: [ModSqrt] returns nil exactly on the elements that are not squares
    modulo [p]; otherwise it returns an element of [[0, p)] whose square is
    the argument reduced modulo [p]. *)
Theorem X17_ModSqrt (a x : Z) :
  match FieldElement_ModSqrt (mkFp a) (mkFp x) with
  | Some r =>
      0 <= fe_n r < p_order /\ fe_fieldOrder r = p_order /\
      FieldElement_Mul (mkFp a) r r = mkFp (x mod p_order)
  | None => forall w : Z, (w * w) mod p_order <> x mod p_order
  end.
Proof.
  unfold FieldElement_ModSqrt, mkFp. cbn [fe_n fe_fieldOrder].
  destruct (Big.ModSqrt x p_order) as [r | ] eqn:E.
  - split; [exact (ModSqrt_range x r E) | ]. split; [reflexivity | ].
    rewrite Mul_p. cbn [fe_n]. f_equal. exact (ModSqrt_Some x r E).
  - intros w Hw. exact (ModSqrt_None x E w Hw).
Qed.

(** X18: whatever their arguments hold, [Add], [Sub], [Mul], [Neg] and
    [fromBytes] leave a value of [[0, order)] in a receiver of positive
    order, and so does [Exp] with an exponent that is not negative. *)
Theorem X18_operations_reduce (z a b : FieldElement) (ser : list byte) :
  0 < fe_fieldOrder z ->
  let r v := 0 <= fe_n v < fe_fieldOrder z in
  r (FieldElement_Add z a b) /\ r (FieldElement_Sub z a b) /\
  r (FieldElement_Mul z a b) /\ r (FieldElement_Neg z a) /\
  r (FieldElement_fromBytes z ser) /\
  (0 <= fe_n b -> r (FieldElement_Exp z a b)).
Proof.
  intros Hpos r. unfold r. clear r.
  pose proof (fun v => Z.mod_pos_bound v (fe_fieldOrder z) Hpos) as Hmod.
  unfold FieldElement_Add, FieldElement_Sub, FieldElement_Mul,
    FieldElement_Neg, FieldElement_fromBytes. cbn [fe_n].
  rewrite !Mod_pos by assumption.
  split; [apply Hmod | ]. split; [apply Hmod | ]. split; [apply Hmod | ].
  split; [apply Hmod | ]. split; [apply Hmod | ].
  intros Hb. unfold FieldElement_Exp, Big.Exp. cbv zeta.
  destruct (Z.ltb_spec (fe_n b) 0); [lia | ]. cbn [fe_n].
  rewrite Z.abs_eq by lia. apply powmod_range. assumption.
Qed.

Lemma X18_operations_reduce_witness :
  0 < fe_fieldOrder (mkFp 0) /\
  0 <= fe_n (FieldElement_Sub (mkFp 0) (mkFp 3) (mkFp (-5))) < p_order /\
  0 <= fe_n (FieldElement_Neg (mkFp 0) (mkFp p_order)) < p_order.
Proof.
  assert (H : 0 < fe_fieldOrder (mkFp 0)) by reflexivity.
  pose proof (X18_operations_reduce (mkFp 0) (mkFp 3) (mkFp (-5)) [] H) as A.
  pose proof (X18_operations_reduce (mkFp 0) (mkFp p_order) (mkFp 0) [] H) as B.
  cbv zeta in A, B.
  exact (conj H (conj (proj1 (proj2 A))
                      (proj1 (proj2 (proj2 (proj2 B)))))).
Defined.

Lemma d_raw_quotient : d_raw * 10241 == - 10240.
Proof. unfold eqp. vm_compute. reflexivity. Qed.

(** X19: [IsOnCurve] holds exactly for the points whose coordinates satisfy
    [-x^2 + y^2 = 1 + d*x^2*y^2] modulo [p], where [d] is the value held by
    the curve context, for which [d * 10241 = -10240] modulo [p]; the
    answer depends on the coordinates modulo [p] only. *)
Theorem X19_IsOnCurve_equation (xv yv : Z) :
  (if Point_IsOnCurve (mkPt xv yv)
   then (yv * yv - xv * xv) mod p_order
        = (1 + d_raw * (xv * xv) * (yv * yv)) mod p_order
   else (yv * yv - xv * xv) mod p_order
        <> (1 + d_raw * (xv * xv) * (yv * yv)) mod p_order) /\
  Point_IsOnCurve (mkPt (xv mod p_order) (yv mod p_order))
  = Point_IsOnCurve (mkPt xv yv) /\
  fe_n (jj_d Curve) = d_raw /\
  (d_raw * 10241) mod p_order = (- 10240) mod p_order.
Proof.
  split; [ | split; [ | split; [reflexivity | exact d_raw_quotient]]].
  - destruct (Point_IsOnCurve (mkPt xv yv)) eqn:E.
    + apply IsOnCurve_on_curve in E. exact E.
    + apply IsOnCurve_false in E. exact E.
  - assert (H : on_curve (xv mod p_order) (yv mod p_order) <-> on_curve xv yv).
    { split; apply on_curve_congr;
        try apply eqp_mod; symmetry; apply eqp_mod. }
    destruct (Point_IsOnCurve (mkPt xv yv)) eqn:E.
    + apply IsOnCurve_on_curve, H, IsOnCurve_on_curve, E.
    + apply IsOnCurve_false. intros C. apply IsOnCurve_false in E.
      apply E, H, C.
Qed.

Lemma powmod_unit_inverse x :
  x mod p_order <> 0 ->
  x ^ (p_order - 2) mod p_order = Z.invmod (x mod p_order) p_order.
Proof.
  intros Hnz.
  assert (Hx : ~ x == 0) by (intros E; apply Hnz, eqp_0_mod, E).
  destruct (invmod_inverse x Hnz) as [Hr Hm].
  apply eqp_small; [apply Z.mod_pos_bound, p_order_pos | exact Hr | ].
  rewrite eqp_mod. apply (eqp_mul_cancel_l x); [exact Hx | ].
  rewrite <- Z.pow_succ_r by (vm_compute; discriminate).
  replace (Z.succ (p_order - 2)) with (p_order - 1) by lia.
  rewrite (eqp_fermat x Hx). symmetry.
  unfold eqp. rewrite Z.mul_comm, Hm. reflexivity.
Qed.

(** X20: with an exponent [y >= 0], [Exp] leaves [x^y mod p] in its
    receiver; on an element that is not 0 modulo [p], the exponent [p - 1]
    gives 1 and the exponent [p - 2] gives what [ModInverse] gives. *)
Theorem X20_Exp (a x : Z) :
  (forall y : Z, 0 <= y ->
     FieldElement_Exp (mkFp a) (mkFp x) (mkFp y) = mkFp (x ^ y mod p_order)) /\
  (x mod p_order <> 0 ->
   FieldElement_Exp (mkFp a) (mkFp x) (mkFp (p_order - 1)) = mkFp 1 /\
   FieldElement_Exp (mkFp a) (mkFp x) (mkFp (p_order - 2))
   = FieldElement_ModInverse (mkFp a) (mkFp x)).
Proof.
  assert (Hexp : forall y : Z, 0 <= y ->
            FieldElement_Exp (mkFp a) (mkFp x) (mkFp y)
            = mkFp (x ^ y mod p_order)).
  { intros y Hy. unfold FieldElement_Exp, Big.Exp, mkFp.
    cbn [fe_n fe_fieldOrder]. change (Z.abs p_order) with p_order.
    destruct (Z.ltb_spec y 0); [lia | ].
    rewrite powmod_spec by assumption. reflexivity. }
  split; [exact Hexp | ]. intros Hnz.
  rewrite !Hexp by (vm_compute; discriminate). split.
  - f_equal.
    assert (Hx : ~ x == 0) by (intros E; apply Hnz, eqp_0_mod, E).
    pose proof (eqp_fermat x Hx) as Hf. unfold eqp in Hf. rewrite Hf.
    reflexivity.
  - unfold FieldElement_ModInverse, mkFp. cbn [fe_n fe_fieldOrder].
    rewrite ModInverse_general.
    destruct (Z.eqb_spec (x mod p_order) 0); [contradiction | ].
    f_equal. apply powmod_unit_inverse. assumption.
Qed.

Lemma X20_Exp_witness :
  0 <= 5 /\ 3 mod p_order <> 0 /\
  FieldElement_Exp (mkFp 0) (mkFp 3) (mkFp 5) = mkFp (3 ^ 5 mod p_order) /\
  FieldElement_Exp (mkFp 0) (mkFp 3) (mkFp (p_order - 1)) = mkFp 1 /\
  FieldElement_Exp (mkFp 0) (mkFp 3) (mkFp (p_order - 2))
  = FieldElement_ModInverse (mkFp 0) (mkFp 3).
Proof.
  assert (H1 : 0 <= 5) by discriminate.
  assert (H2 : 3 mod p_order <> 0) by discriminate.
  exact (conj H1 (conj H2
           (conj (proj1 (X20_Exp 0 3) 5 H1) (proj2 (X20_Exp 0 3) H2)))).
Defined.

(** ** What the in-place operations leave alone *)

Lemma Heap_Point_Double_frame (s : Heap.store) (c : Heap.CurveRef)
      (p p1 : Heap.PointRef) (a : Heap.addr) :
  Heap.c_fieldOrder c = p_order ->
  (a < Heap.next s)%nat -> a <> Heap.r_x p -> a <> Heap.r_y p ->
  Heap.load (snd (Heap.Point_Double c p p1 s)) a = Heap.load s a.
Proof.
  intros Ho Ha Hax Hay.
  remember (Heap.load s a) as v eqn:E. symmetry in E.
  change (wp (Heap.Point_Double c p p1) (fun _ s' => Heap.load s' a = v) s).
  unfold Heap.Point_Double. rewrite Ho. cbv zeta.
  repeat wp_step.
  assumption.
Qed.

(** X21: [p.Add(p1, p2)] and [p.Double(p1)] write the two coordinates of
    their receiver and nothing else that existed before the call: every
    other integer of the store, the coordinates of an argument that is not
    the receiver and the constants of the curve context among them, holds
    the value it held. *)
Theorem X21_in_place_frame (s : Heap.store) (c : Heap.CurveRef)
        (p p1 p2 : Heap.PointRef) (a : Heap.addr) :
  Heap.c_fieldOrder c = p_order ->
  (a < Heap.next s)%nat -> a <> Heap.r_x p -> a <> Heap.r_y p ->
  Heap.load (snd (Heap.Point_Add c p p1 p2 s)) a = Heap.load s a /\
  Heap.load (snd (Heap.Point_Double c p p1 s)) a = Heap.load s a.
Proof.
  intros Ho Ha Hax Hay. split.
  - apply Heap_Point_Add_frame; assumption.
  - apply Heap_Point_Double_frame; assumption.
Qed.

Lemma X21_in_place_frame_witness :
  let c := Heap.mkCurveRef p_order 0%nat 1%nat in
  let p1 := Heap.mkPointRef 2%nat 3%nat in
  let p2 := Heap.mkPointRef 4%nat 5%nat in
  Heap.c_fieldOrder c = p_order /\
  (5 < Heap.next example_store)%nat /\ 5%nat <> Heap.r_x p1 /\
  5%nat <> Heap.r_y p1 /\
  Heap.load (snd (Heap.Point_Add c p1 p1 p2 example_store)) 5%nat
  = Heap.load example_store 5%nat /\
  Heap.load (snd (Heap.Point_Double c p1 p1 example_store)) 5%nat
  = Heap.load example_store 5%nat.
Proof.
  cbv zeta.
  assert (H1 : Heap.c_fieldOrder (Heap.mkCurveRef p_order 0%nat 1%nat) = p_order)
    by reflexivity.
  assert (H2 : (5 < Heap.next example_store)%nat) by (cbn; lia).
  assert (H3 : 5%nat <> Heap.r_x (Heap.mkPointRef 2%nat 3%nat)) by (cbn; lia).
  assert (H4 : 5%nat <> Heap.r_y (Heap.mkPointRef 2%nat 3%nat)) by (cbn; lia).
  exact (conj H1 (conj H2 (conj H3 (conj H4
           (X21_in_place_frame example_store _ _ _
              (Heap.mkPointRef 4%nat 5%nat) 5%nat H1 H2 H3 H4))))).
Defined.

(** ** Canonical coordinates *)

Lemma ScalarMult_loop_reduced steps n : forall a0 b0 a1 b1,
  0 <= a0 < p_order -> 0 <= b0 < p_order ->
  exists a b,
    fst (ScalarMult_loop steps n (mkPt a0 b0) (mkPt a1 b1)) = mkPt a b /\
    0 <= a < p_order /\ 0 <= b < p_order.
Proof.
  induction steps as [ | i IH]; intros a0 b0 a1 b1 Ha Hb; cbn [ScalarMult_loop].
  - exists a0, b0. split; [reflexivity | split; assumption].
  - destruct (Big.Bit n (Z.of_nat i) =? 0); cbv zeta;
      rewrite !Point_Add_val, !Point_Double_val, !Jubjub_Add_mkPt;
      apply IH; apply add_val_range.
Qed.

(** X22: the points that [Identity], [Add], [Double], [ScalarMult] and
    [Decompress] return have both coordinates in [[0, p)], whatever the
    coordinates of their arguments hold; [Equals], which compares the
    integers, then compares the residues. *)
Theorem X22_coordinates_reduced :
  let r := fun P : Point =>
             0 <= fe_n (pt_x P) < p_order /\ 0 <= fe_n (pt_y P) < p_order in
  r (Jubjub_Identity Curve) /\
  (forall (p1 p2 : Point) (a b : Z),
     r (Jubjub_Add Curve p1 p2) /\ r (Point_Add (mkPt a b) p1 p2) /\
     r (Jubjub_Double Curve p1) /\ r (Point_Double (mkPt a b) p1)) /\
  (forall (s : Scalar) (xv yv : Z) (R : Point),
     Jubjub_ScalarMult Curve s (mkPt xv yv) = (Some R, None) -> r R) /\
  (forall (c : list byte) (P : Point),
     Jubjub_Decompress Curve c = (Some P, None) -> r P).
Proof.
  cbv zeta. split; [ | split; [ | split]].
  - rewrite Identity_val. cbn [mkPt mkFp pt_x pt_y fe_n]. split; split;
      (discriminate || reflexivity).
  - intros p1 p2 a b.
    rewrite Point_Add_val, Point_Double_val, Jubjub_Double_val, !Jubjub_Add_val.
    cbv zeta. cbn [mkPt mkFp pt_x pt_y fe_n].
    pose proof (add_val_range (fe_n (pt_x p1)) (fe_n (pt_y p1))
                  (fe_n (pt_x p2)) (fe_n (pt_y p2))) as H12.
    pose proof (add_val_range (fe_n (pt_x p1)) (fe_n (pt_y p1))
                  (fe_n (pt_x p1)) (fe_n (pt_y p1))) as H11.
    cbv zeta in H12, H11. repeat split; (apply H12 || apply H11).
  - intros s xv yv R H. unfold Jubjub_ScalarMult in H.
    destruct (Point_IsOnCurve (mkPt xv yv)); cbn [negb] in H; [ | discriminate].
    rewrite Identity_val, Point_Clone_val in H.
    destruct (ScalarMult_loop_reduced (Z.to_nat (Big.BitLen (sc_n s))) (sc_n s)
                0 1 xv yv) as (a & b & E & Ha & Hb).
    + split; [discriminate | reflexivity].
    + split; [discriminate | reflexivity].
    + destruct (ScalarMult_loop _ _ _ _) as [r0 r1]. cbn [fst] in E.
      injection H as <-. subst r0. cbn [mkPt mkFp pt_x pt_y fe_n].
      split; assumption.
  - intros c P H.
    destruct (Decompress_success c P H) as (Hlen & r & Hsqrt & Hr).
    cbv zeta in Hr. destruct Hr as [_ ->].
    pose proof (ModSqrt_range _ _ Hsqrt) as Hrange.
    destruct (sign_selection_parity (sign_bit c) r Hrange
                (sign_bit_range c Hlen)) as [Hx _].
    cbn [mkPt mkFp pt_x pt_y fe_n]. split; [exact Hx | ].
    apply Z.mod_pos_bound, p_order_pos.
Qed.

Lemma X22_coordinates_reduced_witness :
  Jubjub_Decompress Curve test_vector = (Some test_point, None) /\
  0 <= fe_n (pt_x test_point) < p_order /\
  0 <= fe_n (pt_y test_point) < p_order.
Proof.
  exact (conj test_vector_decompress
           (proj2 (proj2 (proj2 X22_coordinates_reduced))
              test_vector test_point test_vector_decompress)).
Defined.
